(** * nonebot.drivers.aiohttp: the forward driver's connection life cycle

    A shallow embedding of [src/nonebot/drivers/aiohttp.py].  The synchronous
    methods of [Driver] are functions on a record; the [async def] methods are
    resumption trees over the effects and awaits the source performs; asyncio
    itself (tasks, [gather], [cancel], [all_tasks], [loop.stop]) is a small
    step function on an event-loop state. *)

From Stdlib Require Import Floats Ascii.
From stdpp Require Import gmap strings list.

Open Scope string_scope.
Open Scope list_scope.

(** ** Data *)

Definition bytes := list Byte.byte.

(** A Python [str] as its sequence of code points. *)
Definition str := list N.

(** The fields of [nonebot.drivers.HTTPConnection] the driver reads. *)
Record ConnectionInfo := {
  scheme : string;
  path : string;
  query_string : bytes;
  headers : gmap string string
}.

(** [HTTPRequest] and [WebSocket] are the two subclasses [setup] accepts;
    [PlainConnection] stands for any other object passed as [request]. *)
Inductive HTTPConnection :=
| HTTPRequest (info : ConnectionInfo) (method : string) (body : bytes)
| WebSocket (info : ConnectionInfo)
| PlainConnection (info : ConnectionInfo).

Definition info_of (request : HTTPConnection) : ConnectionInfo :=
  match request with
  | HTTPRequest i _ _ | WebSocket i | PlainConnection i => i
  end.

Definition method_of (request : HTTPConnection) : string :=
  match request with HTTPRequest _ m _ => m | _ => "GET" end.

Definition body_of (request : HTTPConnection) : bytes :=
  match request with HTTPRequest _ _ b => b | _ => [] end.

(** [isinstance(request, HTTPRequest)] *)
Definition is_HTTPRequest (request : HTTPConnection) : bool :=
  match request with HTTPRequest _ _ _ => true | _ => false end.

(** [isinstance(request, (HTTPRequest, WebSocket))] *)
Definition is_available_request (request : HTTPConnection) : bool :=
  match request with PlainConnection _ => false | _ => true end.

Record RequestSetup := {
  adapter : string;
  request : HTTPConnection;
  poll_interval : float;
  reconnect_interval : float
}.

(** A hook is a callable; the hook sets hold them by identity. *)
Definition func := string.

(** The class [self._adapters[adapter]] yields, and the bot it constructs:
    [BotClass(self_id, request)]. *)
Record BotClass := { adapter_type : string }.

Record Bot := {
  bot_class : BotClass;
  self_id : string;
  bot_request : HTTPConnection
}.

Record Driver := {
  startup_funcs : gset func;
  shutdown_funcs : gset func;
  requests : list RequestSetup;
  _adapters : gmap string BotClass
}.

(** [Driver.__init__]: empty hook sets, no requests. *)
Definition init (adapters : gmap string BotClass) : Driver :=
  {| startup_funcs := ∅; shutdown_funcs := ∅; requests := [];
     _adapters := adapters |}.

Inductive Signals := SIGHUP | SIGTERM | SIGINT.

(** ** Exceptions *)

Inductive exn :=
| CancelledError
| KeyError (key : string)
| TypeError (message : string)
| SetupFailed (message : string)
| ClientResponseError (status : Z)
| UnicodeEncodeError
| OtherException (what : string)
| OtherBaseException (what : string)
| ValueError (message : string)
| RuntimeError (message : string).

(** [isinstance(e, Exception)]: [asyncio.CancelledError] derives from
    [BaseException], like [KeyboardInterrupt] and [SystemExit]. *)
Definition is_Exception (e : exn) : bool :=
  match e with
  | CancelledError | OtherBaseException _ => false
  | _ => true
  end.

Definition is_ClientResponseError (e : exn) : bool :=
  match e with ClientResponseError _ => true | _ => false end.

Definition is_CancelledError (e : exn) : bool :=
  match e with CancelledError => true | _ => false end.

(** ** Synchronous methods *)

(** [on_startup]: [self.startup_funcs.add(func); return func] *)
Definition on_startup (self : Driver) (f : func) : Driver * func :=
  ({| startup_funcs := {[ f ]} ∪ startup_funcs self;
      shutdown_funcs := shutdown_funcs self;
      requests := requests self;
      _adapters := _adapters self |}, f).

(** [on_shutdown]: [self.shutdown_funcs.add(func); return func] *)
Definition on_shutdown (self : Driver) (f : func) : Driver * func :=
  ({| startup_funcs := startup_funcs self;
      shutdown_funcs := {[ f ]} ∪ shutdown_funcs self;
      requests := requests self;
      _adapters := _adapters self |}, f).

(** The default of [poll_interval] and of [reconnect_interval]: [3.] *)
Definition default_interval : float := 3%float.

(** [repr(type(request))] *)
Definition type_repr (request : HTTPConnection) : string :=
  match request with
  | HTTPRequest _ _ _ => "<class 'nonebot.drivers.HTTPRequest'>"
  | WebSocket _ => "<class 'nonebot.drivers.WebSocket'>"
  | PlainConnection _ => "<class 'nonebot.drivers.HTTPConnection'>"
  end.

(** [setup]: the driver after the call, and the exception raised, if any.
    An omitted keyword argument is [None]. *)
Definition setup (self : Driver) (adapter : string) (request : HTTPConnection)
    (poll_interval reconnect_interval : option float) : Driver * option exn :=
  if negb (is_available_request request) then
    (self, Some (TypeError ("Request Type " +:+ type_repr request +:+ " is not supported!")))
  else
    ({| startup_funcs := startup_funcs self;
        shutdown_funcs := shutdown_funcs self;
        requests := requests self ++
          [ {| adapter := adapter; request := request;
               poll_interval := default default_interval poll_interval;
               reconnect_interval := default default_interval reconnect_interval |} ];
        _adapters := _adapters self |}, None).

(** ** Strings and addresses *)

Definition byte_of (n : N) : Byte.byte := default Byte.x00 (Byte.of_N n).

(** One code point in UTF-8; a surrogate has no encoding. *)
Definition encode_code_point (c : N) : option bytes :=
  if (c <? 0x80)%N then Some [byte_of c]
  else if (c <? 0x800)%N then
    Some [byte_of (N.lor 0xC0 (N.shiftr c 6));
          byte_of (N.lor 0x80 (N.land c 0x3F))]
  else if (c <? 0x10000)%N then
    if ((0xD800 <=? c)%N && (c <? 0xE000)%N)%bool then None
    else Some [byte_of (N.lor 0xE0 (N.shiftr c 12));
               byte_of (N.lor 0x80 (N.land (N.shiftr c 6) 0x3F));
               byte_of (N.lor 0x80 (N.land c 0x3F))]
  else if (c <? 0x110000)%N then
    Some [byte_of (N.lor 0xF0 (N.shiftr c 18));
          byte_of (N.lor 0x80 (N.land (N.shiftr c 12) 0x3F));
          byte_of (N.lor 0x80 (N.land (N.shiftr c 6) 0x3F));
          byte_of (N.lor 0x80 (N.land c 0x3F))]
  else None.

(** [s.encode()]: UTF-8, strict; [None] stands for [UnicodeEncodeError]. *)
Fixpoint encode (s : str) : option bytes :=
  match s with
  | [] => Some []
  | c :: s' =>
      match encode_code_point c, encode s' with
      | Some b, Some bs => Some (b ++ bs)
      | _, _ => None
      end
  end.

(** [b.decode("latin-1")]: every byte is the code point of the same value. *)
Definition decode_latin1 (b : bytes) : string := String.string_of_list_byte b.

(** A [yarl.URL] as [URL.build] returns it.  What [URL.build] accepts and
    how it quotes the parts is the library's: the object is known here by
    its text, [str(url)], and [URL.build] itself is a question to the
    outside (see [ext]). *)
Record URL := { URL_str : string }.

(** ** The markup of log messages *)

(** The text of a tag up to its [>], and the rest. *)
Fixpoint read_tag (s : string) : option (string * string) :=
  match s with
  | EmptyString => None
  | String c s' =>
      if Ascii.eqb c ">"%char then Some (EmptyString, s')
      else
        match read_tag s' with
        | Some (tag, rest) => Some (String c tag, rest)
        | None => None
        end
  end.

(** The nesting rule of loguru's colour markup, which
    [logger.opt(colors=True)] applies to a message before anything is
    written: a closing tag must be [</>] or name the tag opened last.  The
    result is the closing tag that breaks the rule, if there is one. *)
Fixpoint markup_error (fuel : nat) (opened : list string) (s : string) : option string :=
  match fuel with
  | O => None
  | S fuel' =>
      match s with
      | EmptyString => None
      | String c s' =>
          if Ascii.eqb c "<"%char then
            match read_tag s' with
            | Some (String "/"%char name, rest) =>
                match opened with
                | top :: others =>
                    if (String.eqb name "" || String.eqb name top)%bool
                    then markup_error fuel' others rest
                    else Some name
                | [] => Some name
                end
            | Some (tag, rest) => markup_error fuel' (tag :: opened) rest
            | None => None
            end
          else markup_error fuel' opened s'
      end
  end.

Definition double_quote : string :=
  String (Ascii.Ascii false true false false false true false false) EmptyString.

(** The [ValueError] loguru raises for a closing tag that matches no open
    tag. *)
Definition closing_tag_error (name : string) : exn :=
  ValueError ("Closing tag " +:+ double_quote +:+ "</" +:+ name +:+ ">" +:+ double_quote +:+
              " has no corresponding opening tag").

Record ClientResponse := { status : Z }.

(** [ClientResponse.ok] of aiohttp: the status is below 400. *)
Definition response_ok (response : ClientResponse) : bool :=
  (status response <? 400)%Z.

(** [ClientResponse.raise_for_status] of aiohttp: [ClientResponseError] with
    the status, unless the response is [ok]. *)
Definition raise_for_status (response : ClientResponse) : option exn :=
  if response_ok response then None
  else Some (ClientResponseError (status response)).

(** A frame as [async for msg in ws] yields it, by [msg.type]. *)
Inductive WSMessage :=
| TextFrame (data : str)
| BinaryFrame (data : bytes)
| ErrorFrame
| OtherFrame.

(** ** Coroutines *)

Abbreviation task_id := nat.

(** A coroutine object: an [async def] applied to its arguments, not yet run. *)
Inductive call :=
| call_startup
| call_shutdown (signal : option Signals)
| call_http_setup (adapter : string) (request : HTTPConnection) (poll_interval : float)
| call_ws_setup (adapter : string) (request : HTTPConnection) (reconnect_interval : float)
| call_http_loop (bot : Bot) (request : HTTPConnection) (poll_interval : float)
| call_ws_loop (bot : Bot) (request : HTTPConnection) (reconnect_interval : float)
| call_startup_func (f : func)
| call_shutdown_func (f : func)
| call_handle_message (bot : Bot) (message : bytes)
| call_foreign (what : string).

(** What a coroutine asks of the outside, indexed by the type of the value
    it gets: whatever it awaits, and two calls into libraries whose outcome
    is not computed here, [URL.build] and the parse loguru makes of a
    message that holds run-time text; each returns or raises as the library
    decides. *)
Inductive ext : Type -> Type :=
| check_permission (cls : BotClass) (request : HTTPConnection) : ext (option string)
| session_request (method : string) (url : URL) (data : bytes) : ext ClientResponse
| response_read (response : ClientResponse) : ext bytes
| sleep (delay : float) : ext unit
| ws_connect (url : URL) : ext unit
| ws_next : ext (option WSMessage)
| user_code (c : call) : ext unit
| gather (coros : list call) : ext unit
| gather_tasks (tasks : list task_id) : ext unit
| URL_build (scheme host path query_string : string) : ext URL
| parse_markup (message : string) : ext unit.

(** What a coroutine does without suspending. *)
Inductive effect :=
| log_error (message : string) (exception : option exn)
| _bot_connect (bot : Bot)
| _bot_disconnect (bot : Bot)
| create_task (c : call)
| unawaited_sleep (delay : float)
| cancel (t : task_id)
| loop_stop
| session_open (headers : gmap string string) (timeout : Z)
| session_close
| response_release
| ws_close.

(** The code of a coroutine from some point on.  [Await a k h] suspends on
    [a]; the coroutine goes on with [k x] when [a] yields [x] and with [h e]
    when [e] is thrown in at that point.  [OutOfFuel] marks the bound the
    model puts on the iterations of a [while True]. *)
Inductive coro : Type :=
| Return
| Raise (e : exn)
| Do (e : effect) (k : coro)
| OtherTasks (k : list task_id -> coro)
| Await {X : Type} (a : ext X) (k : X -> coro) (h : exn -> coro)
| OutOfFuel.

(** [c1; c2] *)
Fixpoint followed_by (c1 c2 : coro) : coro :=
  match c1 with
  | Return => c2
  | Raise e => Raise e
  | Do e k => Do e (followed_by k c2)
  | OtherTasks k => OtherTasks (fun ts => followed_by (k ts) c2)
  | Await a k h => Await a (fun x => followed_by (k x) c2) (fun e => followed_by (h e) c2)
  | OutOfFuel => OutOfFuel
  end.

(** [try: c / except BaseException as e: handler e] *)
Fixpoint try_except (c : coro) (handler : exn -> coro) : coro :=
  match c with
  | Return => Return
  | Raise e => handler e
  | Do e k => Do e (try_except k handler)
  | OtherTasks k => OtherTasks (fun ts => try_except (k ts) handler)
  | Await a k h =>
      Await a (fun x => try_except (k x) handler) (fun e => try_except (h e) handler)
  | OutOfFuel => OutOfFuel
  end.

(** [try: c / finally: final] *)
Definition try_finally (c final : coro) : coro :=
  followed_by (try_except c (fun e => followed_by final (Raise e))) final.

(** [await a], with the value bound in what follows. *)
Definition await {X : Type} (a : ext X) (k : X -> coro) : coro := Await a k Raise.

(** [await asyncio.gather] over coroutine objects: awaiting the finished
    future that [gather] returns for no argument does not suspend. *)
Definition await_gather (coros : list call) (k : coro) (h : exn -> coro) : coro :=
  match coros with
  | [] => k
  | _ => Await (gather coros) (fun _ => k) h
  end.

(** [await asyncio.gather] over tasks, with [return_exceptions=True]. *)
Definition await_gather_tasks (tasks : list task_id) (k : coro) (h : exn -> coro) : coro :=
  match tasks with
  | [] => k
  | _ => Await (gather_tasks tasks) (fun _ => k) h
  end.

(** [x = await a], followed by [k]. *)
Notation "x <- a ;; k" := (await a (fun x => k))
  (at level 62, a at next level, right associativity, only parsing).

(** ** The [async def] methods of [Driver] *)

(** [bool(self_id)]: neither [None] nor the empty string. *)
Definition truthy (self_id : option string) : bool :=
  match self_id with
  | Some s => negb (String.eqb s "")
  | None => false
  end.

(** [BotClass(self_id, request)] *)
Definition new_bot (cls : BotClass) (self_id : option string) (request : HTTPConnection) : Bot :=
  {| bot_class := cls; self_id := default "" self_id; bot_request := request |}.

Definition _http_setup (self : Driver) (adapter : string) (request : HTTPConnection)
    (poll_interval : float) : coro :=
  match _adapters self !! adapter with
  | None => Raise (KeyError adapter)
  | Some BotClass =>
      self_id <- check_permission BotClass request;;
      if negb (truthy self_id) then Raise (SetupFailed "Bot self_id get failed")
      else
        let bot := new_bot BotClass self_id request in
        Do (_bot_connect bot)
          (Do (create_task (call_http_loop bot request poll_interval)) Return)
  end.

Definition _ws_setup (self : Driver) (adapter : string) (request : HTTPConnection)
    (reconnect_interval : float) : coro :=
  match _adapters self !! adapter with
  | None => Raise (KeyError adapter)
  | Some BotClass =>
      self_id <- check_permission BotClass request;;
      if negb (truthy self_id) then Raise (SetupFailed "Bot self_id get failed")
      else
        let bot := new_bot BotClass self_id request in
        Do (_bot_connect bot)
          (Do (create_task (call_ws_loop bot request reconnect_interval)) Return)
  end.

(** The coroutine [startup] makes of one entry of [self.requests]. *)
Definition setup_call (s : RequestSetup) : call :=
  if is_HTTPRequest (request s) then
    call_http_setup (adapter s) (request s) (poll_interval s)
  else
    call_ws_setup (adapter s) (request s) (reconnect_interval s).

Definition startup_failed : string := "Application startup failed. Exiting.".
Definition startup_func_failed : string :=
  "<r><bg #f8bbd0>Error when running startup function. Ignored!</bg #f8bbd0></r>".
Definition shutdown_func_failed : string :=
  "<r><bg #f8bbd0>Error when running shutdown function. Ignored!</bg #f8bbd0></r>".

(** [# run startup]: the part of [startup] after the setups. *)
Definition run_startup_funcs (self : Driver) : coro :=
  let cors := call_startup_func <$> elements (startup_funcs self) in
  await_gather cors Return
    (fun e =>
       if is_Exception e then Do (log_error startup_func_failed (Some e)) Return
       else Raise e).

(** The [except Exception as e] of [startup] around the setups. *)
Definition abort_startup (e : exn) : coro :=
  if is_Exception e then
    Do (log_error startup_failed (Some e)) (Do (create_task (call_shutdown None)) Return)
  else Raise e.

Definition startup (self : Driver) : coro :=
  let setups := setup_call <$> requests self in
  await_gather setups (run_startup_funcs self) abort_startup.

(** [for task in tasks: task.cancel()] *)
Definition cancel_each (tasks : list task_id) (k : coro) : coro :=
  foldr (fun t k => Do (cancel t) k) k tasks.

(** The part of [shutdown] after the hooks. *)
Definition cancel_tasks_and_stop : coro :=
  OtherTasks (fun tasks =>
    cancel_each tasks
      (await_gather_tasks tasks (Do loop_stop Return) Raise)).

Definition shutdown (self : Driver) (signal : option Signals) : coro :=
  let cors := call_shutdown_func <$> elements (shutdown_funcs self) in
  await_gather cors cancel_tasks_and_stop
    (fun e =>
       if is_Exception e then
         Do (log_error shutdown_func_failed (Some e)) cancel_tasks_and_stop
       else Raise e).

Definition http_request_failed (url : URL) : string :=
  "Error occurred while requesting " +:+ URL_str url.
Definition http_unexpected : string :=
  "Unexpected exception occurred while http polling".
Definition ws_frame_error : string :=
  "<r><bg #f8bbd0>Error while handling websocket frame. Try to reconnect...</bg></r>".
Definition ws_unexpected : string :=
  "Unexpected exception occurred while websocket loop".

(** [logger.opt(colors=True).error(message)]: loguru parses the colour
    markup of the message before a sink gets it, and a closing tag that
    breaks the nesting rule raises.  The other literal messages of the
    source pass the parse (three hold no tag, two close [<bg #f8bbd0>] with
    [</bg #f8bbd0>]), and their calls are written as the effect [log_error]
    alone. *)
Definition logger_error (message : string) (exception : option exn) (k : coro) : coro :=
  match markup_error (String.length message) [] message with
  | None => Do (log_error message exception) k
  | Some name => Raise (closing_tag_error name)
  end.

(** The same call for a message that holds run-time text, the address in
    [_http_loop]: whether the text parses is the library's answer. *)
Definition logger_error_text (message : string) (exception : option exn) (k : coro) : coro :=
  _ <- parse_markup message;; Do (log_error message exception) k.

(** The [try] statement inside [while True] of [_http_loop]. *)
Definition http_poll (bot : Bot) (request : HTTPConnection) (url : URL) : coro :=
  try_except
    (response <- session_request (method_of request) url (body_of request);;
     try_finally
       (match raise_for_status response with
        | Some e => Raise e
        | None =>
            data <- response_read response;;
            Do (create_task (call_handle_message bot data)) Return
        end)
       (Do response_release Return))
    (fun e =>
       if is_ClientResponseError e then
         logger_error_text (http_request_failed url) (Some e) Return
       else Raise e).

(** [while True] of [_http_loop], at most [fuel] times round. *)
Fixpoint http_poll_forever (fuel : nat) (bot : Bot) (request : HTTPConnection)
    (url : URL) (poll_interval : float) : coro :=
  match fuel with
  | O => OutOfFuel
  | S fuel' =>
      followed_by (http_poll bot request url)
        (_ <- sleep poll_interval;;
         http_poll_forever fuel' bot request url poll_interval)
  end.

(** The target address both loops build before they go on with [k]:
    [request.headers["host"]] raises [KeyError] when the header is missing,
    and [URL.build] returns the address or raises. *)
Definition with_url (request : HTTPConnection) (k : URL -> coro) : coro :=
  match headers (info_of request) !! "host" with
  | None => Raise (KeyError "host")
  | Some host =>
      Await (URL_build (scheme (info_of request)) host (path (info_of request))
               (decode_latin1 (query_string (info_of request))))
        k Raise
  end.

(** The [except] clauses shared by both loops, up to the message. *)
Definition loop_except (message : string) (e : exn) : coro :=
  if is_CancelledError e then Return
  else if is_Exception e then Do (log_error message (Some e)) Return
  else Raise e.

Definition _http_loop (fuel : nat) (bot : Bot) (request : HTTPConnection)
    (poll_interval : float) : coro :=
  try_finally
    (try_except
       (with_url request (fun url =>
          Do (session_open (headers (info_of request)) 30)
            (try_finally
               (http_poll_forever fuel bot request url poll_interval)
               (Do session_close Return))))
       (loop_except http_unexpected))
    (Do (_bot_disconnect bot) Return).

(** [async for msg in ws], at most [fuel] frames.  For an error frame the
    [break] comes after the call of the logger. *)
Fixpoint ws_frames (fuel : nat) (bot : Bot) : coro :=
  match fuel with
  | O => OutOfFuel
  | S fuel' =>
      msg <- ws_next;;
      match msg with
      | None => Return
      | Some (TextFrame data) =>
          match encode data with
          | Some b => Do (create_task (call_handle_message bot b)) (ws_frames fuel' bot)
          | None => Raise UnicodeEncodeError
          end
      | Some (BinaryFrame data) =>
          Do (create_task (call_handle_message bot data)) (ws_frames fuel' bot)
      | Some ErrorFrame => logger_error ws_frame_error None Return
      | Some OtherFrame => ws_frames fuel' bot
      end
  end.

(** [while True] of [_ws_loop], at most [fuel] connections of at most
    [frames] frames each.  [asyncio.sleep(reconnect_interval)] is called and
    its coroutine dropped. *)
Fixpoint ws_forever (fuel frames : nat) (bot : Bot) (url : URL)
    (reconnect_interval : float) : coro :=
  match fuel with
  | O => OutOfFuel
  | S fuel' =>
      followed_by (_ <- ws_connect url;;
           try_finally (ws_frames frames bot) (Do ws_close Return))
        (Do (unawaited_sleep reconnect_interval)
           (ws_forever fuel' frames bot url reconnect_interval))
  end.

Definition _ws_loop (fuel : nat) (bot : Bot) (request : HTTPConnection)
    (reconnect_interval : float) : coro :=
  try_finally
    (try_except
       (with_url request (fun url =>
          Do (session_open (headers (info_of request)) 30)
            (try_finally
               (ws_forever fuel fuel bot url reconnect_interval)
               (Do session_close Return))))
       (loop_except ws_unexpected))
    (Do (_bot_disconnect bot) Return).

(** Code outside the driver (a hook, [bot.handle_message], another user of
    the event loop): it runs, and ends or raises as the world decides. *)
Definition user (c : call) : coro := _ <- user_code c;; Return.

(** The code a coroutine object runs. *)
Definition body (self : Driver) (fuel : nat) (c : call) : coro :=
  match c with
  | call_startup => startup self
  | call_shutdown signal => shutdown self signal
  | call_http_setup a r p => _http_setup self a r p
  | call_ws_setup a r p => _ws_setup self a r p
  | call_http_loop b r p => _http_loop fuel b r p
  | call_ws_loop b r p => _ws_loop fuel b r p
  | call_startup_func _ | call_shutdown_func _
  | call_handle_message _ _ | call_foreign _ => user c
  end.

(** ** One coroutine against its environment *)

Inductive outcome (X : Type) :=
| Returned (x : X)
| Thrown (e : exn).
Arguments Returned {X} x.
Arguments Thrown {X} e.

(** What a coroutine is seen to do: its effects, and each await with what
    came of it. *)
Inductive label :=
| did (e : effect)
| saw_tasks (tasks : list task_id)
| awaited_check_permission (cls : BotClass) (request : HTTPConnection)
    (o : outcome (option string))
| awaited_request (method : string) (url : URL) (data : bytes) (o : outcome ClientResponse)
| awaited_read (response : ClientResponse) (o : outcome bytes)
| awaited_sleep (delay : float) (o : outcome unit)
| awaited_ws_connect (url : URL) (o : outcome unit)
| awaited_ws_next (o : outcome (option WSMessage))
| awaited_user_code (c : call) (o : outcome unit)
| awaited_gather (coros : list call) (o : outcome unit)
| awaited_gather_tasks (tasks : list task_id) (o : outcome unit)
| called_URL_build (scheme host path query_string : string) (o : outcome URL)
| parsed_markup (message : string) (o : outcome unit).

Definition observe {X : Type} (a : ext X) : outcome X -> label :=
  match a with
  | check_permission cls r => awaited_check_permission cls r
  | session_request m u d => awaited_request m u d
  | response_read r => awaited_read r
  | sleep d => awaited_sleep d
  | ws_connect u => awaited_ws_connect u
  | ws_next => awaited_ws_next
  | user_code c => awaited_user_code c
  | gather cs => awaited_gather cs
  | gather_tasks ts => awaited_gather_tasks ts
  | URL_build s h p q => called_URL_build s h p q
  | parse_markup m => parsed_markup m
  end.

(** The environment of one coroutine: what its [n]-th question to the
    outside is answered with.  Cancellation is the answer
    [Thrown CancelledError]. *)
Record world := {
  answer : nat -> forall X : Type, ext X -> outcome X;
  other_tasks_at : nat -> list task_id
}.

Fixpoint trace (w : world) (n : nat) (c : coro) : list label :=
  match c with
  | Return | Raise _ | OutOfFuel => []
  | Do e k => did e :: trace w n k
  | OtherTasks k => saw_tasks (other_tasks_at w n) :: trace w (S n) (k (other_tasks_at w n))
  | Await a k h =>
      observe a (answer w n _ a) ::
      trace w (S n) (match answer w n _ a with Returned x => k x | Thrown e => h e end)
  end.

Inductive ending :=
| finished (r : option exn)
| unfinished.

Fixpoint result (w : world) (n : nat) (c : coro) : ending :=
  match c with
  | Return => finished None
  | Raise e => finished (Some e)
  | OutOfFuel => unfinished
  | Do e k => result w n k
  | OtherTasks k => result w (S n) (k (other_tasks_at w n))
  | Await a k h =>
      result w (S n) (match answer w n _ a with Returned x => k x | Thrown e => h e end)
  end.

(** ** The event loop *)

(** Where a task stands.  [Fresh]: created, first step still to come.
    [Waiting]: suspended on the outside world.  [Joining]: suspended on a
    [gather] over [children].  [Resume c h]: what it waited for is there and
    it will go on with [c], unless it is cancelled first.  [Throw e h]: [e]
    will be thrown into it.  [Running]: it is the current task.  [Stalled]:
    the model's iteration bound was reached.  [Cancelling]: cancelled while
    suspended on a [gather], whose children have been cancelled in its
    place; it stays suspended until the [gather] is over. *)
Inductive tstate :=
| Fresh
| Waiting {X : Type} (a : ext X) (k : X -> coro) (h : exn -> coro)
| Joining (return_exceptions : bool) (children : list task_id) (k : coro) (h : exn -> coro)
| Resume (c : coro) (h : exn -> coro)
| Throw (e : exn) (h : exn -> coro)
| Running (must_cancel : bool)
| Stalled
| Done (r : option exn)
| Cancelling (return_exceptions : bool) (children : list task_id) (h : exn -> coro).

Record task := { coroutine : call; state : tstate }.

(** The event loop with the driver's table of connected bots
    ([self._clients]), the effects performed so far, each with the task that
    performed it, and the number of calls of [loop.stop()]. *)
Record loop := {
  tasks : list task;
  _clients : gmap string Bot;
  history : list (task_id * effect);
  stops : nat;
  now : nat
}.

Definition with_tasks (ts : list task) (l : loop) : loop :=
  {| tasks := ts; _clients := _clients l; history := history l;
     stops := stops l; now := now l |}.

Definition set_state (t : task_id) (st : tstate) (ts : list task) : list task :=
  alter (fun tk => {| coroutine := coroutine tk; state := st |}) t ts.

Definition state_of (ts : list task) (t : task_id) : option tstate :=
  state <$> ts !! t.

Definition is_done (st : tstate) : bool :=
  match st with Done _ => true | _ => false end.

(** [[t for t in asyncio.all_tasks() if t is not asyncio.current_task()]]:
    every task of the loop that is not done, but the current one. *)
Definition other_tasks (me : task_id) (ts : list task) : list task_id :=
  List.filter
    (fun t => negb (t =? me)%nat &&
              match state_of ts t with Some st => negb (is_done st) | None => false end)
    (List.seq 0 (length ts)).

(** [asyncio.create_task(c)] *)
Definition spawn (c : call) (ts : list task) : list task :=
  ts ++ [ {| coroutine := c; state := Fresh |} ].

(** [task.cancel()] on one task: nothing for a task that is done; a task
    that has not begun never runs its body; a task suspended on a [gather]
    hands the request to the [gather] and stays suspended; otherwise
    [CancelledError] is thrown in where the task is suspended, in place of
    whatever was about to be delivered. *)
Definition cancelled (st : tstate) : tstate :=
  match st with
  | Fresh => Throw CancelledError Raise
  | Waiting _ _ h | Resume _ h | Throw _ h => Throw CancelledError h
  | Joining re cs _ h | Cancelling re cs h => Cancelling re cs h
  | Running _ => Running true
  | Stalled => Stalled
  | Done r => Done r
  end.

Definition children_of (st : tstate) : list task_id :=
  match st with Joining _ cs _ _ | Cancelling _ cs _ => cs | _ => [] end.

(** [task.cancel()]: cancelling a task suspended on [gather] cancels the
    gathered children as well. *)
Fixpoint cancel_task (depth : nat) (t : task_id) (ts : list task) : list task :=
  match ts !! t with
  | None => ts
  | Some tk =>
      let ts' := set_state t (cancelled (state tk)) ts in
      match depth with
      | O => ts'
      | S d => foldr (cancel_task d) ts' (children_of (state tk))
      end
  end.

(** Modelled from the spec: [_bot_connect] and [_bot_disconnect] belong to
    the base class in [nonebot.drivers], which is not among the sources;
    section 6 of the specification gives them as the mutators of the
    connected-bots table, keyed by [self_id]. *)
Definition connect_bot (bot : Bot) (clients : gmap string Bot) : gmap string Bot :=
  <[ self_id bot := bot ]> clients.

Definition disconnect_bot (bot : Bot) (clients : gmap string Bot) : gmap string Bot :=
  delete (self_id bot) clients.

Definition perform (me : task_id) (e : effect) (l : loop) : loop :=
  {| tasks :=
       match e with
       | create_task c => spawn c (tasks l)
       | cancel t => cancel_task (length (tasks l)) t (tasks l)
       | _ => tasks l
       end;
     _clients :=
       match e with
       | _bot_connect bot => connect_bot bot (_clients l)
       | _bot_disconnect bot => disconnect_bot bot (_clients l)
       | _ => _clients l
       end;
     history := history l ++ [(me, e)];
     stops := match e with loop_stop => S (stops l) | _ => stops l end;
     now := now l |}.

(** Task [me] runs [c] up to its next suspension.  The two library calls
    among the questions, [URL_build] and [parse_markup], suspend the task
    like an await: the schedules of the model include every schedule of the
    code, and some more in which a task yields at such a call. *)
Fixpoint exec (me : task_id) (c : coro) (l : loop) : loop * tstate :=
  match c with
  | Return => (l, Done None)
  | Raise e => (l, Done (Some e))
  | OutOfFuel => (l, Stalled)
  | Do e k => exec me k (perform me e l)
  | OtherTasks k => exec me (k (other_tasks me (tasks l))) l
  | Await a k h =>
      match a in ext X return (X -> coro) -> loop * tstate with
      | gather cs => fun k =>
          (with_tasks (foldl (fun ts c => spawn c ts) (tasks l) cs) l,
           Joining false (List.seq (length (tasks l)) (length cs)) (k tt) h)
      | gather_tasks ts => fun k => (l, Joining true ts (k tt) h)
      | a' => fun k => (l, Waiting a' k h)
      end k
  end.

Definition result_of (ts : list task) (t : task_id) : option (option exn) :=
  match state_of ts t with
  | Some (Done r) => Some r
  | _ => None
  end.

Fixpoint first_failure (ts : list task) (children : list task_id) : option exn :=
  match children with
  | [] => None
  | c :: cs =>
      match result_of ts c with
      | Some (Some e) => Some e
      | _ => first_failure ts cs
      end
  end.

Definition all_done (ts : list task) (children : list task_id) : bool :=
  forallb (fun c => match result_of ts c with Some _ => true | None => false end) children.

(** What [gather] does when a child is done: without [return_exceptions]
    the first exception of a child (its cancellation too) is raised in the
    awaiting task and the other children run on; otherwise the awaiting task
    goes on once all children are done.  A [gather] that has been cancelled
    raises [CancelledError] in the awaiting task once all children are
    done. *)
Definition wake (ts : list task) (tk : task) : task :=
  match state tk with
  | Joining re cs k h =>
      match (if re then None else first_failure ts cs) with
      | Some e => {| coroutine := coroutine tk; state := Throw e h |}
      | None =>
          if all_done ts cs then {| coroutine := coroutine tk; state := Resume k h |}
          else tk
      end
  | Cancelling re cs h =>
      match (if re then None else first_failure ts cs) with
      | Some e => {| coroutine := coroutine tk; state := Throw e h |}
      | None =>
          if all_done ts cs
          then {| coroutine := coroutine tk; state := Throw CancelledError h |}
          else tk
      end
  | _ => tk
  end.

Definition wake_all (ts : list task) : list task := wake ts <$> ts.

(** The code a task runs when the loop gives it a step. *)
Definition next_code (self : Driver) (fuel : nat) (tk : task) : option coro :=
  match state tk with
  | Fresh => Some (body self fuel (coroutine tk))
  | Resume c _ => Some c
  | Throw e h => Some (h e)
  | _ => None
  end.

(** The state a step leaves its task in: a cancellation requested while the
    task was running takes effect where the step ends. *)
Definition settle (me : task_id) (st : tstate) (ts : list task) : list task :=
  match state_of ts me with
  | Some (Running true) =>
      match st with
      | Done None => set_state me (Done (Some CancelledError)) ts
      | _ => cancel_task (length ts) me (set_state me st ts)
      end
  | _ => set_state me st ts
  end.

(** What happens on the loop, one occurrence at a time. *)
Inductive occurrence :=
| run_task (t : task_id)
| complete (t : task_id)
| deliver (s : Signals)
| foreign (what : string).

Definition tick (l : loop) : loop :=
  {| tasks := tasks l; _clients := _clients l; history := history l;
     stops := stops l; now := S (now l) |}.

(** [run_task t]: the loop gives task [t] a step, if it is ready.
    [complete t]: what task [t] awaits outside comes back, with the world's
    answer.  [deliver s]: the handler [run] installed for signal [s] creates
    a [shutdown] task.  [foreign what]: other code creates a task on the
    same loop. *)
Definition step (self : Driver) (fuel : nat) (w : world) (o : occurrence) (l : loop) : loop :=
  tick
    match o with
    | run_task t =>
        match tasks l !! t with
        | Some tk =>
            match next_code self fuel tk with
            | Some c =>
                let '(l', st) := exec t c (with_tasks (set_state t (Running false) (tasks l)) l) in
                with_tasks (wake_all (settle t st (tasks l'))) l'
            | None => l
            end
        | None => l
        end
    | complete t =>
        match state_of (tasks l) t with
        | Some (Waiting a k h) =>
            with_tasks
              (set_state t
                 match answer w (now l) _ a with
                 | Returned x => Resume (k x) h
                 | Thrown e => Throw e h
                 end (tasks l)) l
        | _ => l
        end
    | deliver s => with_tasks (spawn (call_shutdown (Some s)) (tasks l)) l
    | foreign what => with_tasks (spawn (call_foreign what) (tasks l)) l
    end.

Definition steps (self : Driver) (fuel : nat) (w : world) (os : list occurrence) (l : loop) : loop :=
  foldl (fun l o => step self fuel w o l) l os.

(** An event loop without tasks, and one on which [startup] has been
    created as the first task and nothing has run. *)
Definition idle_loop : loop :=
  {| tasks := []; _clients := ∅; history := []; stops := 0; now := 0 |}.

Definition startup_scheduled (self : Driver) : loop :=
  {| tasks := [ {| coroutine := call_startup; state := Fresh |} ];
     _clients := ∅; history := []; stops := 0; now := 0 |}.

(** [asyncio.create_task(c)]: the task is created on the running event
    loop; where no loop is running the call raises [RuntimeError]. *)
Definition create_task_call (running : bool) (c : call) (l : loop) : exn + loop :=
  if running then inr (with_tasks (spawn c (tasks l)) l)
  else inl (RuntimeError "no running event loop").

(** [run], called with the event loop in state [l], running or not.  The
    signal handlers are installed ([deliver] above); then
    [asyncio.create_task(self.startup())] is called before
    [loop.run_forever()].  With no loop running that call raises, [finally]
    closes the loop, and [startup] is never scheduled.  On a loop that is
    running already the task is created; then [run_forever] raises and, in
    [finally], so does [close], since neither is allowed on a running loop.
    Either way [run] raises [RuntimeError]: the result is the exception that
    leaves [run] and the loop as [run] leaves it. *)
Definition run (self : Driver) (running : bool) (l : loop) : exn * loop :=
  match create_task_call running call_startup l with
  | inl e => (e, l)
  | inr l' => (RuntimeError "Cannot close a running event loop", l')
  end.

(** * Properties *)

(** ** Definitions *)

Definition is_joining (st : tstate) : bool :=
  match st with Joining _ _ _ _ | Cancelling _ _ _ => true | _ => false end.

(** The loop a setup coroutine starts for its bot. *)
Definition loop_call (c : call) (bot : Bot) : call :=
  match c with
  | call_http_setup _ r p => call_http_loop bot r p
  | call_ws_setup _ r p => call_ws_loop bot r p
  | c => c
  end.

(** The number of the next question after [c] has run. *)
Fixpoint after (w : world) (n : nat) (c : coro) : nat :=
  match c with
  | Return | Raise _ | OutOfFuel => n
  | Do e k => after w n k
  | OtherTasks k => after w (S n) (k (other_tasks_at w n))
  | Await a k h =>
      after w (S n) (match answer w n _ a with Returned x => k x | Thrown e => h e end)
  end.

Definition thrown (l : label) : option exn :=
  match l with
  | awaited_check_permission _ _ (Thrown e) | awaited_request _ _ _ (Thrown e)
  | awaited_read _ (Thrown e) | awaited_sleep _ (Thrown e)
  | awaited_ws_connect _ (Thrown e) | awaited_ws_next (Thrown e)
  | awaited_user_code _ (Thrown e) | awaited_gather _ (Thrown e)
  | awaited_gather_tasks _ (Thrown e) | called_URL_build _ _ _ _ (Thrown e)
  | parsed_markup _ (Thrown e) => Some e
  | _ => None
  end.

Definition is_effect (l : label) : bool :=
  match l with did _ => true | _ => false end.

Definition is_disconnect (l : label) : bool :=
  match l with did (_bot_disconnect _) => true | _ => false end.

Definition is_log (l : label) : bool :=
  match l with did (log_error _ _) => true | _ => false end.

Definition disconnects (tr : list label) : nat := length (List.filter is_disconnect tr).

(** Labels that neither disconnect a bot nor touch other tasks or the loop. *)
Definition is_inner (l : label) : bool :=
  match l with
  | did (_bot_disconnect _) | did loop_stop | did (cancel _) => false
  | _ => true
  end.

(** Labels that leave other tasks and the loop alone. *)
Definition is_harmless (l : label) : bool :=
  match l with
  | did loop_stop | did (cancel _) => false
  | _ => true
  end.

(** Effects that only release what a [with] block holds. *)
Definition is_cleanup (l : label) : bool :=
  match l with
  | did response_release | did ws_close | did session_close => true
  | _ => false
  end.

(** A throw the loop body does not absorb ends the body with that exception,
    and only clean-up follows it. *)
Definition aborts_at (absorbed : label -> bool) (tr : list label) (r : ending) : Prop :=
  forall i l e, tr !! i = Some l -> thrown l = Some e -> absorbed l = false ->
    r = finished (Some e) /\
    forall j l', i < j -> tr !! j = Some l' -> is_cleanup l' = true.

Definition absorbed_http (l : label) : bool :=
  match l with
  | awaited_request _ _ _ (Thrown e) | awaited_read _ (Thrown e) => is_ClientResponseError e
  | _ => false
  end.

(** The [try ... except CancelledError ... except Exception ... finally]
    statement that is the whole body of both loops. *)
Definition guarded (message : string) (bot : Bot) (c : coro) : coro :=
  try_finally (try_except c (loop_except message)) (Do (_bot_disconnect bot) Return).

(** What the loops do with the address once it is built: the [async with]
    of the session around the [while True]. *)
Definition session (request : HTTPConnection) (inner : URL -> coro) (url : URL) : coro :=
  Do (session_open (headers (info_of request)) 30)
    (try_finally (inner url) (Do session_close Return)).

Definition http_session (fuel : nat) (bot : Bot) (request : HTTPConnection) (p : float)
    : URL -> coro :=
  session request (fun url => http_poll_forever fuel bot request url p).

Definition ws_session (fuel : nat) (bot : Bot) (request : HTTPConnection) (p : float)
    : URL -> coro :=
  session request (fun url => ws_forever fuel fuel bot url p).

(** The call of [URL.build] for a request whose [host] header is [host]. *)
Definition build_for (request : HTTPConnection) (host : string) : ext URL :=
  URL_build (scheme (info_of request)) host (path (info_of request))
    (decode_latin1 (query_string (info_of request))).

(** What the [except] and [finally] clauses add to the trace of the body. *)
Definition exit_tail (message : string) (bot : Bot) (r : ending) : list label :=
  match r with
  | unfinished => []
  | finished None => [did (_bot_disconnect bot)]
  | finished (Some e) =>
      (if is_Exception e then [did (log_error message (Some e))] else []) ++
      [did (_bot_disconnect bot)]
  end.

Definition exit_result (r : ending) : ending :=
  match r with
  | finished (Some e) =>
      finished (if is_CancelledError e || is_Exception e then None else Some e)
  | r => r
  end.

(** What follows the [while True] of a loop that ends with [r]: the session
    is closed, then the [except] and [finally] clauses run. *)
Definition session_tail (message : string) (bot : Bot) (r : ending) : list label :=
  match r with unfinished => [] | _ => [did session_close] end ++ exit_tail message bot r.

(** How a loop ends, whatever the world does: while it runs the bot stays
    connected; when it ends, [_bot_disconnect bot] has been called once, as
    the last thing it does.  A throw at an await that the loop does not
    absorb ends it: no await follows, the only error logged after it is
    [message] with the exception, which is logged for an [Exception] and not
    for a cancellation, and neither leaves the loop. *)
Definition exits_cleanly (message : string) (bot : Bot) (absorbed : label -> bool)
    (c : coro) : Prop :=
  forall (w : world) (n : nat),
    (result w n c = unfinished /\ disconnects (trace w n c) = 0 \/
     result w n c <> unfinished /\ disconnects (trace w n c) = 1 /\
       last (trace w n c) = Some (did (_bot_disconnect bot))) /\
    forall i l e,
      trace w n c !! i = Some l -> thrown l = Some e -> absorbed l = false ->
      result w n c = finished (if is_CancelledError e || is_Exception e then None else Some e) /\
      (forall j l', i < j -> trace w n c !! j = Some l' ->
         is_effect l' = true /\
         (is_log l' = true -> l' = did (log_error message (Some e)) /\ is_Exception e = true)) /\
      (is_Exception e = true ->
         exists j, i < j /\ trace w n c !! j = Some (did (log_error message (Some e)))).

(** ** What follows a label in a trace *)

(** [V l s r] for every label [l] of the trace, [s] being what follows it. *)
Definition after_each (V : label -> list label -> ending -> Prop)
    (tr : list label) (r : ending) : Prop :=
  forall i l, tr !! i = Some l -> V l (drop (S i) tr) r.

(** A status in 200..299. *)
Definition is_2xx (response : ClientResponse) : bool :=
  (200 <=? status response)%Z && (status response <? 300)%Z.

(** The trace goes on with the next request, unless the model's bound on
    the iterations is reached. *)
Definition next_request (m : string) (u : URL) (d : bytes) (s : list label) (r : ending) : Prop :=
  (s = [] /\ r = unfinished) \/ exists o s', s = awaited_request m u d o :: s'.

(** The call of the logger for a request that failed with [e]: the
    message is parsed and, if the logger accepts it, logged with [e]; then
    comes the sleep of [p] and, if that returns, the next request. *)
Definition logged_then_sleeps (p : float) (m : string) (u : URL) (d : bytes) (e : exn)
    (s : list label) (r : ending) : Prop :=
  exists o s1,
    s = parsed_markup (http_request_failed u) o :: s1 /\
    (o = Returned tt ->
     exists o' s2,
       s1 = did (log_error (http_request_failed u) (Some e)) :: awaited_sleep p o' :: s2 /\
       (o' = Returned tt -> next_request m u d s2 r)).

(** What follows a response in the trace of the poll loop, [accepted]
    telling the responses that are read from those that are logged. *)
Definition poll_follows (accepted : ClientResponse -> bool) (bot : Bot) (p : float)
    (l : label) (s : list label) (r : ending) : Prop :=
  match l with
  | awaited_request m u d (Returned response) =>
      if accepted response then
        exists o s1, s = awaited_read response o :: s1 /\
          forall data, o = Returned data ->
            exists o' s2,
              s1 = did (create_task (call_handle_message bot data)) ::
                   did response_release :: awaited_sleep p o' :: s2 /\
              (o' = Returned tt -> next_request m u d s2 r)
      else
        exists s1,
          s = did response_release :: s1 /\
          logged_then_sleeps p m u d (ClientResponseError (status response)) s1 r
  | _ => True
  end.

(** The trace goes on with the opening of a connection, or with the next
    frame, unless the model's bound is reached. *)
Definition next_connect (s : list label) (r : ending) : Prop :=
  (s = [] /\ r = unfinished) \/ exists u o s', s = awaited_ws_connect u o :: s'.

Definition next_frame (s : list label) (r : ending) : Prop :=
  (s = [] /\ r = unfinished) \/ exists o s', s = awaited_ws_next o :: s'.

(** The connection is closed, [asyncio.sleep] is called and the next
    connection is opened, with no await in between. *)
Definition reconnects (ri : float) (s : list label) (r : ending) : Prop :=
  exists s', s = did ws_close :: did (unawaited_sleep ri) :: s' /\ next_connect s' r.

(** The trace ends with [tail], and the coroutine with [r0]. *)
Definition ends_with (tail : list label) (r0 : ending) (s : list label) (r : ending) : Prop :=
  s = tail /\ r = r0.

(** What the call of the logger for an error frame raises: the message
    opens [<bg #f8bbd0>] and closes it with [</bg>]. *)
Definition frame_error : exn := closing_tag_error "bg".

(** What follows a label in the trace of the reconnect loop; [K] is what
    follows the end of the frames of a connection, [E] what follows an
    error frame. *)
Definition ws_follows (K E : list label -> ending -> Prop) (bot : Bot) (ri : float)
    (l : label) (s : list label) (r : ending) : Prop :=
  match l with
  | awaited_ws_next (Returned (Some (TextFrame data))) =>
      match encode data with
      | Some b =>
          exists s', s = did (create_task (call_handle_message bot b)) :: s' /\ next_frame s' r
      | None => True
      end
  | awaited_ws_next (Returned (Some (BinaryFrame data))) =>
      exists s', s = did (create_task (call_handle_message bot data)) :: s' /\ next_frame s' r
  | awaited_ws_next (Returned (Some ErrorFrame)) => E s r
  | awaited_ws_next (Returned None) => K s r
  | did (unawaited_sleep d) => d = ri /\ next_connect s r
  | awaited_sleep _ _ => False
  | _ => True
  end.

(** An error frame ends the loop: the connection and the session are
    closed, the exception the logger raised is logged by the handler of
    [Exception], and the bot is disconnected. *)
Definition error_frame_ends (bot : Bot) : list label -> ending -> Prop :=
  ends_with
    [did ws_close; did session_close; did (log_error ws_unexpected (Some frame_error));
     did (_bot_disconnect bot)]
    (finished None).

(** How many requests, and how many connections, a trace shows; and how
    many frames it awaits after the connection opened last, [since] counting
    those awaited before the trace begins. *)
Definition is_request (l : label) : bool :=
  match l with awaited_request _ _ _ _ => true | _ => false end.

Definition requests_made (tr : list label) : nat := length (List.filter is_request tr).

Definition is_connect (l : label) : bool :=
  match l with awaited_ws_connect _ _ => true | _ => false end.

Definition connections (tr : list label) : nat := length (List.filter is_connect tr).

Fixpoint frames_awaited (since : nat) (tr : list label) : nat :=
  match tr with
  | [] => since
  | awaited_ws_connect _ _ :: tr' => frames_awaited 0 tr'
  | awaited_ws_next _ :: tr' => frames_awaited (S since) tr'
  | _ :: tr' => frames_awaited since tr'
  end.

Definition is_exit_label (l : label) : Prop :=
  match l with
  | did session_close | did (log_error _ _) | did (_bot_disconnect _)
  | did (session_open _ _) | called_URL_build _ _ _ _ _ => True
  | _ => False
  end.

(** ** Which tasks a coroutine can create *)

Definition is_setup (c : call) : bool :=
  match c with call_http_setup _ _ _ | call_ws_setup _ _ _ => true | _ => false end.

Definition is_startup_func (c : call) : bool :=
  match c with call_startup_func _ => true | _ => false end.

Definition is_startup (c : call) : bool :=
  match c with call_startup => true | _ => false end.

(** The coroutines [gather] wraps in tasks. *)
Definition gathered {X : Type} (a : ext X) : list call :=
  match a with gather cs => cs | _ => [] end.

(** Every task the code creates, whatever it is answered, runs a coroutine
    that [ok] admits. *)
Inductive tame (ok : call -> bool) : coro -> Prop :=
| tame_Return : tame ok Return
| tame_Raise e : tame ok (Raise e)
| tame_OutOfFuel : tame ok OutOfFuel
| tame_Do e k :
    (forall c, e = create_task c -> ok c = true) -> tame ok k -> tame ok (Do e k)
| tame_OtherTasks k : (forall ts, tame ok (k ts)) -> tame ok (OtherTasks k)
| tame_Await X (a : ext X) k h :
    Forall (fun c => ok c = true) (gathered a) ->
    (forall x, tame ok (k x)) -> (forall e, tame ok (h e)) -> tame ok (Await a k h).

(** A task other than [startup] creates neither a setup nor a startup hook
    nor [startup]; [startup], once past the setups, creates no setup. *)
Definition ok_other (c : call) : bool :=
  negb (is_setup c) && negb (is_startup_func c) && negb (is_startup c).

Definition ok_hooks (c : call) : bool := negb (is_setup c) && negb (is_startup c).

(** ** What one step of the loop does to the table of tasks *)

Definition tame_state (ok : call -> bool) (st : tstate) : Prop :=
  match st with
  | Waiting _ k h => (forall x, tame ok (k x)) /\ (forall e, tame ok (h e))
  | Joining _ _ k h | Resume k h => tame ok k /\ (forall e, tame ok (h e))
  | Throw _ h | Cancelling _ _ h => forall e, tame ok (h e)
  | _ => True
  end.

Definition same_or_cancelled (st st' : tstate) : Prop := st' = st \/ st' = cancelled st.

(** [ts'] is [ts] with some tasks cancelled and tasks that [ok] admits added. *)
Definition grows (ok : call -> bool) (ts ts' : list task) : Prop :=
  length ts <= length ts' /\
  (forall u tk, ts !! u = Some tk ->
     exists tk', ts' !! u = Some tk' /\ coroutine tk' = coroutine tk /\
       same_or_cancelled (state tk) (state tk')) /\
  (forall u tk', length ts <= u -> ts' !! u = Some tk' ->
     ok (coroutine tk') = true /\ same_or_cancelled Fresh (state tk')).

(** What [gather] makes of a task at the end of a step. *)
Definition woken (ts : list task) (st st' : tstate) : Prop :=
  st' = st \/
  (exists re cs k h, st = Joining re cs k h /\
    ((exists e, st' = Throw e h /\ re = false /\ first_failure ts cs = Some e) \/
     (st' = Resume k h /\
      (re = false -> forall c, c ∈ cs -> result_of ts c = Some None)))) \/
  (exists re cs h e, st = Cancelling re cs h /\ st' = Throw e h).

(** A task after a step of another task: possibly cancelled, then possibly
    woken by [gather]. *)
Definition after_step (ts' : list task) (st st' : tstate) : Prop :=
  exists st1, same_or_cancelled st st1 /\ woken ts' st1 st'.

(** ** Startup hooks run only after every setup has succeeded *)

(** The setup tasks are the tasks [b], [b+1], ... one for each entry of
    [self.requests], in order, and their states satisfy [P]. *)
Definition setups_at (self : Driver) (b : nat) (ts : list task) (P : tstate -> Prop) : Prop :=
  (forall i s, requests self !! i = Some s ->
     exists tk, ts !! (b + i) = Some tk /\ coroutine tk = setup_call s /\ P (state tk)) /\
  (forall t tk, ts !! t = Some tk -> is_setup (coroutine tk) = true ->
     b <= t < b + length (requests self)).

Definition no_hooks (ts : list task) : Prop :=
  forall t tk, ts !! t = Some tk -> is_startup_func (coroutine tk) = false.

Definition no_setups (ts : list task) : Prop :=
  forall t tk, ts !! t = Some tk -> is_setup (coroutine tk) = false.

(** Where [startup], task 0, stands: not begun; suspended on the [gather]
    of the setups; past it without hooks to come; or past it with every
    setup done and no exception. *)
Definition startup_phase (self : Driver) (ts : list task) (st0 : tstate) : Prop :=
  (st0 = Fresh /\ no_setups ts /\ no_hooks ts) \/
  (exists b, st0 = Joining false (List.seq b (length (requests self)))
                     (run_startup_funcs self) abort_startup /\
     requests self <> [] /\ setups_at self b ts (fun _ => True) /\ no_hooks ts) \/
  (st0 <> Fresh /\ tame_state ok_other st0 /\ no_hooks ts) \/
  (st0 <> Fresh /\ tame_state ok_hooks st0 /\
     exists b, setups_at self b ts (fun st => st = Done None)).

Definition invariant (self : Driver) (ts : list task) : Prop :=
  exists st0,
    ts !! 0 = Some {| coroutine := call_startup; state := st0 |} /\
    (forall t tk, ts !! t = Some tk -> t <> 0 ->
       is_startup (coroutine tk) = false /\ tame_state ok_other (state tk)) /\
    startup_phase self ts st0.

(** The table of tasks after a step of task [t], whose code is tame. *)
Definition stepped (ok : call -> bool) (t : nat) (ts ts' : list task) : Prop :=
  exists tk,
    ts !! t = Some tk /\ is_done (state tk) = false /\
    length ts <= length ts' /\
    (forall u tku, u <> t -> ts !! u = Some tku ->
       exists tku', ts' !! u = Some tku' /\ coroutine tku' = coroutine tku /\
         after_step ts' (state tku) (state tku')) /\
    (exists tk', ts' !! t = Some tk' /\ coroutine tk' = coroutine tk /\
       tame_state ok (state tk') /\ state tk' <> Fresh) /\
    (forall u tku', length ts <= u -> ts' !! u = Some tku' ->
       ok (coroutine tku') = true /\ same_or_cancelled Fresh (state tku')).

(** ** [startup] and [shutdown], one coroutine at a time *)

Definition setups_of (self : Driver) : list call := setup_call <$> requests self.

Definition startup_hooks (self : Driver) : list call :=
  call_startup_func <$> elements (startup_funcs self).

Definition shutdown_hooks (self : Driver) : list call :=
  call_shutdown_func <$> elements (shutdown_funcs self).

(** The trace of the part of [startup] after the setups. *)
Definition startup_funcs_trace (self : Driver) (w : world) (n : nat) : list label :=
  match startup_hooks self with
  | [] => []
  | cors =>
      awaited_gather cors (answer w n _ (gather cors)) ::
      match answer w n _ (gather cors) with
      | Thrown e =>
          if is_Exception e then [did (log_error startup_func_failed (Some e))] else []
      | Returned _ => []
      end
  end.

(** The trace of the part of [shutdown] after the hooks: the other tasks
    are listed, each is cancelled, all are awaited together, the loop is
    stopped. *)
Definition sweep_trace (w : world) (n : nat) : list label :=
  let ts := other_tasks_at w n in
  saw_tasks ts :: (did ∘ cancel <$> ts) ++
  match ts with
  | [] => [did loop_stop]
  | _ =>
      awaited_gather_tasks ts (answer w (S n) _ (gather_tasks ts)) ::
      match answer w (S n) _ (gather_tasks ts) with
      | Returned _ => [did loop_stop]
      | Thrown _ => []
      end
  end.

(** The message a frame is dispatched with, and the message a task is
    created for. *)
Definition payload (l : label) : option bytes :=
  match l with
  | awaited_ws_next (Returned (Some (TextFrame data))) => encode data
  | awaited_ws_next (Returned (Some (BinaryFrame data))) => Some data
  | _ => None
  end.

Definition dispatched (l : label) : option bytes :=
  match l with
  | did (create_task (call_handle_message _ message)) => Some message
  | _ => None
  end.

(** ** Examples *)

Definition example_info : ConnectionInfo :=
  {| scheme := "http"; path := "/poll"; query_string := [];
     headers := {[ "host" := "example.org" ]} |}.

Definition example_request : HTTPConnection := HTTPRequest example_info "POST" [].

Definition example_socket : HTTPConnection := WebSocket example_info.

Definition example_class : BotClass := {| adapter_type := "cqhttp" |}.

Definition example_bot : Bot := new_bot example_class (Some "bot-1") example_request.

Definition example_url : URL := {| URL_str := "http://example.org/poll" |}.

(** One polling bot, one startup hook, one shutdown hook. *)
Definition example_driver : Driver :=
  (on_shutdown
     (on_startup
        (setup (init {[ "cqhttp" := example_class ]}) "cqhttp" example_request None None).1
        "hello").1
     "bye").1.

(** The same hooks, and one request for an adapter that is not registered. *)
Definition failing_driver : Driver :=
  (on_shutdown
     (on_startup
        (setup (init {[ "cqhttp" := example_class ]}) "nope" example_socket None None).1
        "hello").1
     "bye").1.

(** A world in which every request is answered with [status], a text frame
    arrives whenever one is awaited, and whatever is awaited from question
    [cancel_at] on is cancelled. *)
Definition example_world (status : Z) (cancel_at : nat) : world :=
  {| answer := fun n X a =>
       if (cancel_at <=? n)%nat then Thrown CancelledError
       else
         match a in ext X return outcome X with
         | check_permission _ _ => Returned (Some "bot-1")
         | session_request _ _ _ => Returned {| status := status |}
         | response_read _ => Returned []
         | sleep _ => Returned tt
         | ws_connect _ => Returned tt
         | ws_next =>
             if (n <? 3)%nat then Returned (Some (TextFrame [0x41%N; 0xE9%N; 0x20AC%N]))
             else Returned (Some ErrorFrame)
         | user_code _ => Returned tt
         | gather _ => Returned tt
         | gather_tasks _ => Returned tt
         | URL_build _ _ _ _ => Returned example_url
         | parse_markup _ => Returned tt
         end;
     other_tasks_at := fun _ => [0; 1] |}.

(** A world in which the [gather] of the setups fails. *)
Definition refusing_world : world :=
  {| answer := fun n X a =>
       match a in ext X return outcome X with
       | check_permission _ _ => Returned None
       | session_request _ _ _ => Returned {| status := 200 |}
       | response_read _ => Returned []
       | sleep _ => Returned tt
       | ws_connect _ => Returned tt
       | ws_next => Returned None
       | user_code _ => Returned tt
       | gather _ => Thrown (KeyError "nope")
       | gather_tasks _ => Returned tt
       | URL_build _ _ _ _ => Returned example_url
       | parse_markup _ => Returned tt
       end;
     other_tasks_at := fun _ => [] |}.

(** A start-up that succeeds, up to the point where the hook has run. *)
Definition good_script : list occurrence :=
  [run_task 0; run_task 1; complete 1; run_task 1; run_task 0; run_task 3;
   complete 3; run_task 3].

Definition good_run : loop :=
  steps example_driver 2 (example_world 200 100) good_script (startup_scheduled example_driver).

(** The same start-up, up to the point where the setup has returned. *)
Definition established_run : loop :=
  steps example_driver 2 (example_world 200 100)
    [run_task 0; run_task 1; complete 1; run_task 1]
    (startup_scheduled example_driver).

(** A start-up that fails; [shutdown] is awaiting its hook when a signal
    arrives and a second [shutdown] begins; both hooks end, the first
    [shutdown] sweeps, the second ends cancelled, the first stops the
    loop. *)
Definition double_shutdown_script : list occurrence :=
  [run_task 0; run_task 1; run_task 0; run_task 2; run_task 3; deliver SIGINT;
   run_task 4; run_task 5; complete 3; complete 5; run_task 3; run_task 5;
   run_task 2; run_task 4; run_task 2].

Definition double_shutdown : loop :=
  steps failing_driver 2 (example_world 200 100) double_shutdown_script (startup_scheduled failing_driver).

(** [startup] of a driver without requests and hooks has ended; other code
    creates a task on the same loop; a signal arrives. *)
Definition foreign_script : list occurrence :=
  [run_task 0; foreign "other"; run_task 1; deliver SIGTERM; run_task 2].

Definition foreign_run : loop :=
  steps (init ∅) 2 (example_world 200 100) foreign_script (startup_scheduled (init ∅)).

(** Whether a task belongs to the driver: every coroutine but those other
    code schedules on the loop. *)
Definition belongs_to_driver (c : call) : bool :=
  match c with call_foreign _ => false | _ => true end.

Definition is_stop (l : label) : bool :=
  match l with did loop_stop => true | _ => false end.

(** ** The sweep on the event loop *)

Definition cancel_all (me : task_id) (ts : list task_id) (l : loop) : loop :=
  foldl (fun l t => perform me (cancel t) l) l ts.

(** What follows the end of a connection in [_ws_loop]. *)
Definition no_backoff (ri : float) (l : label) (s : list label) (r : ending) : Prop :=
  match l with
  | awaited_sleep _ _ => False
  | did (unawaited_sleep d) => d = ri /\ next_connect s r
  | awaited_ws_next (Returned None) => reconnects ri s r
  | _ => True
  end.

(** ** Shutdown *)

(** How many tasks of the shutdown hook [f] have run to their ends. *)
Definition completed_runs (f : func) (ts : list task) : nat :=
  length
    (List.filter
       (fun tk =>
          match coroutine tk, state tk with
          | call_shutdown_func g, Done None => String.eqb f g
          | _, _ => false
          end) ts).

(** ** The shape of a run of the poll loop *)

(** The labels a run of the poll loop can show between the opening and the
    closing of its session: requests, all with the method and body of the
    request and the address built from it; reads; tasks of
    [bot.handle_message]; releases; the request-failed message, parsed and
    then logged with a [ClientResponseError]; and sleeps of
    [poll_interval]. *)
Definition poll_label (bot : Bot) (request : HTTPConnection) (url : URL) (p : float)
    (l : label) : Prop :=
  match l with
  | awaited_request m u d _ => m = method_of request /\ u = url /\ d = body_of request
  | awaited_read _ _ => True
  | did (create_task c) => exists data, c = call_handle_message bot data
  | did response_release => True
  | parsed_markup m _ => m = http_request_failed url
  | did (log_error m e) =>
      m = http_request_failed url /\
      exists e', e = Some e' /\ is_ClientResponseError e' = true
  | awaited_sleep d _ => d = p
  | _ => False
  end.

(** Whether what is opened is closed before it is opened again, and never
    closed without having been opened: [held] says whether it is open at
    the beginning, the result whether it is open at the end. *)
Fixpoint bracket (opens closes : label -> bool) (held : bool) (tr : list label) : option bool :=
  match tr with
  | [] => Some held
  | l :: tr' =>
      if opens l then (if held then None else bracket opens closes true tr')
      else if closes l then (if held then bracket opens closes false tr' else None)
      else bracket opens closes held tr'
  end.

Definition is_session_open (l : label) : bool :=
  match l with did (session_open _ _) => true | _ => false end.

Definition is_session_close (l : label) : bool :=
  match l with did session_close => true | _ => false end.

Definition got_response (l : label) : bool :=
  match l with awaited_request _ _ _ (Returned _) => true | _ => false end.

Definition is_release (l : label) : bool :=
  match l with did response_release => true | _ => false end.

(** ** Requests and reads that fail with [ClientResponseError] *)

(** What follows a request or a read that raises [ClientResponseError] in
    the poll loop: the request-failed message with that exception (after
    the release of the response, when there is one), the sleep of
    [poll_interval] and, if that returns, the next request. *)
Definition retry_follows (p : float) (l : label) (s : list label) (r : ending) : Prop :=
  match l with
  | awaited_request m u d (Thrown e) =>
      is_ClientResponseError e = true -> logged_then_sleeps p m u d e s r
  | awaited_read _ (Thrown e) =>
      is_ClientResponseError e = true ->
      exists m u d s1, s = did response_release :: s1 /\ logged_then_sleeps p m u d e s1 r
  | _ => True
  end.

(** A world whose first request, the question after [URL.build], fails
    with a [ClientResponseError] and whose every other question is answered
    as usual. *)
Definition flaky_world : world :=
  {| answer := fun n X a =>
       match a in ext X return outcome X with
       | check_permission _ _ => Returned (Some "bot-1")
       | session_request _ _ _ =>
           if (n <=? 1)%nat then Thrown (ClientResponseError 502)
           else Returned {| status := 200 |}
       | response_read _ => Returned []
       | sleep _ => Returned tt
       | ws_connect _ => Returned tt
       | ws_next => Returned (Some OtherFrame)
       | user_code _ => Returned tt
       | gather _ => Returned tt
       | gather_tasks _ => Returned tt
       | URL_build _ _ _ _ => Returned example_url
       | parse_markup _ => Returned tt
       end;
     other_tasks_at := fun _ => [] |}.

(** ** The shape of a run of the reconnect loop *)

(** The labels a run of the reconnect loop can show between the opening and
    the closing of its session: connections, all to the one address built
    from the request; frames; tasks of [bot.handle_message]; the closing of
    a connection; and [asyncio.sleep(reconnect_interval)], never awaited.
    Nothing is logged there. *)
Definition ws_label (bot : Bot) (url : URL) (ri : float) (l : label) : Prop :=
  match l with
  | awaited_ws_connect u _ => u = url
  | awaited_ws_next _ => True
  | did (create_task c) => exists data, c = call_handle_message bot data
  | did ws_close => True
  | did (unawaited_sleep d) => d = ri
  | _ => False
  end.

Definition is_connected (l : label) : bool :=
  match l with awaited_ws_connect _ (Returned _) => true | _ => false end.

Definition is_ws_close (l : label) : bool :=
  match l with did ws_close => true | _ => false end.

(** What follows a frame that is neither text nor binary nor an error: the
    next frame, with nothing in between. *)
Definition other_frame_follows (l : label) (s : list label) (r : ending) : Prop :=
  match l with
  | awaited_ws_next (Returned (Some OtherFrame)) => next_frame s r
  | _ => True
  end.

(** A world in which the server closes every connection as soon as it is
    open, and everything else is answered as usual. *)
Definition closing_world : world :=
  {| answer := fun n X a =>
       match a in ext X return outcome X with
       | check_permission _ _ => Returned (Some "bot-1")
       | session_request _ _ _ => Returned {| status := 200 |}
       | response_read _ => Returned []
       | sleep _ => Returned tt
       | ws_connect _ => Returned tt
       | ws_next => Returned None
       | user_code _ => Returned tt
       | gather _ => Returned tt
       | gather_tasks _ => Returned tt
       | URL_build _ _ _ _ => Returned example_url
       | parse_markup _ => Returned tt
       end;
     other_tasks_at := fun _ => [] |}.

(** One polling bot and no hook. *)
Definition quiet_driver : Driver :=
  (setup (init {[ "cqhttp" := example_class ]}) "cqhttp" example_request None None).1.

(** The setup has returned and created the task of the loop, which has not
    taken a step, when a signal arrives. *)
Definition signalled_run : loop :=
  steps quiet_driver 2 (example_world 200 100)
    [run_task 0; run_task 1; complete 1; run_task 1; deliver SIGINT]
    (startup_scheduled quiet_driver).

(** ** Lemmas and theorems *)

(** ** The table of tasks under one step *)

Lemma length_set_state t st ts : length (set_state t st ts) = length ts.
Proof. unfold set_state. by rewrite length_alter. Qed.

Lemma lookup_set_state_eq t st ts tk :
  ts !! t = Some tk -> set_state t st ts !! t = Some {| coroutine := coroutine tk; state := st |}.
Proof. intros H. unfold set_state. rewrite list_lookup_alter_eq, H. done. Qed.

Lemma lookup_set_state_ne t u st ts : t ≠ u -> set_state t st ts !! u = ts !! u.
Proof. intros H. unfold set_state. by rewrite list_lookup_alter_ne. Qed.

Lemma lookup_wake_all ts t : wake_all ts !! t = wake ts <$> ts !! t.
Proof. unfold wake_all. apply list_lookup_fmap. Qed.

Lemma length_wake_all ts : length (wake_all ts) = length ts.
Proof. unfold wake_all. apply length_fmap. Qed.

Lemma state_of_set_state_eq t st ts :
  t < length ts -> state_of (set_state t st ts) t = Some st.
Proof.
  intros H. destruct (lookup_lt_is_Some_2 ts t H) as [tk Htk].
  unfold state_of. by rewrite (lookup_set_state_eq _ _ _ _ Htk).
Qed.

Lemma wake_other ts tk : is_joining (state tk) = false -> wake ts tk = tk.
Proof. unfold wake. by destruct (state tk). Qed.

Lemma state_of_wake_all ts t st :
  state_of ts t = Some st -> is_joining st = false -> state_of (wake_all ts) t = Some st.
Proof.
  unfold state_of. intros H Hj. rewrite lookup_wake_all.
  destruct (ts !! t) as [tk|]; simplify_eq/=. by rewrite wake_other.
Qed.

Lemma step_run_task self fuel w l t tk c :
  tasks l !! t = Some tk -> next_code self fuel tk = Some c ->
  step self fuel w (run_task t) l =
    tick (with_tasks
            (wake_all (settle t (exec t c (with_tasks (set_state t (Running false) (tasks l)) l)).2
                         (tasks (exec t c (with_tasks (set_state t (Running false) (tasks l)) l)).1)))
            (exec t c (with_tasks (set_state t (Running false) (tasks l)) l)).1).
Proof.
  intros Ht Hc. unfold step. rewrite Ht, Hc.
  by destruct (exec t c _).
Qed.

Lemma step_complete self fuel w l t X (a : ext X) k h :
  state_of (tasks l) t = Some (Waiting a k h) ->
  step self fuel w (complete t) l =
    tick (with_tasks
            (set_state t
               match answer w (now l) X a with
               | Returned x => Resume (k x) h
               | Thrown e => Throw e h
               end (tasks l)) l).
Proof. intros H. unfold step. by rewrite H. Qed.

Lemma settle_running t st ts :
  state_of ts t = Some (Running false) -> settle t st ts = set_state t st ts.
Proof. intros H. unfold settle. by rewrite H. Qed.

Lemma state_of_spawn_lt c ts t : t < length ts -> state_of (spawn c ts) t = state_of ts t.
Proof. intros H. unfold state_of, spawn. by rewrite lookup_app_l. Qed.

Lemma length_spawn c ts : length (spawn c ts) = S (length ts).
Proof. unfold spawn. rewrite length_app. simpl. lia. Qed.

Lemma lookup_of_state ts t st :
  state_of ts t = Some st -> exists c, ts !! t = Some {| coroutine := c; state := st |}.
Proof.
  unfold state_of. destruct (ts !! t) as [[c st']|]; intros; simplify_eq/=. eauto.
Qed.

(** A step of a ready task that leaves it in a state other than [Joining]
    and has not cancelled the task itself. *)
Lemma run_task_plain self fuel w l t tk c l' st :
  tasks l !! t = Some tk -> next_code self fuel tk = Some c ->
  exec t c (with_tasks (set_state t (Running false) (tasks l)) l) = (l', st) ->
  state_of (tasks l') t = Some (Running false) ->
  is_joining st = false ->
  let l1 := step self fuel w (run_task t) l in
  state_of (tasks l1) t = Some st /\ _clients l1 = _clients l' /\
  history l1 = history l' /\ length (tasks l1) = length (tasks l') /\
  now l1 = S (now l') /\
  (forall u tk', u ≠ t -> tasks l' !! u = Some tk' -> is_joining (state tk') = false ->
     tasks l1 !! u = Some tk').
Proof.
  intros Ht Hc He Hr Hj l1. subst l1.
  erewrite step_run_task by eauto. rewrite He. simpl.
  rewrite settle_running by done.
  assert (t < length (tasks l')).
  { apply lookup_of_state in Hr as [? Hr]. by eapply lookup_lt_Some. }
  split_and!; try done.
  - apply state_of_wake_all; [|done]. by apply state_of_set_state_eq.
  - by rewrite length_wake_all, length_set_state.
  - intros u tk' Hu Hl Hjk. rewrite lookup_wake_all, lookup_set_state_ne, Hl by done.
    simpl. by rewrite wake_other.
Qed.

Local Arguments step : simpl never.

(** C9: a setup task, from its first step on.  If the adapter is not in
    [self._adapters] the lookup raises [KeyError] in that first step and the
    task ends with it.  Otherwise [check_permission] is awaited; if it
    raises, the task ends with that exception; if the [self_id] it returns
    is [None] or empty, the task ends with [SetupFailed]; in all these cases
    the table of connected bots and the effects performed are as before.
    Otherwise the task returns, having put the bot into the table under its
    [self_id] first and created the task of its loop second: that task has
    not taken a step while the bot is already in the table. *)
Theorem establishment_outcomes (self : Driver) (fuel : nat) (w : world) (l : loop)
    (t : nat) (c : call) (a : string) (r : HTTPConnection) (p : float) :
  tasks l !! t = Some {| coroutine := c; state := Fresh |} ->
  c = call_http_setup a r p \/ c = call_ws_setup a r p ->
  let l1 := step self fuel w (run_task t) l in
  let l3 := steps self fuel w [complete t; run_task t] l1 in
  match _adapters self !! a with
  | None =>
      state_of (tasks l1) t = Some (Done (Some (KeyError a))) /\
      _clients l1 = _clients l /\ history l1 = history l
  | Some cls =>
      match answer w (now l1) _ (check_permission cls r) with
      | Thrown e =>
          state_of (tasks l3) t = Some (Done (Some e)) /\
          _clients l3 = _clients l /\ history l3 = history l
      | Returned id =>
          if truthy id then
            let bot := new_bot cls id r in
            state_of (tasks l3) t = Some (Done None) /\
            _clients l3 = <[ default "" id := bot ]> (_clients l) /\
            history l3 = history l ++ [(t, _bot_connect bot); (t, create_task (loop_call c bot))] /\
            tasks l3 !! length (tasks l) = Some {| coroutine := loop_call c bot; state := Fresh |} /\
            length (tasks l3) = S (length (tasks l))
          else
            state_of (tasks l3) t = Some (Done (Some (SetupFailed "Bot self_id get failed"))) /\
            _clients l3 = _clients l /\ history l3 = history l
      end
  end.
Proof.
  intros Ht Hc l1 l3.
  assert (Hlt : t < length (tasks l)) by (eapply lookup_lt_Some; eauto).
  assert (Hrun : state_of (set_state t (Running false) (tasks l)) t = Some (Running false))
    by (by apply state_of_set_state_eq).
  destruct (_adapters self !! a) as [cls|] eqn:Ha.
  - set (k := fun id =>
          if negb (truthy id) then Raise (SetupFailed "Bot self_id get failed")
          else Do (_bot_connect (new_bot cls id r))
                 (Do (create_task (loop_call c (new_bot cls id r))) Return)).
    destruct (run_task_plain self fuel w l t _ (body self fuel c)
                (with_tasks (set_state t (Running false) (tasks l)) l)
                (Waiting (check_permission cls r) k Raise) Ht eq_refl)
      as (S1 & C1 & H1 & L1 & N1 & _); [| done | done |].
    { destruct Hc as [-> | ->]; simpl; unfold _http_setup, _ws_setup; by rewrite Ha. }
    fold l1 in S1, C1, H1, L1, N1. subst l3. clearbody l1.
    simpl _clients in C1. simpl history in H1. simpl tasks in L1.
    rewrite length_set_state in L1.
    unfold steps. simpl foldl.
    rewrite (step_complete _ _ _ _ _ _ _ _ _ S1).
    destruct (lookup_of_state _ _ _ S1) as [c1 Hc1].
    destruct (answer w (now l1) (option string) (check_permission cls r)) as [id|e].
    + remember (tick (with_tasks (set_state t (Resume (k id) Raise) (tasks l1)) l1)) as l2 eqn:E2.
      assert (Ht2 : tasks l2 !! t = Some {| coroutine := c1; state := Resume (k id) Raise |})
        by (subst l2; simpl; by rewrite (lookup_set_state_eq _ _ _ _ Hc1)).
      assert (L2 : length (tasks l2) = length (tasks l))
        by (subst l2; simpl; by rewrite length_set_state).
      assert (C2 : _clients l2 = _clients l) by (by subst l2).
      assert (H2 : history l2 = history l) by (by subst l2).
      assert (Hlt2 : t < length (tasks l2)) by lia.
      clear E2. destruct (truthy id) eqn:Hid.
      * destruct (run_task_plain self fuel w l2 t _ (k id)
                    (perform t (create_task (loop_call c (new_bot cls id r)))
                       (perform t (_bot_connect (new_bot cls id r))
                          (with_tasks (set_state t (Running false) (tasks l2)) l2)))
                    (Done None) Ht2 eq_refl)
          as (S3 & C3 & H3 & L3 & _ & O3); [| | done |].
        { unfold k. by rewrite Hid. }
        { simpl tasks. rewrite state_of_spawn_lt by (by rewrite length_set_state).
          by apply state_of_set_state_eq. }
        split_and!; [done | rewrite C3; simpl; by rewrite C2
                    | rewrite H3; simpl; by rewrite H2, <- app_assoc | |
                      rewrite L3; simpl; rewrite length_spawn, length_set_state; lia].
        apply O3; [lia | | done].
        simpl tasks. unfold spawn. rewrite <- L2.
        rewrite <- (length_set_state t (Running false) (tasks l2)).
        by rewrite list_lookup_middle.
      * destruct (run_task_plain self fuel w l2 t _ (k id)
                    (with_tasks (set_state t (Running false) (tasks l2)) l2)
                    (Done (Some (SetupFailed "Bot self_id get failed"))) Ht2 eq_refl)
          as (S3 & C3 & H3 & _); [| | done |].
        { unfold k. by rewrite Hid. }
        { by apply state_of_set_state_eq. }
        split_and!; [done | rewrite C3; simpl; by rewrite C2 | rewrite H3; simpl; by rewrite H2].
    + remember (tick (with_tasks (set_state t (Throw e Raise) (tasks l1)) l1)) as l2 eqn:E2.
      assert (Ht2 : tasks l2 !! t = Some {| coroutine := c1; state := Throw e Raise |})
        by (subst l2; simpl; by rewrite (lookup_set_state_eq _ _ _ _ Hc1)).
      assert (C2 : _clients l2 = _clients l) by (by subst l2).
      assert (H2 : history l2 = history l) by (by subst l2).
      assert (Hlt2 : t < length (tasks l2)) by (by eapply lookup_lt_Some).
      clear E2.
      destruct (run_task_plain self fuel w l2 t _ (Raise e)
                  (with_tasks (set_state t (Running false) (tasks l2)) l2)
                  (Done (Some e)) Ht2 eq_refl)
        as (S3 & C3 & H3 & _); [done | | done |].
      { by apply state_of_set_state_eq. }
      split_and!; [done | rewrite C3; simpl; by rewrite C2 | rewrite H3; simpl; by rewrite H2].
  - destruct (run_task_plain self fuel w l t _ (body self fuel c)
                (with_tasks (set_state t (Running false) (tasks l)) l)
                (Done (Some (KeyError a))) Ht eq_refl)
      as (S1 & C1 & H1 & _); [| done | done | done].
    destruct Hc as [-> | ->]; simpl; unfold _http_setup, _ws_setup; by rewrite Ha.
Qed.

Section composition.

Context (w : world).

(** ** Traces of composed coroutines, and how the loops end *)

Lemma trace_followed_by c1 c2 n :
  trace w n (followed_by c1 c2) =
  trace w n c1 ++
    match result w n c1 with
    | finished None => trace w (after w n c1) c2
    | _ => []
    end.
Proof.
  revert n. induction c1 as [| e | e k IH | k IH | X a k IHk h IHh |]; intros n; simpl; try done.
  - by rewrite IH.
  - by rewrite IH.
  - destruct (answer w n X a); simpl; [by rewrite IHk | by rewrite IHh].
Qed.

Lemma result_followed_by c1 c2 n :
  result w n (followed_by c1 c2) =
    match result w n c1 with
    | finished None => result w (after w n c1) c2
    | r => r
    end.
Proof.
  revert n. induction c1 as [| e | e k IH | k IH | X a k IHk h IHh |]; intros n; simpl; try done.
  destruct (answer w n X a); simpl; [by rewrite IHk | by rewrite IHh].
Qed.

Lemma after_followed_by c1 c2 n :
  after w n (followed_by c1 c2) =
    match result w n c1 with
    | finished None => after w (after w n c1) c2
    | _ => after w n c1
    end.
Proof.
  revert n. induction c1 as [| e | e k IH | k IH | X a k IHk h IHh |]; intros n; simpl; try done.
  destruct (answer w n X a); simpl; [by rewrite IHk | by rewrite IHh].
Qed.

Lemma trace_try_except c handler n :
  trace w n (try_except c handler) =
  trace w n c ++
    match result w n c with
    | finished (Some e) => trace w (after w n c) (handler e)
    | _ => []
    end.
Proof.
  revert n. induction c as [| e | e k IH | k IH | X a k IHk h IHh |]; intros n; simpl; try done.
  - by rewrite IH.
  - by rewrite IH.
  - destruct (answer w n X a); simpl; [by rewrite IHk | by rewrite IHh].
Qed.

Lemma result_try_except c handler n :
  result w n (try_except c handler) =
    match result w n c with
    | finished (Some e) => result w (after w n c) (handler e)
    | r => r
    end.
Proof.
  revert n. induction c as [| e | e k IH | k IH | X a k IHk h IHh |]; intros n; simpl; try done.
  destruct (answer w n X a); simpl; [by rewrite IHk | by rewrite IHh].
Qed.

Lemma after_try_except c handler n :
  after w n (try_except c handler) =
    match result w n c with
    | finished (Some e) => after w (after w n c) (handler e)
    | _ => after w n c
    end.
Proof.
  revert n. induction c as [| e | e k IH | k IH | X a k IHk h IHh |]; intros n; simpl; try done.
  destruct (answer w n X a); simpl; [by rewrite IHk | by rewrite IHh].
Qed.

(** [try: c / finally: eff], for a [finally] clause that is one effect. *)
Lemma trace_try_finally c eff n :
  trace w n (try_finally c (Do eff Return)) =
  trace w n c ++ match result w n c with unfinished => [] | _ => [did eff] end.
Proof.
  unfold try_finally. rewrite trace_followed_by, trace_try_except, result_try_except.
  destruct (result w n c) as [[e|]|]; simpl; rewrite ?app_nil_r, <- ?app_assoc; done.
Qed.

Lemma result_try_finally c eff n :
  result w n (try_finally c (Do eff Return)) = result w n c.
Proof.
  unfold try_finally. rewrite result_followed_by, result_try_except.
  by destruct (result w n c) as [[e|]|].
Qed.

Lemma after_try_finally c eff n :
  after w n (try_finally c (Do eff Return)) = after w n c.
Proof.
  unfold try_finally. rewrite after_followed_by, result_try_except, after_try_except.
  by destruct (result w n c) as [[e|]|].
Qed.

End composition.

Lemma aborts_at_nil absorbed r : aborts_at absorbed [] r.
Proof. intros i l e H. by rewrite lookup_nil in H. Qed.

Lemma aborts_at_cons absorbed l tr r :
  thrown l = None \/ absorbed l = true ->
  aborts_at absorbed tr r -> aborts_at absorbed (l :: tr) r.
Proof.
  intros Hl H [|i] l0 e Hi Ht Ha; simplify_eq/=.
  - destruct Hl; congruence.
  - destruct (H i l0 e Hi Ht Ha) as [-> Hafter]. split; [done|].
    intros [|j] l' Hj Hl'; [lia|]. apply (Hafter j); [lia | done].
Qed.

Lemma aborts_at_last absorbed l e tr :
  thrown l = Some e -> Forall (fun l' => is_cleanup l' = true) tr ->
  aborts_at absorbed (l :: tr) (finished (Some e)).
Proof.
  intros Hl Htr [|i] l0 e0 Hi Ht Ha; simplify_eq/=.
  - split; [done|]. intros [|j] l' Hj Hl'; [lia|]. simpl in Hl'.
    eapply Forall_lookup_1 in Htr; eauto.
  - eapply Forall_lookup_1 in Htr; eauto. destruct l0 as [[]| | | | | | | | | | | |]; done.
Qed.

Lemma aborts_at_app_cleanup absorbed tr r tail :
  aborts_at absorbed tr r -> Forall (fun l' => is_cleanup l' = true) tail ->
  aborts_at absorbed (tr ++ tail) r.
Proof.
  intros H Htail i l e Hi Ht Ha.
  destruct (decide (i < length tr)) as [Hlt|Hge].
  - rewrite lookup_app_l in Hi by done.
    destruct (H i l e Hi Ht Ha) as [-> Hafter]. split; [done|].
    intros j l' Hj Hl'. destruct (decide (j < length tr)).
    + rewrite lookup_app_l in Hl' by done. eauto.
    + rewrite lookup_app_r in Hl' by lia. eapply Forall_lookup_1 in Htail; eauto.
  - rewrite lookup_app_r in Hi by lia. eapply Forall_lookup_1 in Htail; eauto.
    destruct l as [[]| | | | | | | | | | | |]; done.
Qed.

Lemma raise_for_status_Some response e :
  raise_for_status response = Some e -> e = ClientResponseError (status response).
Proof. unfold raise_for_status. case_match; congruence. Qed.

Section http.

Context (w : world) (bot : Bot) (request : HTTPConnection) (url : URL) (pi : float).

Lemma http_poll_forever_aborts f n :
  aborts_at absorbed_http
    (trace w n (http_poll_forever f bot request url pi))
    (result w n (http_poll_forever f bot request url pi)).
Proof.
  revert n. induction f as [|f IH]; intros n; [apply aborts_at_nil|].
  set (next := await (sleep pi) (fun _ => http_poll_forever f bot request url pi)).
  assert (Hsleep : forall m, aborts_at absorbed_http (trace w m next) (result w m next)).
  { intros m. simpl. destruct (answer w m () (sleep pi)) as [[]|e]; simpl;
      [apply aborts_at_cons; [by left | apply IH] | by apply aborts_at_last]. }
  assert (Hlog : forall m e,
    aborts_at absorbed_http
      (trace w m (logger_error_text (http_request_failed url) e next))
      (result w m (logger_error_text (http_request_failed url) e next))).
  { clearbody next. intros m e. simpl. destruct (answer w m () (parse_markup _)) as [[]|e']; simpl;
      [do 2 (apply aborts_at_cons; [by left|]); apply Hsleep | by apply aborts_at_last]. }
  simpl. unfold http_poll. simpl.
  destruct (answer w n ClientResponse _) as [resp|e]; simpl.
  - apply aborts_at_cons; [by left|].
    unfold try_finally. destruct (raise_for_status resp) as [e|] eqn:He; simpl.
    + apply raise_for_status_Some in He as ->. simpl.
      apply aborts_at_cons; [by left|]. apply Hlog.
    + destruct (answer w (S n) bytes (response_read resp)) as [data|e]; simpl.
      * do 3 (apply aborts_at_cons; [by left|]). apply Hsleep.
      * destruct (is_ClientResponseError e) eqn:Hce; simpl.
        -- apply aborts_at_cons; [right; simpl; done|].
           apply aborts_at_cons; [by left|]. apply Hlog.
        -- apply aborts_at_last; [done | by repeat constructor].
  - destruct (is_ClientResponseError e) eqn:Hce; simpl.
    + apply aborts_at_cons; [right; simpl; done|]. apply Hlog.
    + by apply aborts_at_last.
Qed.

Lemma http_poll_forever_inner f n :
  Forall (fun l => is_inner l = true) (trace w n (http_poll_forever f bot request url pi)).
Proof.
  revert n. induction f as [|f IH]; intros n; [constructor|].
  set (next := await (sleep pi) (fun _ => http_poll_forever f bot request url pi)).
  assert (Hsleep : forall m, Forall (fun l => is_inner l = true) (trace w m next)).
  { intros m. simpl. destruct (answer w m () (sleep pi)) as [[]|e]; simpl;
      repeat constructor; apply IH. }
  assert (Hlog : forall m e, Forall (fun l => is_inner l = true)
      (trace w m (logger_error_text (http_request_failed url) e next))).
  { clearbody next. intros m e. simpl. destruct (answer w m () (parse_markup _)) as [[]|e']; simpl;
      repeat (constructor; [done|]); [apply Hsleep | constructor]. }
  simpl. unfold http_poll. simpl.
  destruct (answer w n ClientResponse _) as [resp|e]; simpl.
  - constructor; [done|].
    unfold try_finally. destruct (raise_for_status resp) as [e|] eqn:He; simpl.
    + apply raise_for_status_Some in He as ->. simpl.
      constructor; [done | apply Hlog].
    + destruct (answer w (S n) bytes (response_read resp)) as [data|e]; simpl.
      * do 3 (constructor; [done|]). apply Hsleep.
      * destruct (is_ClientResponseError e) eqn:Hce; simpl; [|by repeat constructor].
        do 2 (constructor; [done|]). apply Hlog.
  - destruct (is_ClientResponseError e) eqn:Hce; simpl; [|by repeat constructor].
    constructor; [done | apply Hlog].
Qed.

End http.

Lemma trace_guarded w n message bot c :
  trace w n (guarded message bot c) = trace w n c ++ exit_tail message bot (result w n c).
Proof.
  unfold guarded. rewrite trace_try_finally, trace_try_except, result_try_except.
  rewrite <- app_assoc. f_equal.
  destruct (result w n c) as [[e|]|]; simpl; try done.
  by destruct e.
Qed.

Lemma result_guarded w n message bot c :
  result w n (guarded message bot c) = exit_result (result w n c).
Proof.
  unfold guarded. rewrite result_try_finally, result_try_except.
  destruct (result w n c) as [[e|]|]; simpl; try done.
  by destruct e.
Qed.

Lemma disconnects_app tr1 tr2 : disconnects (tr1 ++ tr2) = disconnects tr1 + disconnects tr2.
Proof. unfold disconnects. by rewrite List.filter_app, length_app. Qed.

Lemma disconnects_none tr :
  Forall (fun l => is_disconnect l = false) tr -> disconnects tr = 0.
Proof.
  unfold disconnects. induction 1 as [|l tr Hl _ IH]; simpl; [done|]. by rewrite Hl.
Qed.

Lemma exit_tail_spec message bot r :
  r <> unfinished ->
  disconnects (exit_tail message bot r) = 1 /\
  exists pre, exit_tail message bot r = pre ++ [did (_bot_disconnect bot)].
Proof.
  destruct r as [[e|]|]; [| |done]; intros _; simpl.
  - destruct (is_Exception e); simpl; (split; [done|]);
      [by exists [did (log_error message (Some e))] | by exists []].
  - split; [done|]. by exists [].
Qed.

Lemma guarded_exits_cleanly message bot absorbed c :
  (forall w n, Forall (fun l => is_inner l = true) (trace w n c)) ->
  (forall w n, aborts_at absorbed (trace w n c) (result w n c)) ->
  exits_cleanly message bot absorbed (guarded message bot c).
Proof.
  intros Hquiet Habort w n. rewrite trace_guarded, result_guarded.
  specialize (Hquiet w n). specialize (Habort w n).
  apply (Forall_impl _ (fun l => is_disconnect l = false)) in Hquiet;
    [|by intros [[]| | | | | | | | | | | |]].
  generalize dependent (result w n c). generalize dependent (trace w n c).
  intros tr Hquiet r Habort. split.
  - assert (r = unfinished \/ r <> unfinished) as [Hr|Hr]
      by (destruct r; [by right | by left]).
    + left. rewrite Hr. simpl. rewrite app_nil_r. split; [done | by apply disconnects_none].
    + right. destruct (exit_tail_spec message bot r Hr) as [Hone [pre Hpre]].
      split_and!.
      * by destruct r as [[?|]|].
      * by rewrite disconnects_app, disconnects_none, Hone.
      * by rewrite Hpre, !app_assoc, last_snoc.
  - intros i l e Hi Hth Habs.
    assert (Hlt : i < length tr).
    { destruct (decide (i < length tr)); [done|]. exfalso.
      rewrite lookup_app_r in Hi by lia.
      assert (Hd : is_effect l = true).
      { generalize dependent (i - length tr). intros d Hi.
        destruct r as [[e'|]|]; simpl in Hi.
        - destruct (is_Exception e'); simpl in Hi;
            destruct d as [|[|[|d]]]; by simplify_eq/=.
        - destruct d as [|[|d]]; by simplify_eq/=.
        - by rewrite lookup_nil in Hi. }
      destruct l; simplify_eq/=. }
    rewrite lookup_app_l in Hi by done.
    destruct (Habort i l e Hi Hth Habs) as [Hr Hafter]. rewrite Hr. simpl.
    split_and!; [done | |].
    + intros j l' Hj Hl'. destruct (decide (j < length tr)) as [Hjl|Hjl].
      * rewrite lookup_app_l in Hl' by done.
        specialize (Hafter j l' Hj Hl'). by destruct l' as [[]| | | | | | | | | | | |].
      * rewrite lookup_app_r in Hl' by lia.
        generalize dependent (j - length tr). intros d Hl'.
        destruct (is_Exception e) eqn:He; simpl in Hl';
          destruct d as [|[|[|d]]]; by simplify_eq/=.
    + intros He. exists (length tr). split; [done|].
      rewrite lookup_app_r by lia. rewrite Nat.sub_diag, He. done.
Qed.

Lemma aborts_at_seq absorbed tr1 tr2 r :
  aborts_at absorbed tr1 (finished None) -> aborts_at absorbed tr2 r ->
  aborts_at absorbed (tr1 ++ tr2) r.
Proof.
  intros H1 H2 i l e Hi Ht Ha.
  destruct (decide (i < length tr1)) as [Hlt|Hge].
  - rewrite lookup_app_l in Hi by done. by destruct (H1 i l e Hi Ht Ha) as [? _].
  - rewrite lookup_app_r in Hi by lia.
    destruct (H2 _ l e Hi Ht Ha) as [-> Hafter]. split; [done|].
    intros j l' Hj Hl'. rewrite lookup_app_r in Hl' by lia.
    apply (Hafter (j - length tr1)); [lia | done].
Qed.

Lemma http_loop_guarded fuel bot request p :
  _http_loop fuel bot request p =
  guarded http_unexpected bot (with_url request (http_session fuel bot request p)).
Proof. reflexivity. Qed.

Lemma ws_loop_guarded fuel bot request p :
  _ws_loop fuel bot request p =
  guarded ws_unexpected bot (with_url request (ws_session fuel bot request p)).
Proof. reflexivity. Qed.

Lemma trace_with_url w n request k :
  trace w n (with_url request k) =
    match headers (info_of request) !! "host" with
    | None => []
    | Some host =>
        called_URL_build (scheme (info_of request)) host (path (info_of request))
          (decode_latin1 (query_string (info_of request)))
          (answer w n _ (build_for request host)) ::
        match answer w n _ (build_for request host) with
        | Returned url => trace w (S n) (k url)
        | Thrown _ => []
        end
    end.
Proof.
  unfold with_url, build_for. destruct (headers (info_of request) !! "host"); [|done].
  simpl. by destruct (answer w n URL _).
Qed.

Lemma result_with_url w n request k :
  result w n (with_url request k) =
    match headers (info_of request) !! "host" with
    | None => finished (Some (KeyError "host"))
    | Some host =>
        match answer w n _ (build_for request host) with
        | Returned url => result w (S n) (k url)
        | Thrown e => finished (Some e)
        end
    end.
Proof.
  unfold with_url, build_for. destruct (headers (info_of request) !! "host"); [|done].
  simpl. by destruct (answer w n URL _).
Qed.

(** What holds of every run of the part inside the session holds of the
    part with the address built before it. *)
Lemma with_url_inner w n request k :
  (forall url m, Forall (fun l => is_inner l = true) (trace w m (k url))) ->
  Forall (fun l => is_inner l = true) (trace w n (with_url request k)).
Proof.
  intros Hk. rewrite trace_with_url.
  destruct (headers (info_of request) !! "host") as [host|]; [|constructor].
  constructor; [done|]. destruct (answer w n URL _) as [url|e]; [apply Hk | constructor].
Qed.

Lemma with_url_aborts absorbed w n request k :
  (forall s h p q e, absorbed (called_URL_build s h p q (Thrown e)) = false) ->
  (forall url m, aborts_at absorbed (trace w m (k url)) (result w m (k url))) ->
  aborts_at absorbed (trace w n (with_url request k)) (result w n (with_url request k)).
Proof.
  intros Ha Hk. rewrite trace_with_url, result_with_url.
  destruct (headers (info_of request) !! "host") as [host|]; [|apply aborts_at_nil].
  destruct (answer w n URL _) as [url|e].
  - apply aborts_at_cons; [by left | apply Hk].
  - apply aborts_at_last; [done | constructor].
Qed.

Lemma trace_session w n request inner url :
  trace w n (session request inner url) =
    did (session_open (headers (info_of request)) 30) :: trace w n (inner url) ++
    match result w n (inner url) with unfinished => [] | _ => [did session_close] end.
Proof. unfold session. simpl. by rewrite trace_try_finally. Qed.

Lemma result_session w n request inner url :
  result w n (session request inner url) = result w n (inner url).
Proof. unfold session. simpl. by rewrite result_try_finally. Qed.

Lemma session_inner w n request inner url :
  Forall (fun l => is_inner l = true) (trace w n (inner url)) ->
  Forall (fun l => is_inner l = true) (trace w n (session request inner url)).
Proof.
  intros H. rewrite trace_session. constructor; [done|].
  apply Forall_app. split; [done|].
  destruct (result _ _ _) as [[?|]|]; repeat constructor.
Qed.

Lemma session_aborts absorbed w n request inner url :
  aborts_at absorbed (trace w n (inner url)) (result w n (inner url)) ->
  aborts_at absorbed (trace w n (session request inner url))
    (result w n (session request inner url)).
Proof.
  intros H. rewrite trace_session, result_session.
  apply aborts_at_cons; [by left|].
  apply aborts_at_app_cleanup; [done|].
  destruct (result _ _ _) as [[?|]|]; repeat constructor.
Qed.

(** The three ways a loop begins: the [host] header is missing; [URL.build]
    raises; the address is built, the session opened and the [while True]
    entered. *)
Lemma loop_cases w n message bot request inner :
  let c := guarded message bot (with_url request (session request inner)) in
  (headers (info_of request) !! "host" = None /\
   trace w n c = exit_tail message bot (finished (Some (KeyError "host"))) /\
   result w n c = finished None) \/
  (exists host e,
     headers (info_of request) !! "host" = Some host /\
     answer w n _ (build_for request host) = Thrown e /\
     trace w n c =
       observe (build_for request host) (Thrown e) ::
       exit_tail message bot (finished (Some e)) /\
     result w n c = exit_result (finished (Some e))) \/
  (exists host url,
     headers (info_of request) !! "host" = Some host /\
     answer w n _ (build_for request host) = Returned url /\
     trace w n c =
       observe (build_for request host) (Returned url) ::
       did (session_open (headers (info_of request)) 30) ::
       trace w (S n) (inner url) ++ session_tail message bot (result w (S n) (inner url)) /\
     result w n c = exit_result (result w (S n) (inner url))).
Proof.
  intros c. unfold c. rewrite trace_guarded, result_guarded, trace_with_url, result_with_url.
  destruct (headers (info_of request) !! "host") as [host|]; [|by left].
  right. destruct (answer w n URL (build_for request host)) as [url|e] eqn:Ha.
  - right. exists host, url. rewrite trace_session, result_session.
    split_and!; [done | done | | done].
    unfold session_tail. simpl. by rewrite <- app_assoc.
  - left. by exists host, e.
Qed.

Lemma http_loop_exits_cleanly fuel bot request p :
  exits_cleanly http_unexpected bot absorbed_http (_http_loop fuel bot request p).
Proof.
  rewrite http_loop_guarded. apply guarded_exits_cleanly; intros w n.
  - apply with_url_inner. intros url m. apply session_inner, http_poll_forever_inner.
  - apply with_url_aborts; [done|]. intros url m.
    apply session_aborts, http_poll_forever_aborts.
Qed.

Section ws.

Context (w : world) (bot : Bot) (url : URL) (ri : float).

Lemma ws_frames_aborts f n :
  aborts_at (fun _ => false) (trace w n (ws_frames f bot)) (result w n (ws_frames f bot)).
Proof.
  revert n. induction f as [|f IH]; intros n; [apply aborts_at_nil|].
  simpl. destruct (answer w n _ ws_next) as [[[data|data| |]|]|e]; simpl.
  - apply aborts_at_cons; [by left|].
    destruct (encode data); simpl; [|apply aborts_at_nil].
    apply aborts_at_cons; [by left | apply IH].
  - do 2 (apply aborts_at_cons; [by left|]). apply IH.
  - apply aborts_at_cons; [by left | apply aborts_at_nil].
  - apply aborts_at_cons; [by left | apply IH].
  - apply aborts_at_cons; [by left | apply aborts_at_nil].
  - by apply aborts_at_last.
Qed.

Lemma ws_frames_inner f n :
  Forall (fun l => is_inner l = true) (trace w n (ws_frames f bot)).
Proof.
  revert n. induction f as [|f IH]; intros n; [constructor|].
  simpl. destruct (answer w n _ ws_next) as [[[data|data| |]|]|e]; simpl;
    repeat (constructor; [done|]); try apply IH; try constructor.
  destruct (encode data); simpl; repeat constructor. apply IH.
Qed.

Lemma ws_forever_aborts f frames n :
  aborts_at (fun _ => false)
    (trace w n (ws_forever f frames bot url ri))
    (result w n (ws_forever f frames bot url ri)).
Proof.
  revert n. induction f as [|f IH]; intros n; [apply aborts_at_nil|].
  simpl. destruct (answer w n _ (ws_connect url)) as [[]|e]; simpl; [|by apply aborts_at_last].
  apply aborts_at_cons; [by left|].
  rewrite trace_followed_by, result_followed_by, trace_try_finally, result_try_finally,
    after_try_finally.
  pose proof (ws_frames_aborts frames (S n)) as Hf.
  destruct (result w (S n) (ws_frames frames bot)) as [[e|]|] eqn:Hr; simpl.
  - rewrite app_nil_r. apply aborts_at_app_cleanup; [done | by repeat constructor].
  - apply aborts_at_seq.
    + apply aborts_at_app_cleanup; [done | by repeat constructor].
    + apply aborts_at_cons; [by left | apply IH].
  - by rewrite !app_nil_r.
Qed.

Lemma ws_forever_inner f frames n :
  Forall (fun l => is_inner l = true) (trace w n (ws_forever f frames bot url ri)).
Proof.
  revert n. induction f as [|f IH]; intros n; [constructor|].
  simpl. destruct (answer w n _ (ws_connect url)) as [[]|e]; simpl; [|by repeat constructor].
  constructor; [done|].
  rewrite trace_followed_by, trace_try_finally, result_try_finally, after_try_finally.
  rewrite !Forall_app. split_and!.
  - apply ws_frames_inner.
  - destruct (result _ _ _) as [[?|]|]; repeat constructor.
  - destruct (result _ _ _) as [[?|]|]; simpl; repeat constructor. apply IH.
Qed.

End ws.

Lemma ws_loop_exits_cleanly fuel bot request p :
  exits_cleanly ws_unexpected bot (fun _ => false) (_ws_loop fuel bot request p).
Proof.
  rewrite ws_loop_guarded. apply guarded_exits_cleanly; intros w n.
  - apply with_url_inner. intros url m. apply session_inner, ws_forever_inner.
  - apply with_url_aborts; [done|]. intros url m.
    apply session_aborts, ws_forever_aborts.
Qed.

Lemma after_each_nil V r : after_each V [] r.
Proof. intros i l H. by rewrite lookup_nil in H. Qed.

Lemma after_each_cons V l tr r :
  V l tr r -> after_each V tr r -> after_each V (l :: tr) r.
Proof. intros Hl Htr [|i] l' Hi; simplify_eq/=; [done | by apply Htr]. Qed.

Lemma after_each_app (V V' : label -> list label -> ending -> Prop) tr tail r r' :
  after_each V tr r -> after_each V' tail r' ->
  (forall l s, V l s r -> V' l (s ++ tail) r') ->
  after_each V' (tr ++ tail) r'.
Proof.
  intros Htr Htail Hmono i l Hi.
  destruct (decide (i < length tr)) as [Hlt|Hge].
  - rewrite lookup_app_l in Hi by done.
    rewrite drop_app_le by lia. by apply Hmono, Htr.
  - rewrite lookup_app_r in Hi by lia.
    rewrite drop_app_ge by lia.
    replace (S i - length tr) with (S (i - length tr)) by lia. by apply Htail.
Qed.

Lemma after_each_impl (V V' : label -> list label -> ending -> Prop) tr r :
  (forall l s, V l s r -> V' l s r) -> after_each V tr r -> after_each V' tr r.
Proof. intros H Htr i l Hi. by apply H, Htr. Qed.

Lemma next_request_app m u d s r tail r' :
  (r = unfinished -> tail = [] /\ r' = unfinished) ->
  next_request m u d s r -> next_request m u d (s ++ tail) r'.
Proof.
  intros Hr [[-> Hu]|(o & s' & ->)].
  - destruct (Hr Hu) as [-> ->]. by left.
  - right. by exists o, (s' ++ tail).
Qed.

Lemma logged_then_sleeps_app p m u d e s r tail r' :
  (r = unfinished -> tail = [] /\ r' = unfinished) ->
  logged_then_sleeps p m u d e s r -> logged_then_sleeps p m u d e (s ++ tail) r'.
Proof.
  intros Hr (o & s1 & -> & H). exists o, (s1 ++ tail). split; [done|].
  intros Ho. destruct (H Ho) as (o' & s2 & -> & Hn).
  exists o', (s2 ++ tail). split; [done|]. intros Ho'. eapply next_request_app; eauto.
Qed.

Lemma poll_follows_app accepted bot p l s r tail r' :
  (r = unfinished -> tail = [] /\ r' = unfinished) ->
  poll_follows accepted bot p l s r -> poll_follows accepted bot p l (s ++ tail) r'.
Proof.
  intros Hr. destruct l as [| | |m u d [response|]| | | | | | | | |]; try done. simpl.
  destruct (accepted response).
  - intros (o & s1 & -> & H). exists o, (s1 ++ tail). split; [done|].
    intros data Ho. destruct (H data Ho) as (o' & s2 & -> & Hn).
    exists o', (s2 ++ tail). split; [done|]. intros Ho'. eapply next_request_app; eauto.
  - intros (s1 & -> & H). exists (s1 ++ tail). split; [done|].
    by eapply logged_then_sleeps_app.
Qed.

Section http_follows.

Context (w : world) (bot : Bot) (request : HTTPConnection) (url : URL) (pi : float).

Lemma http_poll_forever_next f n :
  next_request (method_of request) url (body_of request)
    (trace w n (http_poll_forever f bot request url pi))
    (result w n (http_poll_forever f bot request url pi)).
Proof.
  destruct f as [|f]; [by left|]. right. simpl. unfold http_poll. simpl. eauto.
Qed.

Lemma http_poll_forever_follows f n :
  after_each (poll_follows response_ok bot pi)
    (trace w n (http_poll_forever f bot request url pi))
    (result w n (http_poll_forever f bot request url pi)).
Proof.
  revert n. induction f as [|f IH]; intros n; [apply after_each_nil|].
  set (next := await (sleep pi) (fun _ => http_poll_forever f bot request url pi)).
  set (V := poll_follows response_ok bot pi).
  assert (Hsleep : forall m,
    after_each V (trace w m next) (result w m next) /\
    exists o' s2, trace w m next = awaited_sleep pi o' :: s2 /\
      (o' = Returned tt ->
       next_request (method_of request) url (body_of request) s2 (result w m next))).
  { intros m. simpl. destruct (answer w m () (sleep pi)) as [[]|e]; simpl.
    - split; [apply after_each_cons; [done | apply IH]|].
      eexists _, _. split; [done|]. intros _. apply http_poll_forever_next.
    - split; [apply after_each_cons; [done | apply after_each_nil]|].
      eexists _, _. split; [done|]. done. }
  assert (Hlog : forall m e,
    after_each V (trace w m (logger_error_text (http_request_failed url) (Some e) next))
      (result w m (logger_error_text (http_request_failed url) (Some e) next)) /\
    logged_then_sleeps pi (method_of request) url (body_of request) e
      (trace w m (logger_error_text (http_request_failed url) (Some e) next))
      (result w m (logger_error_text (http_request_failed url) (Some e) next))).
  { clearbody next. intros m e. simpl.
    destruct (answer w m () (parse_markup _)) as [[]|e']; simpl.
    - destruct (Hsleep (S m)) as [H1 (o' & s2 & Heq & Hn)]. split.
      + do 2 (apply after_each_cons; [done|]). exact H1.
      + eexists _, _. split; [done|]. intros _. rewrite Heq. by exists o', s2.
    - split; [apply after_each_cons; [done | apply after_each_nil]|].
      eexists _, _. split; [done|]. done. }
  simpl. unfold http_poll. simpl.
  destruct (answer w n ClientResponse _) as [resp|e]; simpl.
  - unfold try_finally. destruct (raise_for_status resp) as [e|] eqn:He; simpl.
    + pose proof He as He'. apply raise_for_status_Some in He' as ->. simpl.
      assert (H2 : response_ok resp = false).
      { unfold raise_for_status in He. by destruct (response_ok resp). }
      destruct (Hlog (S n) (ClientResponseError (status resp))) as [H1 H3].
      apply after_each_cons; [|apply after_each_cons; [done | exact H1]].
      unfold V. simpl. rewrite H2. eexists. split; [done | exact H3].
    + assert (H2 : response_ok resp = true).
      { unfold raise_for_status in He. by destruct (response_ok resp). }
      destruct (answer w (S n) bytes (response_read resp)) as [data|e] eqn:Hrd; simpl.
      * destruct (Hsleep (S (S n))) as [H1 (o' & s2 & Heq & Hn)].
        apply after_each_cons; [|do 3 (apply after_each_cons; [done|]); exact H1].
        unfold V. simpl. rewrite H2. eexists _, _. split; [done|]. intros ? [= <-].
        exists o', s2. split; [|done]. do 2 f_equal. exact Heq.
      * apply after_each_cons.
        { unfold V. simpl. rewrite H2. eexists _, _. split; [done|]. done. }
        apply after_each_cons; [done|].
        destruct (is_ClientResponseError e) eqn:Hce; simpl.
        -- apply after_each_cons; [done|]. apply (Hlog (S (S n)) e).
        -- apply after_each_cons; [done | apply after_each_nil].
  - apply after_each_cons; [done|].
    destruct (is_ClientResponseError e) eqn:Hce; simpl; [|apply after_each_nil].
    apply (Hlog (S n) e).
Qed.

Lemma http_poll_forever_fuel f n :
  result w n (http_poll_forever f bot request url pi) = unfinished ->
  requests_made (trace w n (http_poll_forever f bot request url pi)) = f.
Proof.
  revert n. induction f as [|f IH]; intros n; [done|].
  set (next := await (sleep pi) (fun _ => http_poll_forever f bot request url pi)).
  assert (Hsleep : forall m,
    result w m next = unfinished -> requests_made (trace w m next) = f).
  { intros m. simpl. destruct (answer w m () (sleep pi)) as [[]|e]; simpl; [apply IH | done]. }
  assert (Hlog : forall m e,
    result w m (logger_error_text (http_request_failed url) e next) = unfinished ->
    requests_made (trace w m (logger_error_text (http_request_failed url) e next)) = f).
  { clearbody next. intros m e. simpl.
    destruct (answer w m () (parse_markup _)) as [[]|e']; simpl; [apply Hsleep | done]. }
  simpl. unfold http_poll. simpl.
  destruct (answer w n ClientResponse _) as [resp|e]; simpl.
  - unfold try_finally. destruct (raise_for_status resp) as [e|] eqn:He; simpl.
    + apply raise_for_status_Some in He as ->. simpl. intros H.
      unfold requests_made. cbn [List.filter is_request length]. f_equal.
      by apply (Hlog (S n)).
    + destruct (answer w (S n) bytes (response_read resp)) as [data|e]; simpl.
      * intros H. unfold requests_made. cbn [List.filter is_request length]. f_equal.
        by apply (Hsleep (S (S n))).
      * destruct (is_ClientResponseError e) eqn:Hce; simpl; [|done]. intros H.
        unfold requests_made. cbn [List.filter is_request length]. f_equal.
        by apply (Hlog (S (S n))).
  - destruct (is_ClientResponseError e) eqn:Hce; simpl; [|done]. intros H.
    unfold requests_made. cbn [List.filter is_request length]. f_equal.
    by apply (Hlog (S n)).
Qed.

End http_follows.

Lemma after_each_trivial (P : label -> Prop) V tr r :
  (forall l s r, P l -> V l s r) -> Forall P tr -> after_each V tr r.
Proof. intros HV Htr i l Hi. eapply Forall_lookup_1 in Htr; eauto. Qed.

Lemma exit_tail_labels message bot r : Forall is_exit_label (exit_tail message bot r).
Proof. destruct r as [[e|]|]; simpl; [destruct (is_Exception e)| |]; by repeat constructor. Qed.

Lemma session_tail_labels message bot r : Forall is_exit_label (session_tail message bot r).
Proof.
  apply Forall_app. split; [|apply exit_tail_labels].
  destruct r as [[?|]|]; by repeat constructor.
Qed.

Lemma session_tail_unfinished message bot : session_tail message bot unfinished = [].
Proof. done. Qed.

(** What holds after each label of the [while True] holds after each label
    of the loop, if it is kept when the closing of the session and the exit
    of the loop are appended. *)
Lemma loop_after_each (V V' : label -> list label -> ending -> Prop)
    w n message bot request inner :
  (forall l s r, is_exit_label l -> V' l s r) ->
  (forall url m, after_each V (trace w m (inner url)) (result w m (inner url))) ->
  (forall l s r, V l s r -> V' l (s ++ session_tail message bot r) (exit_result r)) ->
  after_each V'
    (trace w n (guarded message bot (with_url request (session request inner))))
    (result w n (guarded message bot (with_url request (session request inner)))).
Proof.
  intros Hexit Hinner Hmono.
  destruct (loop_cases w n message bot request inner)
    as [(_ & -> & ->)|[(host & e & _ & _ & -> & ->)|(host & url & _ & _ & -> & ->)]].
  - eapply after_each_trivial; [exact Hexit | apply exit_tail_labels].
  - eapply after_each_trivial; [exact Hexit|].
    constructor; [done | apply exit_tail_labels].
  - do 2 (apply after_each_cons; [by apply Hexit|]).
    eapply after_each_app; [apply Hinner | | intros l s; apply Hmono].
    eapply after_each_trivial; [exact Hexit | apply session_tail_labels].
Qed.

Lemma http_loop_follows fuel bot request p w n :
  after_each (poll_follows response_ok bot p)
    (trace w n (_http_loop fuel bot request p))
    (result w n (_http_loop fuel bot request p)).
Proof.
  rewrite http_loop_guarded. unfold http_session.
  eapply loop_after_each.
  - intros l s r. by destruct l as [[]| | | | | | | | | | | |].
  - intros url m. apply http_poll_forever_follows.
  - intros l s r. apply poll_follows_app. by intros ->.
Qed.

Lemma next_connect_app s r tail r' :
  (r = unfinished -> tail = [] /\ r' = unfinished) ->
  next_connect s r -> next_connect (s ++ tail) r'.
Proof.
  intros Hr [[-> Hu]|(u & o & s' & ->)].
  - destruct (Hr Hu) as [-> ->]. by left.
  - right. by exists u, o, (s' ++ tail).
Qed.

Lemma next_frame_app s r tail r' :
  (r = unfinished -> tail = [] /\ r' = unfinished) ->
  next_frame s r -> next_frame (s ++ tail) r'.
Proof.
  intros Hr [[-> Hu]|(o & s' & ->)].
  - destruct (Hr Hu) as [-> ->]. by left.
  - right. by exists o, (s' ++ tail).
Qed.

Lemma reconnects_app ri s r tail r' :
  (r = unfinished -> tail = [] /\ r' = unfinished) ->
  reconnects ri s r -> reconnects ri (s ++ tail) r'.
Proof.
  intros Hr (s' & -> & Hn). exists (s' ++ tail). split; [done|].
  by eapply next_connect_app.
Qed.

Lemma ws_follows_app (K K' E E' : list label -> ending -> Prop) bot ri l s r tail r' :
  (forall s0, K s0 r -> K' (s0 ++ tail) r') ->
  (forall s0, E s0 r -> E' (s0 ++ tail) r') ->
  (r = unfinished -> tail = [] /\ r' = unfinished) ->
  ws_follows K E bot ri l s r -> ws_follows K' E' bot ri l (s ++ tail) r'.
Proof.
  intros HK HE Hr.
  destruct l as [[]| | | | | | |[[[data|data| |]|]|]| | | | |]; simpl; try done.
  - intros [-> Hn]. split; [done|]. by eapply next_connect_app.
  - destruct (encode data); [|done]. intros (s' & -> & Hn).
    exists (s' ++ tail). split; [done|]. by eapply next_frame_app.
  - intros (s' & -> & Hn). exists (s' ++ tail). split; [done|]. by eapply next_frame_app.
  - apply HE.
  - apply HK.
Qed.

Section ws_follows.

Context (w : world) (bot : Bot) (url : URL) (ri : float).

Lemma ws_frames_next f n :
  next_frame (trace w n (ws_frames f bot)) (result w n (ws_frames f bot)).
Proof. destruct f as [|f]; [by left|]. right. simpl. eauto. Qed.

Lemma ws_frames_follows f n :
  after_each (ws_follows (ends_with [] (finished None))
                (ends_with [] (finished (Some frame_error))) bot ri)
    (trace w n (ws_frames f bot)) (result w n (ws_frames f bot)).
Proof.
  revert n. induction f as [|f IH]; intros n; [apply after_each_nil|].
  simpl. destruct (answer w n _ ws_next) as [[[data|data| |]|]|e] eqn:Ha; simpl.
  - destruct (encode data) as [b|] eqn:Hb; simpl.
    + apply after_each_cons; [|apply after_each_cons; [done | apply IH]].
      simpl. rewrite Hb. eexists. split; [done|]. apply ws_frames_next.
    + apply after_each_cons; [|apply after_each_nil]. simpl. by rewrite Hb.
  - apply after_each_cons; [|apply after_each_cons; [done | apply IH]].
    simpl. eexists. split; [done|]. apply ws_frames_next.
  - apply after_each_cons; [by simpl | apply after_each_nil].
  - apply after_each_cons; [done | apply IH].
  - apply after_each_cons; [by simpl | apply after_each_nil].
  - apply after_each_cons; [done | apply after_each_nil].
Qed.

Lemma ws_forever_next f frames n :
  next_connect (trace w n (ws_forever f frames bot url ri))
    (result w n (ws_forever f frames bot url ri)).
Proof. destruct f as [|f]; [by left|]. right. simpl. eauto. Qed.

Lemma ws_forever_follows f frames n :
  after_each (ws_follows (reconnects ri)
                (ends_with [did ws_close] (finished (Some frame_error))) bot ri)
    (trace w n (ws_forever f frames bot url ri))
    (result w n (ws_forever f frames bot url ri)).
Proof.
  revert n. induction f as [|f IH]; intros n; [apply after_each_nil|].
  simpl. destruct (answer w n _ (ws_connect url)) as [[]|e]; simpl;
    (apply after_each_cons; [done|]); [|apply after_each_nil].
  rewrite trace_followed_by, result_followed_by, trace_try_finally, result_try_finally,
    after_try_finally.
  pose proof (ws_frames_follows frames (S n)) as Hf.
  destruct (result w (S n) (ws_frames frames bot)) as [[e|]|] eqn:Hr; simpl.
  - rewrite app_nil_r. eapply after_each_app; [exact Hf | |].
    + by apply after_each_cons; [|apply after_each_nil].
    + intros l s. apply ws_follows_app; [by intros s0 [_ ?] | | done].
      by intros s0 [-> [= ->]].
  - rewrite <- app_assoc. eapply after_each_app; [exact Hf | |].
    + apply after_each_cons; [done|]. apply after_each_cons; [|apply IH].
      simpl. split; [done | apply ws_forever_next].
    + intros l s. apply ws_follows_app; [| by intros s0 [_ ?] | done].
      intros s0 [-> _]. simpl. eexists. split; [done|]. apply ws_forever_next.
  - rewrite !app_nil_r. eapply after_each_impl; [|exact Hf].
    intros l s Hl. rewrite <- (app_nil_r s).
    eapply ws_follows_app; [| | |exact Hl]; [by intros s0 [_ ?] | by intros s0 [_ ?] | done].
Qed.

Lemma frames_awaited_app since tr1 tr2 :
  frames_awaited since (tr1 ++ tr2) = frames_awaited (frames_awaited since tr1) tr2.
Proof.
  revert since. induction tr1 as [|l tr1 IH]; intros since; [done|].
  destruct l; simpl; apply IH.
Qed.

Lemma ws_frames_connections f n : connections (trace w n (ws_frames f bot)) = 0.
Proof.
  revert n. induction f as [|f IH]; intros n; [done|].
  simpl. destruct (answer w n _ ws_next) as [[[data|data| |]|]|e]; simpl; try done.
  - destruct (encode data); simpl; [apply IH | done].
  - apply IH.
  - apply IH.
Qed.

Lemma ws_frames_fuel f n since :
  result w n (ws_frames f bot) = unfinished ->
  frames_awaited since (trace w n (ws_frames f bot)) = since + f.
Proof.
  revert n since. induction f as [|f IH]; intros n since; simpl; [intros _; lia|].
  destruct (answer w n _ ws_next) as [[[data|data| |]|]|e]; simpl; try done.
  - destruct (encode data); simpl; [|done]. intros H. rewrite IH by done. lia.
  - intros H. rewrite IH by done. lia.
  - intros H. rewrite IH by done. lia.
Qed.

Lemma ws_forever_fuel f frames n since :
  result w n (ws_forever f frames bot url ri) = unfinished ->
  connections (trace w n (ws_forever f frames bot url ri)) = f \/
  frames_awaited since (trace w n (ws_forever f frames bot url ri)) = frames.
Proof.
  revert n since. induction f as [|f IH]; intros n since; [by left|].
  simpl. destruct (answer w n _ (ws_connect url)) as [[]|e]; simpl; [|done].
  rewrite trace_followed_by, result_followed_by, trace_try_finally, result_try_finally,
    after_try_finally.
  pose proof (ws_frames_fuel frames (S n) 0) as Hf.
  pose proof (ws_frames_connections frames (S n)) as Hc.
  destruct (result w (S n) (ws_frames frames bot)) as [[e|]|] eqn:Hr; simpl; [done| |].
  - intros H.
    destruct (IH _ (frames_awaited 0 (trace w (S n) (ws_frames frames bot) ++ [did ws_close])) H)
      as [Hn|Hn].
    + left. unfold connections in *. cbn [List.filter is_connect length]. f_equal.
      rewrite !List.filter_app, !length_app, Hc. cbn [List.filter is_connect length].
      by rewrite Hn.
    + right. rewrite frames_awaited_app. exact Hn.
  - intros _. right. rewrite !app_nil_r. by rewrite Hf.
Qed.

End ws_follows.

Lemma ws_loop_follows fuel bot request p w n :
  after_each (ws_follows (reconnects p) (error_frame_ends bot) bot p)
    (trace w n (_ws_loop fuel bot request p))
    (result w n (_ws_loop fuel bot request p)).
Proof.
  rewrite ws_loop_guarded. unfold ws_session.
  eapply loop_after_each.
  - intros l s r. by destruct l as [[]| | | | | | | | | | | |].
  - intros url m. apply ws_forever_follows.
  - intros l s r. apply ws_follows_app.
    + intros s0. apply reconnects_app. by intros ->.
    + by intros s0 [-> ->].
    + by intros ->.
Qed.

Lemma exit_result_unfinished r : exit_result r = unfinished -> r = unfinished.
Proof. by destruct r as [[e|]|]. Qed.

(** A loop that the bound of the model stops is inside its [while True]. *)
Lemma loop_unfinished w n message bot request inner :
  result w n (guarded message bot (with_url request (session request inner))) = unfinished ->
  exists host url,
    result w (S n) (inner url) = unfinished /\
    trace w n (guarded message bot (with_url request (session request inner))) =
      observe (build_for request host) (Returned url) ::
      did (session_open (headers (info_of request)) 30) :: trace w (S n) (inner url).
Proof.
  intros H.
  destruct (loop_cases w n message bot request inner)
    as [(_ & _ & Hr)|[(host & e & _ & _ & _ & Hr)|(host & url & _ & _ & Ht & Hr)]];
    rewrite Hr in H; [done | by apply exit_result_unfinished in H |].
  apply exit_result_unfinished in H. exists host, url. split; [done|].
  by rewrite Ht, H, session_tail_unfinished, app_nil_r.
Qed.

Lemma http_loop_fuel fuel bot request p w n :
  result w n (_http_loop fuel bot request p) = unfinished ->
  requests_made (trace w n (_http_loop fuel bot request p)) = fuel.
Proof.
  rewrite http_loop_guarded. unfold http_session. intros H.
  destruct (loop_unfinished _ _ _ _ _ _ H) as (host & url & Hr & ->).
  by apply http_poll_forever_fuel.
Qed.

Lemma ws_loop_fuel fuel bot request p w n :
  result w n (_ws_loop fuel bot request p) = unfinished ->
  connections (trace w n (_ws_loop fuel bot request p)) = fuel \/
  frames_awaited 0 (trace w n (_ws_loop fuel bot request p)) = fuel.
Proof.
  rewrite ws_loop_guarded. unfold ws_session. intros H.
  destruct (loop_unfinished _ _ _ _ _ _ H) as (host & url & Hr & ->).
  by apply (ws_forever_fuel w bot url p fuel fuel (S n) 0).
Qed.

(** ** The coroutines of the driver create only tasks of their kind *)

Lemma tame_weaken (ok ok' : call -> bool) c :
  (forall c, ok c = true -> ok' c = true) -> tame ok c -> tame ok' c.
Proof.
  intros Hok. induction 1; constructor; eauto.
  eapply Forall_impl; eauto.
Qed.

Lemma tame_followed_by ok c1 c2 : tame ok c1 -> tame ok c2 -> tame ok (followed_by c1 c2).
Proof. intros H1 H2. induction H1; simpl; try constructor; eauto. Qed.

Lemma tame_try_except ok c handler :
  tame ok c -> (forall e, tame ok (handler e)) -> tame ok (try_except c handler).
Proof. intros H1 H2. induction H1; simpl; try constructor; eauto. Qed.

Lemma tame_try_finally ok c final : tame ok c -> tame ok final -> tame ok (try_finally c final).
Proof.
  intros H1 H2. unfold try_finally. apply tame_followed_by; [|done].
  apply tame_try_except; [done|]. intros e. apply tame_followed_by; [done | constructor].
Qed.

Lemma tame_await ok X (a : ext X) k :
  gathered a = [] -> (forall x, tame ok (k x)) -> tame ok (await a k).
Proof. intros Ha Hk. constructor; [by rewrite Ha | done | constructor]. Qed.

Lemma tame_effect ok e k :
  match e with create_task c => ok c = true | _ => True end -> tame ok k -> tame ok (Do e k).
Proof. intros He Hk. constructor; [|done]. by intros c ->. Qed.

Lemma tame_await_gather ok cs k h :
  Forall (fun c => ok c = true) cs -> tame ok k -> (forall e, tame ok (h e)) ->
  tame ok (await_gather cs k h).
Proof. intros Hcs Hk Hh. destruct cs; simpl; [done|]. by constructor. Qed.

Lemma tame_loop_except ok message e : tame ok (loop_except message e).
Proof.
  unfold loop_except. destruct (is_CancelledError e); [constructor|].
  destruct (is_Exception e); [|constructor]. apply tame_effect; [done | constructor].
Qed.

Lemma ok_other_hooks c : ok_other c = true -> ok_hooks c = true.
Proof. by destruct c. Qed.

Lemma tame_http_poll_forever ok f bot request url p :
  (forall b m, ok (call_handle_message b m) = true) ->
  tame ok (http_poll_forever f bot request url p).
Proof.
  intros Hok. induction f as [|f IH]; cbn [http_poll_forever]; [constructor|].
  apply tame_followed_by.
  - unfold http_poll. apply tame_try_except.
    + apply tame_await; [done|]. intros response. apply tame_try_finally.
      * destruct (raise_for_status response); [constructor|].
        apply tame_await; [done|]. intros data. apply tame_effect; [apply Hok | constructor].
      * apply tame_effect; [done | constructor].
    + intros e. destruct (is_ClientResponseError e); [|constructor].
      apply tame_await; [done|]. intros _. apply tame_effect; [done | constructor].
  - apply tame_await; [done|]. intros _. apply IH.
Qed.

Lemma tame_ws_frames ok f bot :
  (forall b m, ok (call_handle_message b m) = true) -> tame ok (ws_frames f bot).
Proof.
  intros Hok. induction f as [|f IH]; cbn [ws_frames]; [constructor|].
  apply tame_await; [done|]. intros [[data|data| |]|].
  - destruct (encode data); [|constructor]. apply tame_effect; [apply Hok | done].
  - apply tame_effect; [apply Hok | done].
  - unfold logger_error. destruct (markup_error _ _ _); [constructor|].
    apply tame_effect; [done | constructor].
  - done.
  - constructor.
Qed.

Lemma tame_ws_forever ok f frames bot url p :
  (forall b m, ok (call_handle_message b m) = true) ->
  tame ok (ws_forever f frames bot url p).
Proof.
  intros Hok. induction f as [|f IH]; cbn [ws_forever]; [constructor|].
  apply tame_followed_by.
  - apply tame_await; [done|]. intros _. apply tame_try_finally.
    + by apply tame_ws_frames.
    + apply tame_effect; [done | constructor].
  - apply tame_effect; [done | apply IH].
Qed.

Lemma tame_body self fuel c : is_startup c = false -> tame ok_other (body self fuel c).
Proof.
  intros Hc. destruct c as [|s|a r p|a r p|b r p|b r p|f|f|b m|what]; try done; simpl.
  - (* shutdown *)
    assert (Hsweep : tame ok_other cancel_tasks_and_stop).
    { constructor. intros ts. unfold cancel_each.
      induction ts as [|t ts IH]; simpl.
      - apply tame_effect; [done | constructor].
      - apply tame_effect; [done|]. clear IH.
        assert (H : forall k, tame ok_other k -> tame ok_other
                      (foldr (fun t k => Do (cancel t) k) k ts)).
        { intros k Hk. induction ts; simpl; [done | by apply tame_effect]. }
        apply H. constructor; [constructor | | constructor].
        intros _. apply tame_effect; [done | constructor]. }
    unfold shutdown. apply tame_await_gather; [|done|].
    + apply Forall_fmap, Forall_true. done.
    + intros e. destruct (is_Exception e); [|constructor]. by apply tame_effect.
  - unfold _http_setup. destruct (_adapters self !! a); [|constructor].
    apply tame_await; [done|]. intros id. destruct (negb (truthy id)); [constructor|].
    apply tame_effect; [done|]. apply tame_effect; [done | constructor].
  - unfold _ws_setup. destruct (_adapters self !! a); [|constructor].
    apply tame_await; [done|]. intros id. destruct (negb (truthy id)); [constructor|].
    apply tame_effect; [done|]. apply tame_effect; [done | constructor].
  - unfold _http_loop. apply tame_try_finally; [|apply tame_effect; [done | constructor]].
    apply tame_try_except; [|apply tame_loop_except].
    unfold with_url. destruct (headers (info_of r) !! "host"); [|constructor].
    apply tame_await; [done|]. intros url. apply tame_effect; [done|].
    apply tame_try_finally; [by apply tame_http_poll_forever|].
    apply tame_effect; [done | constructor].
  - unfold _ws_loop. apply tame_try_finally; [|apply tame_effect; [done | constructor]].
    apply tame_try_except; [|apply tame_loop_except].
    unfold with_url. destruct (headers (info_of r) !! "host"); [|constructor].
    apply tame_await; [done|]. intros url. apply tame_effect; [done|].
    apply tame_try_finally; [by apply tame_ws_forever|].
    apply tame_effect; [done | constructor].
  - apply tame_await; [done|]. constructor.
  - apply tame_await; [done|]. constructor.
  - apply tame_await; [done|]. constructor.
  - apply tame_await; [done|]. constructor.
Qed.

Lemma tame_run_startup_funcs self : tame ok_hooks (run_startup_funcs self).
Proof.
  unfold run_startup_funcs. apply tame_await_gather; [|constructor|].
  - apply Forall_fmap, Forall_true. done.
  - intros e. destruct (is_Exception e); [|constructor]. apply tame_effect; [done | constructor].
Qed.

Lemma tame_abort_startup e : tame ok_other (abort_startup e).
Proof.
  unfold abort_startup. destruct (is_Exception e); [|constructor].
  apply tame_effect; [done|]. apply tame_effect; [done | constructor].
Qed.

(** ** Tables of tasks that grow *)

Lemma cancelled_idem st : cancelled (cancelled st) = cancelled st.
Proof. by destruct st. Qed.

Lemma same_or_cancelled_trans st1 st2 st3 :
  same_or_cancelled st1 st2 -> same_or_cancelled st2 st3 -> same_or_cancelled st1 st3.
Proof.
  intros [->| ->] [->| ->]; [by left | by right | by right |].
  right. apply cancelled_idem.
Qed.

Lemma tame_state_cancelled ok st : tame_state ok st -> tame_state ok (cancelled st).
Proof.
  destruct st; simpl; try done; try (by intros [_ ?]).
  intros _ e. constructor.
Qed.

Lemma grows_refl ok ts : grows ok ts ts.
Proof.
  split_and!; [done | |].
  - intros u tk Hu. exists tk. split_and!; [done | done | by left].
  - intros u tk' Hu Hl. apply lookup_lt_Some in Hl. lia.
Qed.

Lemma grows_trans ok ts1 ts2 ts3 : grows ok ts1 ts2 -> grows ok ts2 ts3 -> grows ok ts1 ts3.
Proof.
  intros (L1 & O1 & N1) (L2 & O2 & N2). split_and!; [lia | |].
  - intros u tk Hu. destruct (O1 u tk Hu) as (tk1 & H1 & C1 & S1).
    destruct (O2 u tk1 H1) as (tk2 & H2 & C2 & S2).
    exists tk2. split_and!; [done | congruence | by eapply same_or_cancelled_trans].
  - intros u tk3 Hu Hl. destruct (decide (u < length ts2)) as [Hlt|Hge].
    + destruct (lookup_lt_is_Some_2 ts2 u Hlt) as [tk2 H2].
      destruct (N1 u tk2 Hu H2) as [Hok S1].
      destruct (O2 u tk2 H2) as (tk3' & H3 & C3 & S3). simplify_eq.
      split; [congruence | by eapply same_or_cancelled_trans].
    + apply (N2 u); [lia | done].
Qed.

Lemma grows_spawn ok c ts : ok c = true -> grows ok ts (spawn c ts).
Proof.
  intros Hc. unfold spawn. split_and!.
  - rewrite length_app. lia.
  - intros u tk Hu. exists tk. split_and!; [|done|by left].
    rewrite lookup_app_l; [done|]. by eapply lookup_lt_Some.
  - intros u tk' Hu Hl. rewrite lookup_app_r in Hl by done.
    destruct (u - length ts) as [|?]; simplify_eq/=. split; [done | by left].
Qed.

Lemma grows_spawn_all ok cs ts :
  Forall (fun c => ok c = true) cs -> grows ok ts (foldl (fun ts c => spawn c ts) ts cs).
Proof.
  intros Hcs. revert ts. induction Hcs as [|c cs Hc _ IH]; intros ts; simpl.
  - apply grows_refl.
  - eapply grows_trans; [by apply grows_spawn | apply IH].
Qed.

Lemma grows_set_state ok t ts tk st :
  ts !! t = Some tk -> same_or_cancelled (state tk) st -> grows ok ts (set_state t st ts).
Proof.
  intros Ht Hst. split_and!.
  - by rewrite length_set_state.
  - intros u tku Hu. destruct (decide (t = u)) as [<-|Hne].
    + simplify_eq. eexists. split; [by apply lookup_set_state_eq | done].
    + exists tku. rewrite lookup_set_state_ne by done. split_and!; [done | done | by left].
  - intros u tk' Hu Hl. apply lookup_lt_Some in Hl. rewrite length_set_state in Hl. lia.
Qed.

Lemma grows_cancel_task ok d t ts : grows ok ts (cancel_task d t ts).
Proof.
  revert t ts. induction d as [|d IH]; intros t ts; simpl.
  - destruct (ts !! t) as [tk|] eqn:Ht; [|apply grows_refl].
    eapply grows_set_state; [done | by right].
  - destruct (ts !! t) as [tk|] eqn:Ht; [|apply grows_refl].
    eapply grows_trans; [eapply grows_set_state; [done | by right]|].
    generalize (set_state t (cancelled (state tk)) ts). intros ts0.
    induction (children_of (state tk)) as [|c cs IHcs]; simpl; [apply grows_refl|].
    eapply grows_trans; [apply IHcs | apply IH].
Qed.

Lemma length_cancel_task d t ts : length (cancel_task d t ts) = length ts.
Proof.
  revert t ts. induction d as [|d IH]; intros t ts; simpl.
  - destruct (ts !! t); [by rewrite length_set_state | done].
  - destruct (ts !! t) as [tk|]; [|done].
    rewrite <- (length_set_state t (cancelled (state tk)) ts).
    generalize (set_state t (cancelled (state tk)) ts). intros ts0.
    induction (children_of (state tk)) as [|c cs IHcs]; simpl; [done|].
    by rewrite IH.
Qed.

Lemma exec_grows ok me c l :
  tame ok c ->
  grows ok (tasks l) (tasks (exec me c l).1) /\ tame_state ok (exec me c l).2.
Proof.
  intros Hc. revert l. induction Hc as [| | |e k He Hk IH|k Hk IH|X a k h Ha Hk IHk Hh IHh];
    intros l; simpl.
  - split; [apply grows_refl | done].
  - split; [apply grows_refl | done].
  - split; [apply grows_refl | done].
  - destruct (IH (perform me e l)) as [Hg Hs]. split; [|done].
    eapply grows_trans; [|exact Hg].
    destruct e; simpl; try apply grows_refl.
    + apply grows_spawn. by apply He.
    + apply grows_cancel_task.
  - apply IH.
  - destruct a; simpl; try (split; [apply grows_refl | by split]).
    by split; [apply grows_spawn_all|].
Qed.

(** ** One step of a task, seen from the other tasks *)

Lemma state_of_lookup ts t tk : ts !! t = Some tk -> state_of ts t = Some (state tk).
Proof. unfold state_of. by intros ->. Qed.

Lemma exec_not_fresh me c l : (exec me c l).2 <> Fresh.
Proof.
  revert l. induction c as [| | e k IH | k IH | X a k IHk h IHh |]; intros l; simpl; try done.
  by destruct a.
Qed.

Lemma cancelled_not_fresh st : cancelled st <> Fresh.
Proof. by destruct st. Qed.

Lemma same_or_cancelled_not_fresh st st' :
  st <> Fresh -> same_or_cancelled st st' -> st' <> Fresh.
Proof. intros H [->| ->]; [done | apply cancelled_not_fresh]. Qed.

Lemma tame_state_same_or_cancelled ok st st' :
  tame_state ok st -> same_or_cancelled st st' -> tame_state ok st'.
Proof. intros H [->| ->]; [done | by apply tame_state_cancelled]. Qed.

Lemma settle_spec ok t st ts tk :
  ts !! t = Some tk -> (exists b, state tk = Running b) ->
  tame_state ok st -> st <> Fresh ->
  length (settle t st ts) = length ts /\
  (forall u tku, u <> t -> ts !! u = Some tku ->
     exists tku1, settle t st ts !! u = Some tku1 /\ coroutine tku1 = coroutine tku /\
       same_or_cancelled (state tku) (state tku1)) /\
  (exists tk1, settle t st ts !! t = Some tk1 /\ coroutine tk1 = coroutine tk /\
     tame_state ok (state tk1) /\ state tk1 <> Fresh).
Proof.
  intros Ht [b Hb] Hst Hfresh. unfold settle.
  rewrite (state_of_lookup _ _ _ Ht), Hb.
  assert (Hplain : forall st0, tame_state ok st0 -> st0 <> Fresh ->
    length (set_state t st0 ts) = length ts /\
    (forall u tku, u <> t -> ts !! u = Some tku ->
       exists tku1, set_state t st0 ts !! u = Some tku1 /\ coroutine tku1 = coroutine tku /\
         same_or_cancelled (state tku) (state tku1)) /\
    (exists tk1, set_state t st0 ts !! t = Some tk1 /\ coroutine tk1 = coroutine tk /\
       tame_state ok (state tk1) /\ state tk1 <> Fresh)).
  { intros st0 H0 Hf0. split_and!.
    - apply length_set_state.
    - intros u tku Hu Hl. exists tku. rewrite lookup_set_state_ne by done.
      split_and!; [done | done | by left].
    - eexists. split; [by apply lookup_set_state_eq | done]. }
  destruct b; [|by apply Hplain].
  assert (Hcancel :
    length (cancel_task (length ts) t (set_state t st ts)) = length ts /\
    (forall u tku, u <> t -> ts !! u = Some tku ->
       exists tku1, cancel_task (length ts) t (set_state t st ts) !! u = Some tku1 /\
         coroutine tku1 = coroutine tku /\ same_or_cancelled (state tku) (state tku1)) /\
    (exists tk1, cancel_task (length ts) t (set_state t st ts) !! t = Some tk1 /\
       coroutine tk1 = coroutine tk /\ tame_state ok (state tk1) /\ state tk1 <> Fresh)).
  { destruct (grows_cancel_task ok (length ts) t (set_state t st ts)) as (_ & O & _).
    split_and!.
    - by rewrite length_cancel_task, length_set_state.
    - intros u tku Hu Hl. apply O. by rewrite lookup_set_state_ne.
    - destruct (O t _ (lookup_set_state_eq _ _ _ _ Ht)) as (tk1 & H1 & C1 & S1).
      exists tk1. simpl in C1, S1. split_and!; [done | done | |].
      + by eapply tame_state_same_or_cancelled.
      + by eapply same_or_cancelled_not_fresh. }
  destruct st as [| | | | | | |[e|]|]; try done. by apply Hplain.
Qed.

Lemma no_failure_all_done ts cs :
  first_failure ts cs = None -> all_done ts cs = true ->
  forall c, c ∈ cs -> result_of ts c = Some None.
Proof.
  induction cs as [|c0 cs IH]; simpl; intros Hf Ha c Hc; [by apply elem_of_nil in Hc|].
  destruct (result_of ts c0) as [[e|]|] eqn:Hr; try done.
  apply elem_of_cons in Hc as [->|Hc]; [done | by apply IH].
Qed.

Lemma wake_spec ts tk :
  coroutine (wake ts tk) = coroutine tk /\ woken ts (state tk) (state (wake ts tk)).
Proof.
  unfold wake. destruct (state tk) as [| |re cs k h| | | | | |re cs h] eqn:Hst;
    try (split; [done | left; congruence]).
  - destruct (if re then None else first_failure ts cs) as [e|] eqn:Hf.
    + split; [done|]. right. left. exists re, cs, k, h. split; [done|]. left. exists e.
      destruct re; [done|]. done.
    + destruct (all_done ts cs) eqn:Ha.
      * split; [done|]. right. left. exists re, cs, k, h. split; [done|]. right.
        split; [done|]. intros ->. by apply no_failure_all_done.
      * split; [done | left; congruence].
  - destruct (if re then None else first_failure ts cs) as [e|] eqn:Hf.
    + split; [done|]. right. right. by exists re, cs, h, e.
    + destruct (all_done ts cs) eqn:Ha.
      * split; [done|]. right. right. by exists re, cs, h, CancelledError.
      * split; [done | left; congruence].
Qed.

Lemma result_of_wake_all ts c : result_of (wake_all ts) c = result_of ts c.
Proof.
  unfold result_of, state_of. rewrite lookup_wake_all.
  destruct (ts !! c) as [tk|]; simpl; [|done].
  destruct (wake_spec ts tk)
    as [_ [->|[(re & cs & k & h & -> & [(e & -> & _)| [-> _]])|(re & cs & h & e & -> & ->)]]];
    done.
Qed.

Lemma tame_state_woken ok ts st st' : tame_state ok st -> woken ts st st' -> tame_state ok st'.
Proof.
  intros H [->|[(re & cs & k & h & -> & [(e & -> & _)| [-> _]])|(re & cs & h & e & -> & ->)]];
    simpl in *; [done | | done | done].
  by destruct H.
Qed.

Lemma woken_not_fresh ts st st' : st <> Fresh -> woken ts st st' -> st' <> Fresh.
Proof.
  by intros H [->|[(re & cs & k & h & -> & [(e & -> & _)| [-> _]])|(re & cs & h & e & -> & ->)]].
Qed.

Lemma run_task_spec ok self fuel w l t tk c :
  tasks l !! t = Some tk -> next_code self fuel tk = Some c -> tame ok c ->
  let ts' := tasks (step self fuel w (run_task t) l) in
  length (tasks l) <= length ts' /\
  (forall u tku, u <> t -> tasks l !! u = Some tku ->
     exists tku', ts' !! u = Some tku' /\ coroutine tku' = coroutine tku /\
       after_step ts' (state tku) (state tku')) /\
  (exists tk', ts' !! t = Some tk' /\ coroutine tk' = coroutine tk /\
     tame_state ok (state tk') /\ state tk' <> Fresh) /\
  (forall u tku', length (tasks l) <= u -> ts' !! u = Some tku' ->
     ok (coroutine tku') = true /\ same_or_cancelled Fresh (state tku')).
Proof.
  intros Ht Hc Htame ts'. subst ts'. erewrite step_run_task by eauto. simpl tasks.
  set (l0 := with_tasks (set_state t (Running false) (tasks l)) l).
  destruct (exec_grows ok t c l0 Htame) as [(L & O & N) Hst].
  pose proof (exec_not_fresh t c l0) as Hnf.
  generalize dependent (exec t c l0). intros [l' st]. simpl. intros L O N Hst Hnf.
  simpl in L, O, N. rewrite length_set_state in L, N.
  destruct (O t _ (lookup_set_state_eq _ _ _ _ Ht)) as (tkr & Htr & Ctr & Str).
  simpl in Ctr, Str.
  assert (Hrun : exists b, state tkr = Running b).
  { destruct Str as [->| ->]; eauto. }
  destruct (settle_spec ok t st (tasks l') tkr Htr Hrun Hst Hnf) as (L1 & O1 & (tk1 & Ht1 & C1 & S1 & F1)).
  set (ts1 := settle t st (tasks l')) in *.
  assert (Hres : forall c0, result_of (wake_all ts1) c0 = result_of ts1 c0)
    by apply result_of_wake_all.
  assert (Hwoken : forall st0 st0', woken ts1 st0 st0' -> woken (wake_all ts1) st0 st0').
  { intros st0 st0'
      [->|[(re & cs & k & h & -> & [(e & -> & ? & Hf)| [-> Hall]])|(re & cs & h & e & -> & ->)]];
      [by left | | |].
    - right. left. exists re, cs, k, h. split; [done|]. left. exists e.
      split_and!; [done | done |].
      clear -Hf Hres. induction cs as [|c0 cs IH]; simpl in *; [done|].
      rewrite Hres. destruct (result_of ts1 c0) as [[?|]|]; eauto.
    - right. left. exists re, cs, k, h. split; [done|]. right. split; [done|].
      intros Hre c0 Hc0. rewrite Hres. by apply Hall.
    - right. right. by exists re, cs, h, e. }
  split_and!.
  - rewrite length_wake_all, L1. lia.
  - intros u tku Hu Hl.
    destruct (O u tku) as (tku0 & H0 & C0 & S0); [by rewrite lookup_set_state_ne|].
    destruct (O1 u tku0 Hu H0) as (tku1 & H1 & C1' & S1').
    exists (wake ts1 tku1). rewrite lookup_wake_all, H1.
    destruct (wake_spec ts1 tku1) as [Cw Sw].
    split_and!; [done | congruence |].
    exists (state tku1). split; [by eapply same_or_cancelled_trans | by apply Hwoken].
  - exists (wake ts1 tk1). rewrite lookup_wake_all, Ht1.
    destruct (wake_spec ts1 tk1) as [Cw Sw].
    split_and!; [done | congruence | by eapply tame_state_woken | by eapply woken_not_fresh].
  - intros u tku' Hu Hl. rewrite lookup_wake_all in Hl.
    destruct (ts1 !! u) as [tku1|] eqn:H1; [|done]. simpl in Hl. simplify_eq.
    assert (Hne : u <> t) by (apply lookup_lt_Some in Ht; lia).
    assert (Hlt : u < length (tasks l')) by (rewrite <- L1; by eapply lookup_lt_Some).
    destruct (lookup_lt_is_Some_2 _ _ Hlt) as [tku0 H0].
    destruct (N u tku0 Hu H0) as [Hok S0].
    destruct (O1 u tku0 Hne H0) as (tku1' & H1' & C1' & S1'). simplify_eq.
    assert (Hs : same_or_cancelled Fresh (state tku1)) by (by eapply same_or_cancelled_trans).
    rewrite wake_other; [split; [congruence | done]|].
    by destruct Hs as [->| ->].
Qed.

(** ** The invariant of the start-up *)

Lemma tame_state_after_step ok ts st st' :
  tame_state ok st -> after_step ts st st' -> tame_state ok st'.
Proof.
  intros H (st1 & H1 & H2). eapply tame_state_woken; [|done].
  by eapply tame_state_same_or_cancelled.
Qed.

Lemma after_step_not_fresh ts st st' : st <> Fresh -> after_step ts st st' -> st' <> Fresh.
Proof.
  intros H (st1 & H1 & H2). eapply woken_not_fresh; [|done].
  by eapply same_or_cancelled_not_fresh.
Qed.

Lemma after_step_done ts r st' : after_step ts (Done r) st' -> st' = Done r.
Proof.
  intros (st1 & [->| ->] & [->|[(re & cs & k & h & ? & _)|(re & cs & h & e & ? & _)]]); done.
Qed.

Lemma invariant_run self : invariant self (tasks (startup_scheduled self)).
Proof.
  exists Fresh. split_and!; [done | |].
  - intros [|t] tk Ht Hne; [done|]. by destruct t.
  - left. split_and!; [done | |]; intros [|[|t]] tk Ht; by simplify_eq/=.
Qed.

(** A task is added that is neither a setup nor a hook nor [startup]. *)
Lemma invariant_spawn self c ts :
  ok_other c = true -> invariant self ts -> invariant self (spawn c ts).
Proof.
  intros Hc (st0 & H0 & Hothers & Hphase).
  assert (Hold : forall t tk, ts !! t = Some tk -> spawn c ts !! t = Some tk).
  { intros t tk Ht. unfold spawn. rewrite lookup_app_l; [done|]. by eapply lookup_lt_Some. }
  assert (Hcases : forall t tk, spawn c ts !! t = Some tk ->
            ts !! t = Some tk \/ tk = {| coroutine := c; state := Fresh |}).
  { intros t tk Ht. unfold spawn in Ht. apply lookup_app_Some in Ht as [Ht|[_ Ht]]; [by left|].
    right. destruct (t - length ts) as [|?]; by simplify_eq/=. }
  assert (Hns : no_setups ts -> no_setups (spawn c ts)).
  { intros H t tk Ht. destruct (Hcases t tk Ht) as [?| ->]; [eauto | by destruct c]. }
  assert (Hnh : no_hooks ts -> no_hooks (spawn c ts)).
  { intros H t tk Ht. destruct (Hcases t tk Ht) as [?| ->]; [eauto | by destruct c]. }
  assert (Hsa : forall b P, setups_at self b ts P -> setups_at self b (spawn c ts) P).
  { intros b P [H1 H2]. split.
    - intros i s Hi. destruct (H1 i s Hi) as (tk & ? & ? & ?). eauto.
    - intros t tk Ht Hs. destruct (Hcases t tk Ht) as [?| ->]; [eauto | by destruct c]. }
  exists st0. split_and!; [by apply Hold | |].
  - intros t tk Ht Hne. destruct (Hcases t tk Ht) as [?| ->]; [eauto|].
    split; [by destruct c | done].
  - destruct Hphase as [(-> & ? & ?)|[(b & -> & ? & ? & ?)|[(? & ? & ?)|(? & ? & b & ?)]]].
    + left. split_and!; eauto.
    + right. left. exists b. split_and!; eauto.
    + right. right. left. split_and!; eauto.
    + right. right. right. split_and!; eauto.
Qed.

(** ** What a step preserves *)

Lemma run_task_stepped ok self fuel w l t tk c :
  tasks l !! t = Some tk -> next_code self fuel tk = Some c -> tame ok c ->
  stepped ok t (tasks l) (tasks (step self fuel w (run_task t) l)).
Proof.
  intros Ht Hc Htame. exists tk. split; [done|]. split.
  - unfold next_code in Hc. by destruct (state tk).
  - by eapply run_task_spec.
Qed.

Section stepped.

Context (ok : call -> bool) (t : nat) (ts ts' : list task).

Context (Hstep : stepped ok t ts ts').

Lemma stepped_old u tku :
  ts !! u = Some tku -> exists tku', ts' !! u = Some tku' /\ coroutine tku' = coroutine tku.
Proof.
  destruct Hstep as (tk & Ht & Hd & L & O & (tk' & Ht' & C' & _) & N). intros Hu.
  destruct (decide (u = t)) as [->|Hne].
  - simplify_eq. eauto.
  - destruct (O u tku Hne Hu) as (tku' & ? & ? & _). eauto.
Qed.

Lemma stepped_origin u tku' :
  ts' !! u = Some tku' ->
  (exists tku, ts !! u = Some tku /\ coroutine tku' = coroutine tku) \/
  (length ts <= u /\ ok (coroutine tku') = true /\ same_or_cancelled Fresh (state tku')).
Proof.
  intros Hu. destruct (decide (u < length ts)) as [Hlt|Hge].
  - left. destruct (lookup_lt_is_Some_2 _ _ Hlt) as [tku Htku]. exists tku. split; [done|].
    destruct (stepped_old u tku Htku) as (tku2 & ? & ?). by simplify_eq.
  - right. destruct Hstep as (tk & Ht & Hd & L & O & _ & N).
    split; [lia|]. apply (N u); [lia | done].
Qed.

Lemma stepped_no_hooks :
  (forall c, ok c = true -> is_startup_func c = false) -> no_hooks ts -> no_hooks ts'.
Proof.
  intros Hok Hn u tku' Hu.
  destruct (stepped_origin u tku' Hu) as [(tku & ? & ->)|(_ & ? & _)]; eauto.
Qed.

Lemma stepped_no_setups :
  (forall c, ok c = true -> is_setup c = false) -> no_setups ts -> no_setups ts'.
Proof.
  intros Hok Hn u tku' Hu.
  destruct (stepped_origin u tku' Hu) as [(tku & ? & ->)|(_ & ? & _)]; eauto.
Qed.

Lemma stepped_setups_at self b :
  (forall c, ok c = true -> is_setup c = false) ->
  setups_at self b ts (fun _ => True) -> setups_at self b ts' (fun _ => True).
Proof.
  intros Hok [H1 H2]. split.
  - intros i s Hi. destruct (H1 i s Hi) as (tk & Htk & C & _).
    destruct (stepped_old _ _ Htk) as (tk' & ? & ?). exists tk'.
    split_and!; [done | congruence | done].
  - intros u tku' Hu Hs.
    destruct (stepped_origin u tku' Hu) as [(tku & ? & E)|(_ & Hk & _)].
    + rewrite E in Hs. eauto.
    + apply Hok in Hk. congruence.
Qed.

Lemma stepped_setups_done self b :
  (forall c, ok c = true -> is_setup c = false) ->
  setups_at self b ts (fun st => st = Done None) ->
  setups_at self b ts' (fun st => st = Done None).
Proof.
  intros Hok [H1 H2]. split.
  - intros i s Hi. destruct (H1 i s Hi) as (tk & Htk & C & D).
    destruct Hstep as (tkt & Ht & Hd & L & O & _ & N).
    assert (Hne : b + i <> t).
    { intros E. rewrite E in Htk. simplify_eq. by rewrite D in Hd. }
    destruct (O _ _ Hne Htk) as (tk' & ? & ? & Hafter). exists tk'.
    rewrite D in Hafter. apply after_step_done in Hafter.
    split_and!; [done | congruence | done].
  - intros u tku' Hu Hs.
    destruct (stepped_origin u tku' Hu) as [(tku & ? & E)|(_ & Hk & _)].
    + rewrite E in Hs. eauto.
    + apply Hok in Hk. congruence.
Qed.

(** The tasks other than [startup] stay tame. *)
Lemma stepped_others :
  (forall c, ok c = true -> is_startup c = false) ->
  (t <> 0 -> forall st, tame_state ok st -> tame_state ok_other st) ->
  (forall u tku, ts !! u = Some tku -> u <> 0 ->
     is_startup (coroutine tku) = false /\ tame_state ok_other (state tku)) ->
  forall u tku', ts' !! u = Some tku' -> u <> 0 ->
    is_startup (coroutine tku') = false /\ tame_state ok_other (state tku').
Proof.
  intros Hok Hweak Hothers u tku' Hu Hne.
  destruct Hstep as (tk & Ht & Hd & L & O & (tk' & Ht' & C' & S' & _) & N).
  destruct (decide (u < length ts)) as [Hlt|Hge].
  - destruct (lookup_lt_is_Some_2 _ _ Hlt) as [tku Htku].
    destruct (Hothers u tku Htku Hne) as [Hs Hst].
    destruct (decide (u = t)) as [->|Hut].
    + simplify_eq. split; [congruence | by apply Hweak].
    + destruct (O u tku Hut Htku) as (tku2 & ? & E & Hafter). simplify_eq.
      split; [congruence | by eapply tame_state_after_step].
  - destruct (N u tku') as [Hk Hs]; [lia | done |].
    split; [by apply Hok|]. destruct Hs as [->| ->]; simpl; [done|]. intros e. constructor.
Qed.

End stepped.

(** ** Steps of tasks other than [startup] *)

Lemma tame_abort_startup_hooks e : tame ok_hooks (abort_startup e).
Proof. eapply tame_weaken; [apply ok_other_hooks | apply tame_abort_startup]. Qed.

Lemma step_idle self fuel w l t :
  (forall tk, tasks l !! t = Some tk -> next_code self fuel tk = None) ->
  tasks (step self fuel w (run_task t) l) = tasks l.
Proof.
  intros H. unfold step. destruct (tasks l !! t) as [tk|] eqn:Ht; [|done].
  by rewrite (H tk eq_refl).
Qed.

(** A step of a task other than [startup]. *)
Lemma invariant_run_other self fuel w l t :
  t <> 0 -> invariant self (tasks l) ->
  invariant self (tasks (step self fuel w (run_task t) l)).
Proof.
  intros Hne Hinv.
  destruct (tasks l !! t) as [tk|] eqn:Ht;
    [|rewrite step_idle; [done | intros tk; congruence]].
  destruct (next_code self fuel tk) as [c|] eqn:Hc;
    [|rewrite step_idle; [done | intros tk' ?; congruence]].
  destruct Hinv as (st0 & H0 & Hothers & Hphase).
  destruct (Hothers t tk Ht Hne) as [Hns Hts].
  assert (Htame : tame ok_other c).
  { unfold next_code in Hc. destruct (state tk); simplify_eq/=.
    - by apply tame_body.
    - by destruct Hts.
    - apply Hts. }
  pose proof (run_task_stepped ok_other self fuel w l t tk c Ht Hc Htame) as Hstep.
  set (ts := tasks l) in *. set (ts' := tasks (step self fuel w (run_task t) l)) in *.
  clearbody ts ts'.
  assert (Hok_h : forall c, ok_other c = true -> is_startup_func c = false) by (by intros []).
  assert (Hok_s : forall c, ok_other c = true -> is_setup c = false) by (by intros []).
  assert (Hok_0 : forall c, ok_other c = true -> is_startup c = false) by (by intros []).
  pose proof Hstep as (_ & _ & _ & _ & O & _ & _).
  destruct (O 0 _ (not_eq_sym Hne) H0) as ([c0 st0'] & H0' & C0 & Hafter). simpl in C0, Hafter.
  subst c0. exists st0'. split; [done|]. split.
  { eapply stepped_others; eauto. }
  destruct Hphase as [(-> & Hs & Hh)|[(b & -> & Hreq & Hs & Hh)|[(Hf & Ht0 & Hh)|(Hf & Ht0 & b & Hs)]]].
  - destruct Hafter
      as (st1 & [->| ->] & [->|[(re & cs & k & h & ? & _)|(re & cs & h & e & ? & _)]]);
      try done.
    + left. split_and!; [done | by eapply stepped_no_setups | by eapply stepped_no_hooks].
    + right. right. left. split_and!; [done | | by eapply stepped_no_hooks].
      simpl. intros e. constructor.
  - assert (Hs' := stepped_setups_at _ _ _ _ Hstep self b Hok_s Hs).
    assert (Hh' := stepped_no_hooks _ _ _ _ Hstep Hok_h Hh).
    destruct Hafter as (st1 & [->| ->] & Hw); simpl in Hw.
    + destruct Hw
        as [->|[(re & cs & k & h & E & [(e & -> & _)|[-> Hall]])|(re & cs & h & e & E & _)]];
        [| | |done].
      * right. left. exists b. by split_and!.
      * simplify_eq. right. right. left. split_and!; [done | | done].
        simpl. intros e'. apply tame_abort_startup.
      * simplify_eq. right. right. right. split_and!; [done | |].
        { simpl. split; [apply tame_run_startup_funcs | apply tame_abort_startup_hooks]. }
        exists b. destruct Hs' as [H1 H2]. split; [|done].
        intros i s Hi. destruct (H1 i s Hi) as (tki & Hi' & Ci & _).
        exists tki. split_and!; [done | done |].
        assert (Hin : b + i ∈ List.seq b (length (requests self))).
        { apply elem_of_seq. apply lookup_lt_Some in Hi. lia. }
        specialize (Hall eq_refl _ Hin). unfold result_of in Hall.
        rewrite (state_of_lookup _ _ _ Hi') in Hall.
        destruct (state tki) as [| | | | | | |[?|]|]; by simplify_eq.
    + destruct Hw as [->|[(re & cs & k & h & ? & _)|(re & cs & h & e & E & ->)]]; [|done|].
      * right. right. left. split_and!; [done | | done].
        simpl. intros e'. apply tame_abort_startup.
      * simplify_eq. right. right. left. split_and!; [done | | done].
        simpl. intros e'. apply tame_abort_startup.
  - right. right. left. split_and!.
    + exact (after_step_not_fresh _ _ _ Hf Hafter).
    + exact (tame_state_after_step _ _ _ _ Ht0 Hafter).
    + by eapply stepped_no_hooks.
  - right. right. right. split_and!.
    + exact (after_step_not_fresh _ _ _ Hf Hafter).
    + exact (tame_state_after_step _ _ _ _ Ht0 Hafter).
    + exists b. by eapply stepped_setups_done.
Qed.

(** ** Steps of [startup] *)

(** A step of [startup] past its first one. *)
Lemma invariant_run_startup_later self fuel w l st0 c :
  tasks l !! 0 = Some {| coroutine := call_startup; state := st0 |} ->
  st0 <> Fresh -> next_code self fuel {| coroutine := call_startup; state := st0 |} = Some c ->
  invariant self (tasks l) ->
  invariant self (tasks (step self fuel w (run_task 0) l)).
Proof.
  intros H0 Hf Hc (st0' & H0' & Hothers & Hphase). simplify_eq.
  assert (Hcode : forall ok, tame_state ok st0 -> tame ok c).
  { intros ok Hst. unfold next_code in Hc. destruct st0; simplify_eq/=; [by destruct Hst | apply Hst]. }
  assert (Hgo : forall ok, tame_state ok st0 ->
            (forall c, ok c = true -> is_startup c = false) ->
            stepped ok 0 (tasks l) (tasks (step self fuel w (run_task 0) l)) /\
            exists st1, tasks (step self fuel w (run_task 0) l) !! 0 =
                          Some {| coroutine := call_startup; state := st1 |} /\
              tame_state ok st1 /\ st1 <> Fresh).
  { intros ok Hst Hok.
    pose proof (run_task_stepped ok self fuel w l 0 _ c H0 Hc (Hcode ok Hst)) as Hstep.
    split; [done|]. destruct Hstep as (tk & Ht & _ & _ & _ & ([c1 st1] & H1 & C1 & S1 & F1) & _).
    simplify_eq/=. eauto. }
  destruct Hphase as [(-> & _)|[(b & -> & _)|[(_ & Ht0 & Hh)|(_ & Ht0 & b & Hs)]]]; try done.
  - destruct (Hgo ok_other Ht0) as (Hstep & st1 & H1 & S1 & F1); [by intros []|].
    exists st1. split; [done|]. split.
    { apply (stepped_others _ _ _ _ Hstep); [by intros [] | done | done]. }
    right. right. left. split_and!; [done | done |].
    eapply stepped_no_hooks; eauto. by intros [].
  - destruct (Hgo ok_hooks Ht0) as (Hstep & st1 & H1 & S1 & F1); [by intros []|].
    exists st1. split; [done|]. split.
    { apply (stepped_others _ _ _ _ Hstep); [by intros [] | done | done]. }
    right. right. right. split_and!; [done | done |].
    exists b. eapply stepped_setups_done; eauto. by intros [].
Qed.

Lemma foldl_spawn cs ts :
  foldl (fun ts c => spawn c ts) ts cs =
  ts ++ ((fun c => {| coroutine := c; state := Fresh |}) <$> cs).
Proof.
  revert ts. induction cs as [|c cs IH]; intros ts; simpl; [by rewrite app_nil_r|].
  rewrite IH. unfold spawn. by rewrite <- app_assoc.
Qed.

(** The first step of [startup], with no request registered: it goes on
    to the hooks at once. *)
Lemma invariant_run_startup_empty self fuel w l :
  tasks l !! 0 = Some {| coroutine := call_startup; state := Fresh |} ->
  requests self = [] -> invariant self (tasks l) ->
  invariant self (tasks (step self fuel w (run_task 0) l)).
Proof.
  intros H0 Hreq (st0' & H0' & Hothers & Hphase). simplify_eq.
  assert (Hc : next_code self fuel {| coroutine := call_startup; state := Fresh |} =
               Some (run_startup_funcs self)).
  { simpl. unfold next_code. simpl. unfold startup. by rewrite Hreq. }
  pose proof (run_task_stepped ok_hooks self fuel w l 0 _ _ H0 Hc (tame_run_startup_funcs self))
    as Hstep.
  pose proof Hstep as (tk & Ht & _ & _ & _ & ([c1 st1] & H1 & C1 & S1 & F1) & _).
  simplify_eq/=. exists st1. split; [done|]. split.
  { apply (stepped_others _ _ _ _ Hstep); [by intros [] | done | done]. }
  right. right. right. split_and!; [done | done |]. exists 0. split.
  - intros i s Hi. by rewrite Hreq in Hi.
  - intros t tk Ht Hs. exfalso.
    destruct Hphase as [(_ & Hns & _)|[(b & ? & _)|[(? & _)|(? & _)]]]; try done.
    assert (Hns' : no_setups (tasks (step self fuel w (run_task 0) l))).
    { eapply stepped_no_setups; eauto. by intros []. }
    rewrite (Hns' t tk Ht) in Hs. done.
Qed.

(** ** Every step preserves the invariant *)

Lemma children_not_done ts cs :
  (forall c, c ∈ cs -> result_of ts c = None) ->
  first_failure ts cs = None /\ (cs <> [] -> all_done ts cs = false).
Proof.
  intros H. split.
  - induction cs as [|c cs IH]; simpl; [done|].
    rewrite (H c) by (by left). apply IH. intros c' Hc'. apply H. by right.
  - destruct cs as [|c cs]; [done|]. intros _. simpl. by rewrite (H c) by (by left).
Qed.

(** The first step of [startup], with requests registered: it creates one
    setup task for each and suspends on their [gather]. *)
Lemma invariant_run_startup_first self fuel w l :
  tasks l !! 0 = Some {| coroutine := call_startup; state := Fresh |} ->
  requests self <> [] -> invariant self (tasks l) ->
  invariant self (tasks (step self fuel w (run_task 0) l)).
Proof.
  intros H0 Hreq (st0' & H0' & Hothers & Hphase). simplify_eq.
  destruct Hphase as [(_ & Hns & Hnh)|[(b & ? & _)|[(? & _)|(? & _)]]]; try done.
  set (ts := tasks l) in *.
  set (cs := setup_call <$> requests self).
  set (mk := fun c => {| coroutine := c; state := Fresh |}).
  set (b := length ts).
  set (J := Joining false (List.seq b (length (requests self)))
              (run_startup_funcs self) abort_startup).
  set (ts1 := set_state 0 J (set_state 0 (Running false) ts ++ (mk <$> cs))).
  assert (Hb : 0 < b) by (by eapply lookup_lt_Some).
  assert (Hstep : tasks (step self fuel w (run_task 0) l) = wake_all ts1).
  { erewrite step_run_task; [|exact H0|reflexivity]. simpl coroutine. simpl body.
    assert (Hs : startup self = Await (gather cs) (fun _ => run_startup_funcs self) abort_startup).
    { unfold startup. fold cs. unfold await_gather.
      destruct cs eqn:E; [|done]. apply fmap_nil_inv in E. done. }
    rewrite Hs. simpl. rewrite foldl_spawn, length_set_state.
    fold ts b mk. rewrite settle_running.
    - unfold cs. by rewrite length_fmap.
    - unfold state_of. rewrite lookup_app_l by (by rewrite length_set_state).
      by rewrite (lookup_set_state_eq _ _ _ _ H0). }
  rewrite Hstep. clear Hstep.
  assert (L1 : length ts1 = b + length (requests self)).
  { unfold ts1. rewrite length_set_state, length_app, length_set_state, length_fmap.
    unfold cs. by rewrite length_fmap. }
  assert (F0 : ts1 !! 0 = Some {| coroutine := call_startup; state := J |}).
  { assert (Hl0 : (set_state 0 (Running false) ts ++ (mk <$> cs)) !! 0 =
                  Some {| coroutine := call_startup; state := Running false |}).
    { rewrite lookup_app_l by (rewrite length_set_state; fold b; lia).
      by rewrite (lookup_set_state_eq _ _ _ _ H0). }
    unfold ts1. by rewrite (lookup_set_state_eq _ _ _ _ Hl0). }
  assert (Fold : forall u, u <> 0 -> u < b -> ts1 !! u = ts !! u).
  { intros u Hu Hlt. unfold ts1. rewrite lookup_set_state_ne by done.
    rewrite lookup_app_l by (rewrite length_set_state; fold b; lia).
    by rewrite lookup_set_state_ne. }
  assert (Fnew : forall u, b <= u -> ts1 !! u = (mk <$> cs) !! (u - b)).
  { intros u Hu. unfold ts1. rewrite lookup_set_state_ne by lia.
    rewrite lookup_app_r by (rewrite length_set_state; fold b; lia).
    by rewrite length_set_state. }
  assert (Fsetup : forall i s, requests self !! i = Some s ->
            ts1 !! (b + i) = Some (mk (setup_call s))).
  { intros i s Hi. rewrite Fnew by lia. replace (b + i - b) with i by lia.
    unfold cs. by rewrite !list_lookup_fmap, Hi. }
  assert (Fnew' : forall u tk, b <= u -> ts1 !! u = Some tk ->
            exists s, requests self !! (u - b) = Some s /\ tk = mk (setup_call s)).
  { intros u tk Hu Hl. rewrite Fnew in Hl by done. unfold cs in Hl.
    rewrite !list_lookup_fmap in Hl.
    destruct (requests self !! (u - b)) as [s|]; simplify_eq/=. eauto. }
  assert (Hchildren : forall c, c ∈ List.seq b (length (requests self)) -> result_of ts1 c = None).
  { intros c Hc. apply elem_of_seq in Hc as [Hc1 Hc2].
    destruct (lookup_lt_is_Some_2 (requests self) (c - b)) as [s Hs]; [lia|].
    pose proof (Fsetup _ _ Hs) as Hl. replace (b + (c - b)) with c in Hl by lia.
    unfold result_of, state_of. by rewrite Hl. }
  destruct (children_not_done _ _ Hchildren) as [Hff Had].
  assert (W0 : wake ts1 {| coroutine := call_startup; state := J |} =
               {| coroutine := call_startup; state := J |}).
  { unfold wake. simpl. rewrite Hff, Had; [done|].
    destruct (requests self); [done|]. done. }
  assert (Wnew : forall s, wake ts1 (mk (setup_call s)) = mk (setup_call s)) by done.
  exists J. split_and!.
  - rewrite lookup_wake_all, F0. simpl. by rewrite W0.
  - intros u tk Hu Hne. rewrite lookup_wake_all in Hu.
    destruct (decide (u < b)) as [Hlt|Hge].
    + rewrite Fold in Hu by done. destruct (ts !! u) as [tk0|] eqn:Htk0; simplify_eq/=.
      destruct (Hothers u tk0 Htk0 Hne) as [Hs Ht].
      destruct (wake_spec ts1 tk0) as [-> Hw]. split; [done|].
      by eapply tame_state_woken.
    + destruct (ts1 !! u) as [tk1|] eqn:Htk1; simplify_eq/=.
      destruct (Fnew' u tk1) as (s & _ & ->); [lia | done |].
      rewrite Wnew. split; [|done]. simpl. unfold setup_call. by destruct (is_HTTPRequest _).
  - right. left. exists b. split_and!; [done | done | |].
    + split.
      * intros i s Hi. exists (mk (setup_call s)).
        by rewrite lookup_wake_all, (Fsetup _ _ Hi).
      * intros u tk Hu Hs. rewrite lookup_wake_all in Hu.
        assert (Hlen : u < b + length (requests self)).
        { rewrite <- L1. destruct (ts1 !! u) eqn:E; [by eapply lookup_lt_Some | done]. }
        split; [|done]. destruct (decide (u < b)) as [Hlt|Hge]; [exfalso | lia].
        destruct (decide (u = 0)) as [->|Hne].
        -- rewrite F0 in Hu. simplify_eq/=. by rewrite W0 in Hs.
        -- rewrite Fold in Hu by done. destruct (ts !! u) as [tk0|] eqn:Htk0; simplify_eq/=.
           destruct (wake_spec ts1 tk0) as [E _]. rewrite E in Hs.
           by rewrite (Hns u tk0 Htk0) in Hs.
    + intros u tk Hu. rewrite lookup_wake_all in Hu.
      destruct (decide (u < b)) as [Hlt|Hge].
      * destruct (decide (u = 0)) as [->|Hne].
        -- rewrite F0 in Hu. simplify_eq/=. by rewrite W0.
        -- rewrite Fold in Hu by done. destruct (ts !! u) as [tk0|] eqn:Htk0; simplify_eq/=.
           destruct (wake_spec ts1 tk0) as [-> _]. by apply (Hnh u).
      * destruct (ts1 !! u) as [tk1|] eqn:Htk1; simplify_eq/=.
        destruct (Fnew' u tk1) as (s & _ & ->); [lia | done |].
        rewrite Wnew. simpl. unfold setup_call. by destruct (is_HTTPRequest _).
Qed.

Lemma invariant_complete self fuel w l t :
  invariant self (tasks l) -> invariant self (tasks (step self fuel w (complete t) l)).
Proof.
  intros Hinv. unfold step.
  destruct (state_of (tasks l) t) as [[|X a k h| | | | | | |]|] eqn:Hst; try done.
  simpl tasks.
  set (st' := match answer w (now l) X a with
              | Returned x => Resume (k x) h
              | Thrown e => Throw e h
              end).
  assert (Hst' : st' <> Fresh /\ forall ok, tame_state ok (Waiting a k h) -> tame_state ok st').
  { unfold st'. destruct (answer w (now l) X a); split; try done.
    - intros ok [Hk Hh]. simpl. eauto.
    - by intros ok [Hk Hh]. }
  destruct Hst' as [Hf Htame]. clearbody st'.
  destruct (lookup_of_state _ _ _ Hst) as [c Ht].
  destruct Hinv as (st0 & H0 & Hothers & Hphase).
  set (ts := tasks l) in *. clearbody ts.
  assert (Hold : forall u tk', set_state t st' ts !! u = Some tk' ->
            exists tk, ts !! u = Some tk /\ coroutine tk' = coroutine tk /\
              (u <> t -> tk' = tk) /\ (u = t -> state tk' = st' /\ state tk = Waiting a k h)).
  { intros u tk' Hu. destruct (decide (t = u)) as [<-|Hne].
    - rewrite (lookup_set_state_eq _ _ _ _ Ht) in Hu. simplify_eq/=.
      eexists. split; [done|]. by split_and!.
    - rewrite lookup_set_state_ne in Hu by done. exists tk'. by split_and!. }
  assert (Hnh : no_hooks ts -> no_hooks (set_state t st' ts)).
  { intros H u tk' Hu. destruct (Hold u tk' Hu) as (tk & ? & -> & _). eauto. }
  assert (Hns : no_setups ts -> no_setups (set_state t st' ts)).
  { intros H u tk' Hu. destruct (Hold u tk' Hu) as (tk & ? & -> & _). eauto. }
  assert (Hsa : forall b (P : tstate -> Prop), (forall st, P st -> st <> Waiting a k h) ->
            setups_at self b ts P -> setups_at self b (set_state t st' ts) P).
  { intros b P HP [H1 H2]. split.
    - intros i s Hi. destruct (H1 i s Hi) as (tk & Htk & C & D).
      exists tk. split; [|done]. rewrite lookup_set_state_ne; [done|].
      intros E. rewrite <- E in Htk. simplify_eq. apply HP in D. by simpl in D.
    - intros u tk' Hu Hs. destruct (Hold u tk' Hu) as (tk & ? & E & _).
      rewrite E in Hs. eauto. }
  assert (Hsa' : forall b, setups_at self b ts (fun _ => True) ->
            setups_at self b (set_state t st' ts) (fun _ => True)).
  { intros b [H1 H2]. split.
    - intros i s Hi. destruct (H1 i s Hi) as (tk & Htk & C & _).
      destruct (decide (t = b + i)) as [E|Hne].
      + rewrite <- E in *. eexists. rewrite (lookup_set_state_eq _ _ _ _ Htk). by split_and!.
      + exists tk. by rewrite lookup_set_state_ne.
    - intros u tk' Hu Hs. destruct (Hold u tk' Hu) as (tk & ? & E & _).
      rewrite E in Hs. eauto. }
  destruct (decide (t = 0)) as [->|Hne].
  - simplify_eq. exists st'. split; [by rewrite (lookup_set_state_eq _ _ _ _ H0)|]. split.
    { intros u tk' Hu Hu0. destruct (Hold u tk' Hu) as (tk & ? & _ & -> & _); eauto. }
    destruct Hphase as [(? & _)|[(b & ? & _)|[(_ & Ht0 & Hh)|(_ & Ht0 & b & Hs)]]]; try done.
    + right. right. left. split_and!; eauto.
    + right. right. right. split_and!; eauto. exists b. apply Hsa; [|done]. by intros ? ->.
  - exists st0. split; [by rewrite lookup_set_state_ne|]. split.
    { intros u tk' Hu Hu0. destruct (Hold u tk' Hu) as (tk & Htk & E & E1 & E2).
      destruct (Hothers u tk Htk Hu0) as [? Hts]. split; [congruence|].
      destruct (decide (u = t)) as [->|Hut].
      - destruct (E2 eq_refl) as [-> Hw]. apply Htame. by rewrite <- Hw.
      - by rewrite (E1 Hut). }
    destruct Hphase as [(-> & ? & ?)|[(b & -> & ? & ? & ?)|[(? & ? & ?)|(? & ? & b & ?)]]].
    + left. split_and!; eauto.
    + right. left. exists b. split_and!; eauto.
    + right. right. left. split_and!; eauto.
    + right. right. right. split_and!; eauto. exists b. apply Hsa; [|done]. by intros ? ->.
Qed.

Lemma invariant_step self fuel w o l :
  invariant self (tasks l) -> invariant self (tasks (step self fuel w o l)).
Proof.
  intros Hinv. destruct o as [t|t|s|what].
  - destruct (decide (t = 0)) as [->|Hne]; [|by apply invariant_run_other].
    pose proof Hinv as (st0 & H0 & _).
    destruct (next_code self fuel {| coroutine := call_startup; state := st0 |}) as [c|] eqn:Hc;
      [|rewrite step_idle; [done | intros tk ?; congruence]].
    assert (st0 = Fresh \/ st0 <> Fresh) as [->|Hf] by (destruct st0; by eauto);
      [|by eapply invariant_run_startup_later].
    destruct (requests self) eqn:Hreq.
    + by apply invariant_run_startup_empty.
    + apply invariant_run_startup_first; [done | congruence | done].
  - by apply invariant_complete.
  - by apply invariant_spawn.
  - by apply invariant_spawn.
Qed.

Lemma invariant_steps self fuel w os l :
  invariant self (tasks l) -> invariant self (tasks (steps self fuel w os l)).
Proof.
  revert l. induction os as [|o os IH]; intros l Hinv; simpl; [done|].
  by apply IH, invariant_step.
Qed.

(** ** The traces of [startup] and [shutdown] *)

Lemma run_startup_funcs_trace self w n :
  trace w n (run_startup_funcs self) = startup_funcs_trace self w n /\
  result w n (run_startup_funcs self) =
    match startup_hooks self with
    | [] => finished None
    | cors =>
        match answer w n _ (gather cors) with
        | Thrown e => if is_Exception e then finished None else finished (Some e)
        | Returned _ => finished None
        end
    end.
Proof.
  unfold run_startup_funcs, startup_funcs_trace, startup_hooks.
  destruct (call_startup_func <$> elements (startup_funcs self)) as [|c cs]; simpl; [done|].
  destruct (answer w n () (gather (c :: cs))) as [[]|e]; simpl; [done|].
  by destruct (is_Exception e).
Qed.

Lemma startup_trace self w n :
  setups_of self <> [] ->
  trace w n (startup self) =
    awaited_gather (setups_of self) (answer w n _ (gather (setups_of self))) ::
    match answer w n _ (gather (setups_of self)) with
    | Returned _ => startup_funcs_trace self w (S n)
    | Thrown e =>
        if is_Exception e then
          [did (log_error startup_failed (Some e)); did (create_task (call_shutdown None))]
        else []
    end /\
  result w n (startup self) =
    match answer w n _ (gather (setups_of self)) with
    | Returned _ => result w (S n) (run_startup_funcs self)
    | Thrown e => if is_Exception e then finished None else finished (Some e)
    end.
Proof.
  intros Hne. unfold startup. fold (setups_of self).
  destruct (setups_of self) as [|c cs]; [done|]. simpl.
  destruct (answer w n () (gather (c :: cs))) as [[]|e]; simpl.
  - by rewrite (proj1 (run_startup_funcs_trace self w (S n))).
  - unfold abort_startup. by destruct (is_Exception e).
Qed.

Lemma trace_cancel_each w n ts k :
  trace w n (cancel_each ts k) = (did ∘ cancel <$> ts) ++ trace w n k.
Proof. induction ts as [|t ts IH]; simpl; [done | by rewrite IH]. Qed.

Lemma result_cancel_each w n ts k : result w n (cancel_each ts k) = result w n k.
Proof. induction ts as [|t ts IH]; simpl; [done | by rewrite IH]. Qed.

Lemma cancel_tasks_and_stop_trace w n :
  trace w n cancel_tasks_and_stop = sweep_trace w n /\
  result w n cancel_tasks_and_stop =
    match other_tasks_at w n with
    | [] => finished None
    | ts =>
        match answer w (S n) _ (gather_tasks ts) with
        | Returned _ => finished None
        | Thrown e => finished (Some e)
        end
    end.
Proof.
  unfold cancel_tasks_and_stop, sweep_trace. simpl.
  rewrite trace_cancel_each, result_cancel_each.
  destruct (other_tasks_at w n) as [|t ts]; simpl; [done|].
  by destruct (answer w (S n) () (gather_tasks (t :: ts))) as [[]|e].
Qed.

Lemma shutdown_trace self signal w n :
  trace w n (shutdown self signal) =
    match shutdown_hooks self with
    | [] => sweep_trace w n
    | cors =>
        awaited_gather cors (answer w n _ (gather cors)) ::
        match answer w n _ (gather cors) with
        | Returned _ => sweep_trace w (S n)
        | Thrown e =>
            if is_Exception e then
              did (log_error shutdown_func_failed (Some e)) :: sweep_trace w (S n)
            else []
        end
    end.
Proof.
  unfold shutdown, shutdown_hooks.
  destruct (call_shutdown_func <$> elements (shutdown_funcs self)) as [|c cs]; simpl.
  - exact (proj1 (cancel_tasks_and_stop_trace w n)).
  - destruct (answer w n () (gather (c :: cs))) as [[]|e]; simpl.
    + f_equal. exact (proj1 (cancel_tasks_and_stop_trace w (S n))).
    + destruct (is_Exception e); simpl; [|done].
      do 2 f_equal. exact (proj1 (cancel_tasks_and_stop_trace w (S n))).
Qed.

(** ** The primitives of the sweep *)

Lemma elem_of_other_tasks me ts t :
  t ∈ other_tasks me ts <->
  t <> me /\ exists tk, ts !! t = Some tk /\ is_done (state tk) = false.
Proof.
  unfold other_tasks. rewrite list_elem_of_In, List.filter_In, <- list_elem_of_In, elem_of_seq.
  unfold state_of. split.
  - intros [[_ Hlt] H]. apply andb_true_iff in H as [Hne Hd].
    apply negb_true_iff, Nat.eqb_neq in Hne. split; [done|].
    destruct (ts !! t) as [tk|]; [|done]. exists tk. split; [done|].
    by apply negb_true_iff in Hd.
  - intros [Hne (tk & Htk & Hd)]. split.
    + split; [lia|]. apply lookup_lt_Some in Htk. lia.
    + rewrite Htk. simpl. rewrite Hd. apply andb_true_iff. split; [|done].
      by apply negb_true_iff, Nat.eqb_neq.
Qed.

Lemma cancel_task_done d t ts r :
  state_of ts t = Some (Done r) -> cancel_task d t ts = ts.
Proof.
  intros H. destruct (lookup_of_state _ _ _ H) as [c Ht].
  assert (Hs : set_state t (Done r) ts = ts).
  { unfold set_state. apply list_eq. intros u. destruct (decide (t = u)) as [<-|Hne].
    - by rewrite list_lookup_alter_eq, Ht.
    - by rewrite list_lookup_alter_ne. }
  destruct d; simpl; rewrite Ht; simpl; by rewrite Hs.
Qed.

Lemma wake_gather_tasks ts c cs k h :
  all_done ts cs = true ->
  wake ts {| coroutine := c; state := Joining true cs k h |} =
    {| coroutine := c; state := Resume k h |}.
Proof. intros H. unfold wake. simpl. by rewrite H. Qed.

(** ** Further facts on the traces of the loops *)

Lemma disconnects_zero tr :
  disconnects tr = 0 -> Forall (fun l => is_disconnect l = false) tr.
Proof.
  unfold disconnects. induction tr as [|l tr IH]; simpl; [constructor|].
  destruct (is_disconnect l) eqn:Hl; simpl; [done|]. intros H. constructor; eauto.
Qed.

(** In a trace that [exits_cleanly] describes, a disconnection can only be
    the last label. *)
Lemma disconnect_only_last bot tr j l :
  disconnects tr = 0 \/
    (disconnects tr = 1 /\ last tr = Some (did (_bot_disconnect bot))) ->
  tr !! j = Some l -> is_disconnect l = true -> S j = length tr.
Proof.
  intros [H0|[H1 Hlast]] Hj Hl.
  - apply disconnects_zero in H0. eapply Forall_lookup_1 in H0; eauto. congruence.
  - apply last_Some in Hlast as [pre ->].
    rewrite disconnects_app in H1. simpl in H1.
    assert (H0 : disconnects pre = 0) by (unfold disconnects in *; simpl in *; lia).
    apply disconnects_zero in H0. rewrite length_app. simpl.
    destruct (decide (j < length pre)) as [Hlt|Hge].
    + rewrite lookup_app_l in Hj by done. eapply Forall_lookup_1 in H0; eauto. congruence.
    + apply lookup_lt_Some in Hj. rewrite length_app in Hj. simpl in Hj. lia.
Qed.

Lemma exits_cleanly_only_last message bot absorbed c w n j l :
  exits_cleanly message bot absorbed c ->
  trace w n c !! j = Some l -> is_disconnect l = true -> S j = length (trace w n c).
Proof.
  intros H. destruct (H w n) as [[[_ H0]|(_ & H1 & Hl)] _];
    apply (disconnect_only_last bot); auto.
Qed.

Lemma exit_tail_harmless message bot r :
  Forall (fun l => is_harmless l = true) (exit_tail message bot r).
Proof. destruct r as [[e|]|]; simpl; [destruct (is_Exception e)| |]; by repeat constructor. Qed.

Lemma inner_harmless tr :
  Forall (fun l => is_inner l = true) tr -> Forall (fun l => is_harmless l = true) tr.
Proof. intros H. eapply Forall_impl; [exact H|]. by intros [[]| | | | | | | | | | | |]. Qed.

Lemma ws_loop_harmless fuel bot request p w n :
  Forall (fun l => is_harmless l = true) (trace w n (_ws_loop fuel bot request p)).
Proof.
  rewrite ws_loop_guarded, trace_guarded. apply Forall_app. split; [|apply exit_tail_harmless].
  apply inner_harmless, with_url_inner. intros url m. apply session_inner, ws_forever_inner.
Qed.

Section ws_order.

Context (w : world) (bot : Bot) (url : URL) (ri : float).

Lemma ws_frames_order f n :
  omap dispatched (trace w n (ws_frames f bot)) = omap payload (trace w n (ws_frames f bot)).
Proof.
  revert n. induction f as [|f IH]; intros n; [done|].
  simpl. destruct (answer w n _ ws_next) as [[[data|data| |]|]|e] eqn:Ha; simpl; try done.
  - destruct (encode data) as [b|] eqn:Hb; simpl; [|done]. by rewrite IH.
  - by rewrite IH.
Qed.

Lemma ws_forever_order f frames n :
  omap dispatched (trace w n (ws_forever f frames bot url ri)) =
  omap payload (trace w n (ws_forever f frames bot url ri)).
Proof.
  revert n. induction f as [|f IH]; intros n; [done|].
  simpl. destruct (answer w n _ (ws_connect url)) as [[]|e]; simpl; [|done].
  rewrite trace_followed_by, trace_try_finally, result_try_finally, after_try_finally.
  rewrite !omap_app, ws_frames_order.
  destruct (result w (S n) (ws_frames frames bot)) as [[e|]|]; simpl; try done.
  by rewrite IH.
Qed.

End ws_order.

Lemma ws_loop_order fuel bot request p w n :
  omap dispatched (trace w n (_ws_loop fuel bot request p)) =
  omap payload (trace w n (_ws_loop fuel bot request p)).
Proof.
  rewrite ws_loop_guarded. unfold ws_session.
  assert (Hexit : forall r, omap dispatched (exit_tail ws_unexpected bot r) =
                            omap payload (exit_tail ws_unexpected bot r)).
  { intros [[e|]|]; simpl; [by destruct (is_Exception e) | done | done]. }
  assert (Htail : forall r, omap dispatched (session_tail ws_unexpected bot r) =
                            omap payload (session_tail ws_unexpected bot r)).
  { intros r. unfold session_tail. rewrite !omap_app, Hexit. by destruct r as [[?|]|]. }
  destruct (loop_cases w n ws_unexpected bot request (fun url => ws_forever fuel fuel bot url p))
    as [(_ & -> & _)|[(host & e & _ & _ & -> & _)|(host & url & _ & _ & -> & _)]].
  - apply Hexit.
  - apply (Hexit (finished (Some e))).
  - simpl. by rewrite !omap_app, ws_forever_order, Htail.
Qed.

(** ** A step that starts a [gather] *)

(** A ready task whose code begins with [await asyncio.gather] over
    coroutines: the step creates one task for each, in order. *)
Lemma run_task_gather self fuel w l t tk cs k h :
  tasks l !! t = Some tk ->
  next_code self fuel tk = Some (Await (gather cs) k h) ->
  forall i c, cs !! i = Some c ->
    tasks (step self fuel w (run_task t) l) !! (length (tasks l) + i) =
      Some {| coroutine := c; state := Fresh |}.
Proof.
  intros Ht Hc i c Hi.
  erewrite step_run_task by eauto. simpl. rewrite foldl_spawn, length_set_state.
  set (mk := fun c => {| coroutine := c; state := Fresh |}).
  set (ts0 := set_state t (Running false) (tasks l) ++ (mk <$> cs)).
  assert (Hlt : t < length (tasks l)) by (by eapply lookup_lt_Some).
  assert (Hnew : forall ts1, length ts1 = length ts0 ->
            (forall u, u <> t -> ts1 !! u = ts0 !! u) ->
            wake_all ts1 !! (length (tasks l) + i) = Some (mk c)).
  { intros ts1 L1 O1. rewrite lookup_wake_all, O1 by lia.
    unfold ts0. rewrite lookup_app_r by (rewrite length_set_state; lia).
    rewrite length_set_state. replace (length (tasks l) + i - length (tasks l)) with i by lia.
    by rewrite list_lookup_fmap, Hi. }
  rewrite settle_running.
  - apply Hnew; [by rewrite length_set_state|]. intros u Hu. by rewrite lookup_set_state_ne.
  - unfold ts0, state_of. rewrite lookup_app_l by (by rewrite length_set_state).
    by rewrite (lookup_set_state_eq _ _ _ _ Ht).
Qed.

(** ** Registration *)

(** C10: [setup] raises [TypeError] and leaves the driver as it was, its
    list of requests too, when the request is neither an [HTTPRequest] nor
    a [WebSocket]; otherwise it raises nothing and appends exactly one
    [RequestSetup] with the given adapter and request and with the given
    intervals, each 3.0 when omitted.  Hooks and adapters are untouched, and
    the call is a function of its arguments: it awaits nothing and performs
    no effect. *)
Theorem setup_registers_or_rejects (self : Driver) (a : string) (r : HTTPConnection)
    (p q : option float) :
  if is_available_request r then
    setup self a r p q =
      ({| startup_funcs := startup_funcs self;
          shutdown_funcs := shutdown_funcs self;
          requests := requests self ++
            [ {| adapter := a; request := r;
                 poll_interval := default 3%float p;
                 reconnect_interval := default 3%float q |} ];
          _adapters := _adapters self |}, None)
  else
    exists message, setup self a r p q = (self, Some (TypeError message)).
Proof.
  unfold setup. destruct (is_available_request r); simpl; [reflexivity|].
  eexists. reflexivity.
Qed.

(** ** The loops never cancel a task and never stop the event loop *)

Lemma http_loop_harmless fuel bot request p w n :
  Forall (fun l => is_harmless l = true) (trace w n (_http_loop fuel bot request p)).
Proof.
  rewrite http_loop_guarded, trace_guarded. apply Forall_app. split; [|apply exit_tail_harmless].
  apply inner_harmless, with_url_inner. intros url m.
  apply session_inner, http_poll_forever_inner.
Qed.

(** ** [shutdown] stops the loop at most once *)

Lemma filter_is_stop_cancels ts : List.filter is_stop (did ∘ cancel <$> ts) = [].
Proof. induction ts as [|t ts IH]; [done | exact IH]. Qed.

Lemma sweep_trace_stops w n :
  length (List.filter is_stop (sweep_trace w n)) <= 1 /\
  (forall j, sweep_trace w n !! j = Some (did loop_stop) -> S j = length (sweep_trace w n)).
Proof.
  unfold sweep_trace. set (ts := other_tasks_at w n).
  assert (Hc : forall j, (did ∘ cancel <$> ts) !! j <> Some (did loop_stop)).
  { intros j. rewrite list_lookup_fmap. by destruct (ts !! j). }
  assert (Hlast : forall tail,
    (tail = [did loop_stop] \/ tail = [] \/
       exists o, tail = [awaited_gather_tasks ts o] \/
                 tail = [awaited_gather_tasks ts o; did loop_stop]) ->
    length (List.filter is_stop (saw_tasks ts :: (did ∘ cancel <$> ts) ++ tail)) <= 1 /\
    forall j, (saw_tasks ts :: (did ∘ cancel <$> ts) ++ tail) !! j = Some (did loop_stop) ->
      S j = length (saw_tasks ts :: (did ∘ cancel <$> ts) ++ tail)).
  { intros tail Htail. split.
    - simpl. rewrite List.filter_app, filter_is_stop_cancels. simpl.
      destruct Htail as [->|[->|[o [->| ->]]]]; simpl; lia.
    - intros [|j] Hj; [done|]. simpl in Hj. simpl. rewrite length_app.
      destruct (decide (j < length (did ∘ cancel <$> ts))) as [Hlt|Hge].
      { rewrite lookup_app_l in Hj by done. by apply Hc in Hj. }
      rewrite lookup_app_r in Hj by lia.
      remember (j - length (did ∘ cancel <$> ts)) as d eqn:Ed.
      destruct Htail as [->|[->|[o [->| ->]]]]; simpl;
        destruct d as [|[|d]]; simplify_eq/=; lia. }
  destruct ts as [|t ts'] eqn:Ets.
  - apply (Hlast [did loop_stop]). by left.
  - destruct (answer w (S n) () (gather_tasks (t :: ts'))) as [[]|e];
      apply Hlast; right; right; eexists; [right | left]; reflexivity.
Qed.

Lemma sweep_returns w n :
  result w n cancel_tasks_and_stop = finished None ->
  length (List.filter is_stop (sweep_trace w n)) = 1.
Proof.
  rewrite (proj2 (cancel_tasks_and_stop_trace w n)). unfold sweep_trace.
  destruct (other_tasks_at w n) as [|t ts]; [done|].
  simpl. rewrite List.filter_app, filter_is_stop_cancels.
  by destruct (answer w (S n) () (gather_tasks (t :: ts))) as [[]|e].
Qed.

Lemma shutdown_stops self signal w n :
  length (List.filter is_stop (trace w n (shutdown self signal))) <= 1 /\
  (forall j, trace w n (shutdown self signal) !! j = Some (did loop_stop) ->
     S j = length (trace w n (shutdown self signal))) /\
  (result w n (shutdown self signal) = finished None ->
     length (List.filter is_stop (trace w n (shutdown self signal))) = 1).
Proof.
  assert (Hcons : forall x m, is_stop x = false ->
    length (List.filter is_stop (x :: sweep_trace w m)) <= 1 /\
    (forall j, (x :: sweep_trace w m) !! j = Some (did loop_stop) ->
       S j = length (x :: sweep_trace w m))).
  { intros x m Hx. destruct (sweep_trace_stops w m) as [H1 H2]. split.
    - simpl. by rewrite Hx.
    - intros [|j] Hj; simpl in *; [by simplify_eq/= | by rewrite <- (H2 j Hj)]. }
  rewrite shutdown_trace. unfold shutdown. fold (shutdown_hooks self).
  destruct (shutdown_hooks self) as [|c cs]; simpl.
  - destruct (sweep_trace_stops w n) as [H1 H2]. split_and!; [done | done | apply sweep_returns].
  - destruct (answer w n () (gather (c :: cs))) as [[]|e]; simpl.
    + destruct (Hcons (awaited_gather (c :: cs) (Returned ())) (S n) eq_refl) as [H1 H2].
      split_and!; [done | done |]. intros Hr. by apply sweep_returns.
    + destruct (is_Exception e); simpl.
      * destruct (Hcons (did (log_error shutdown_func_failed (Some e))) (S n) eq_refl)
          as [H1 H2].
        split_and!; [done | | by apply sweep_returns].
        intros [|j] Hj; simpl in *; [done | by rewrite <- (H2 j Hj)].
      * split_and!; [lia | by intros [|[|j]] | done].
Qed.

Lemma exec_cancel_each me ts k l :
  exec me (cancel_each ts k) l = exec me k (cancel_all me ts l).
Proof. revert l. induction ts as [|t ts IH]; intros l; simpl; [done | by rewrite IH]. Qed.

Lemma cancel_all_spec me ts l :
  history (cancel_all me ts l) = history l ++ ((fun t => (me, cancel t)) <$> ts) /\
  _clients (cancel_all me ts l) = _clients l /\
  stops (cancel_all me ts l) = stops l.
Proof.
  revert l. induction ts as [|t ts IH]; intros l; simpl.
  - by rewrite app_nil_r.
  - destruct (IH (perform me (cancel t) l)) as (H1 & H2 & H3).
    unfold cancel_all in *. rewrite H1, H2, H3. simpl. by rewrite <- app_assoc.
Qed.

Lemma exec_sweep me l :
  exec me cancel_tasks_and_stop l =
    match other_tasks me (tasks l) with
    | [] => (perform me loop_stop l, Done None)
    | ts => (cancel_all me ts l, Joining true ts (Do loop_stop Return) Raise)
    end.
Proof.
  unfold cancel_tasks_and_stop. simpl. rewrite exec_cancel_each.
  by destruct (other_tasks me (tasks l)).
Qed.

(** ** Start-up *)

Lemma reachable_invariant self fuel w os :
  invariant self (tasks (steps self fuel w os (startup_scheduled self))).
Proof. apply invariant_steps, invariant_run. Qed.

Lemma failed_setup_no_hooks self ts t tk e :
  invariant self ts -> ts !! t = Some tk -> is_setup (coroutine tk) = true ->
  state tk = Done (Some e) -> no_hooks ts.
Proof.
  intros (st0 & _ & _ & Hphase) Ht Hs He.
  destruct Hphase as [(_ & _ & H)|[(b & _ & _ & _ & H)|[(_ & _ & H)|(_ & _ & b & Hall & Honly)]]];
    try done.
  destruct (Honly t tk Ht Hs) as [Hb1 Hb2].
  destruct (lookup_lt_is_Some_2 (requests self) (t - b)) as [s Hreq]; [lia|].
  destruct (Hall _ _ Hreq) as (tk' & Ht' & _ & Hdone).
  replace (b + (t - b)) with t in Ht' by lia. congruence.
Qed.

Lemma hook_setups_done self ts t tk :
  invariant self ts -> ts !! t = Some tk -> is_startup_func (coroutine tk) = true ->
  exists b, setups_at self b ts (fun st => st = Done None).
Proof.
  intros (st0 & _ & _ & Hphase) Ht Hs.
  destruct Hphase as [(_ & _ & H)|[(b & _ & _ & _ & H)|[(_ & _ & H)|(_ & _ & b & Hb)]]];
    try (specialize (H t tk Ht); congruence).
  by exists b.
Qed.

(** C1: when the [gather] of the setups raises an [Exception], [startup]
    logs "Application startup failed. Exiting.", creates a [shutdown] task
    and returns, and does nothing else; and in every state the event loop
    can reach with [startup] as its first task ([startup_scheduled]), under
    every schedule, a setup that has ended with an exception means that no
    task of a startup hook exists: none has been started. *)
Theorem startup_failure_skips_hooks (self : Driver) :
  (forall (w : world) (n : nat) (e : exn),
     setups_of self <> [] ->
     answer w n _ (gather (setups_of self)) = Thrown e ->
     is_Exception e = true ->
     trace w n (startup self) =
       [awaited_gather (setups_of self) (Thrown e);
        did (log_error startup_failed (Some e));
        did (create_task (call_shutdown None))] /\
     result w n (startup self) = finished None) /\
  (forall (fuel : nat) (w : world) (os : list occurrence) (t : nat) (tk : task) (e : exn),
     tasks (steps self fuel w os (startup_scheduled self)) !! t = Some tk ->
     is_setup (coroutine tk) = true ->
     state tk = Done (Some e) ->
     no_hooks (tasks (steps self fuel w os (startup_scheduled self)))).
Proof.
  split.
  - intros w n e Hne Ha He. destruct (startup_trace self w n Hne) as [Htr Hr].
    rewrite Htr, Hr, Ha, He. done.
  - intros fuel w os t tk e Ht Hs He.
    exact (failed_setup_no_hooks _ _ _ _ _ (reachable_invariant self fuel w os) Ht Hs He).
Qed.

Lemma startup_failure_skips_hooks_witness :
  result refusing_world 0 (startup failing_driver) = finished None /\
  no_hooks (tasks double_shutdown).
Proof.
  split.
  - apply (proj1 (startup_failure_skips_hooks failing_driver) refusing_world 0 (KeyError "nope"));
      [vm_compute; discriminate | reflexivity | reflexivity].
  - apply (proj2 (startup_failure_skips_hooks failing_driver) 2 (example_world 200 100)
             double_shutdown_script
             1 {| coroutine := call_ws_setup "nope" example_socket 3%float;
                  state := Done (Some (KeyError "nope")) |} (KeyError "nope"));
      [vm_compute; reflexivity | reflexivity | reflexivity].
Defined.

(** C8: in every state the event loop can reach with [startup] as its
    first task ([startup_scheduled]), under every schedule, the existence
    of a task of a startup hook means that every entry of [self.requests]
    has its setup task and that each of these has returned; the hooks are started by one [gather] over all of them, each
    registered hook once, which comes after the [gather] of the setups has
    returned; an [Exception] of that batch is logged and [startup] returns
    as if there had been none. *)
Theorem hooks_wait_for_setups (self : Driver) :
  (forall (fuel : nat) (w : world) (os : list occurrence) (t : nat) (tk : task),
     tasks (steps self fuel w os (startup_scheduled self)) !! t = Some tk ->
     is_startup_func (coroutine tk) = true ->
     exists b, setups_at self b (tasks (steps self fuel w os (startup_scheduled self)))
                 (fun st => st = Done None)) /\
  (forall (w : world) (n : nat),
     setups_of self <> [] ->
     answer w n _ (gather (setups_of self)) = Returned tt ->
     trace w n (startup self) =
       awaited_gather (setups_of self) (Returned tt) :: startup_funcs_trace self w (S n) /\
     (startup_hooks self <> [] ->
      exists o,
        startup_funcs_trace self w (S n) =
          awaited_gather (startup_hooks self) o ::
          match o with
          | Thrown e =>
              if is_Exception e then [did (log_error startup_func_failed (Some e))] else []
          | Returned _ => []
          end /\
        (forall e, o = Thrown e -> is_Exception e = true ->
           result w n (startup self) = finished None))) /\
  NoDup (startup_hooks self) /\
  (forall f : func, call_startup_func f ∈ startup_hooks self <-> f ∈ startup_funcs self).
Proof.
  split_and!.
  - intros fuel w os t tk Ht Hs.
    exact (hook_setups_done _ _ _ _ (reachable_invariant self fuel w os) Ht Hs).
  - intros w n Hne Ha. destruct (startup_trace self w n Hne) as [Htr Hr].
    rewrite Htr, Hr, Ha. split; [done|]. intros Hh.
    exists (answer w (S n) _ (gather (startup_hooks self))).
    rewrite (proj2 (run_startup_funcs_trace self w (S n))).
    unfold startup_funcs_trace. destruct (startup_hooks self) as [|c cs]; [done|].
    split; [done|]. intros e -> He. by rewrite He.
  - unfold startup_hooks. apply NoDup_fmap_2; [by intros ?? [=] | apply NoDup_elements].
  - intros f. unfold startup_hooks. rewrite list_elem_of_fmap. split.
    + intros (g & [= ->] & Hg). by apply elem_of_elements in Hg.
    + intros Hf. exists f. split; [done | by apply elem_of_elements].
Qed.

Lemma hooks_wait_for_setups_witness :
  exists b, setups_at example_driver b (tasks good_run) (fun st => st = Done None).
Proof.
  apply (proj1 (hooks_wait_for_setups example_driver) 2 (example_world 200 100)
           good_script
           3 {| coroutine := call_startup_func "hello"; state := Done None |});
    [vm_compute; reflexivity | reflexivity].
Defined.

(** ** The loops *)


(** A task that is cancelled before its first step never runs its body:
    it ends with [CancelledError] and performs no effect.  For the task of a
    loop this means that no [try] statement is entered and the bot stays in
    the table. *)
Lemma cancelled_before_first_step self fuel w l t c :
  tasks l !! t = Some {| coroutine := c; state := cancelled Fresh |} ->
  state_of (tasks (step self fuel w (run_task t) l)) t = Some (Done (Some CancelledError)) /\
  _clients (step self fuel w (run_task t) l) = _clients l /\
  history (step self fuel w (run_task t) l) = history l.
Proof.
  intros Ht.
  assert (Hlt : t < length (tasks l)) by (by eapply lookup_lt_Some).
  destruct (run_task_plain self fuel w l t _ (Raise CancelledError)
              (with_tasks (set_state t (Running false) (tasks l)) l)
              (Done (Some CancelledError)) Ht eq_refl)
    as (S1 & C1 & H1 & _); [done | by apply state_of_set_state_eq | done | done].
Qed.

(** X17: every run of the body of [_http_loop] and of [_ws_loop], whatever
    the outside answers: the bot is disconnected exactly once when the run
    ends, as its last action, and not at all while it goes on;
    [_bot_disconnect] removes the bot from the table.  An exception thrown
    into the loop that the loop does not handle itself ends it: after
    [CancelledError] nothing is logged and the task returns; after an
    [Exception] exactly the unexpected-exception message is logged, with
    that exception, and the task returns as well; the loop itself never
    cancels a task and never stops the event loop.  A run that has not
    ended is one the bound of the model has cut off, after as many requests,
    connections or frames as the bound allows. *)
Theorem loops_disconnect_exactly_once (fuel : nat) (bot : Bot) (request : HTTPConnection)
    (p : float) :
  exits_cleanly http_unexpected bot absorbed_http (_http_loop fuel bot request p) /\
  exits_cleanly ws_unexpected bot (fun _ => false) (_ws_loop fuel bot request p) /\
  (forall (w : world) (n : nat),
     Forall (fun l => is_harmless l = true) (trace w n (_http_loop fuel bot request p)) /\
     Forall (fun l => is_harmless l = true) (trace w n (_ws_loop fuel bot request p))) /\
  (forall (me : task_id) (l : loop),
     _clients (perform me (_bot_disconnect bot) l) !! self_id bot = None) /\
  (forall (w : world) (n : nat),
     (result w n (_http_loop fuel bot request p) = unfinished ->
      requests_made (trace w n (_http_loop fuel bot request p)) = fuel) /\
     (result w n (_ws_loop fuel bot request p) = unfinished ->
      connections (trace w n (_ws_loop fuel bot request p)) = fuel \/
      frames_awaited 0 (trace w n (_ws_loop fuel bot request p)) = fuel)).
Proof.
  split_and!.
  - apply http_loop_exits_cleanly.
  - apply ws_loop_exits_cleanly.
  - intros w n. split; [apply http_loop_harmless | apply ws_loop_harmless].
  - intros me l. simpl. apply lookup_delete_eq.
  - intros w n. split; [apply http_loop_fuel | apply ws_loop_fuel].
Qed.

Lemma loops_disconnect_exactly_once_witness :
  (result (example_world 200 3) 0 (_http_loop 3 example_bot example_request 3%float) =
     finished None /\
   forall j l', 6 < j ->
     trace (example_world 200 3) 0 (_http_loop 3 example_bot example_request 3%float) !! j =
       Some l' ->
     is_log l' = true -> False) /\
  (result (example_world 200 3) 0 (_ws_loop 3 example_bot example_socket 3%float) =
     finished None /\
   disconnects
     (trace (example_world 200 3) 0 (_ws_loop 3 example_bot example_socket 3%float)) = 1 /\
   last (trace (example_world 200 3) 0 (_ws_loop 3 example_bot example_socket 3%float)) =
     Some (did (_bot_disconnect example_bot))).
Proof.
  pose proof (loops_disconnect_exactly_once 3 example_bot example_request 3%float)
    as (Hhttp & _).
  pose proof (loops_disconnect_exactly_once 3 example_bot example_socket 3%float)
    as (_ & Hws & _).
  split.
  - destruct (Hhttp (example_world 200 3) 0) as [_ H].
    destruct (H 6 (awaited_sleep 3%float (Thrown CancelledError)) CancelledError)
      as (Hr & Hlog & _); [vm_compute; reflexivity | reflexivity | reflexivity |].
    split; [exact Hr|].
    intros j l' Hj Hl' Hlog'. destruct (Hlog j l' Hj Hl') as [_ Hl].
    destruct (Hl Hlog') as [_ He]. discriminate He.
  - destruct (Hws (example_world 200 3) 0) as [[[Hu _]|(_ & H1 & Hlast)] H].
    { vm_compute in Hu. discriminate Hu. }
    destruct (H 5 (awaited_ws_next (Thrown CancelledError)) CancelledError)
      as (Hr & _); [vm_compute; reflexivity | reflexivity | reflexivity |].
    split_and!; [exact Hr | exact H1 | exact Hlast].
Defined.

(** C5, as the code has it: in every run of [_http_loop], a response that
    [raise_for_status] rejects, which is one with a status of 400 or more,
    is released and the logger is called with the message that holds the
    address; if the logger accepts the message it is logged with the
    [ClientResponseError], then the loop sleeps [poll_interval], and if that
    sleep returns the next thing is the next request: same method, address
    and body.  Every other response, one with a status below 400, is read;
    if the read returns, a task of [bot.handle_message] is created for
    exactly the bytes read, without being awaited, the response is released,
    the loop sleeps [poll_interval] and the next request follows.  The bot
    is disconnected nowhere but at the very end of the run.  Where the next
    request is missing from a trace the bound of the model has been reached,
    and then the trace holds as many requests as the bound allows. *)
Theorem poll_iteration (fuel : nat) (bot : Bot) (request : HTTPConnection) (p : float)
    (w : world) (n : nat) :
  after_each (poll_follows response_ok bot p)
    (trace w n (_http_loop fuel bot request p))
    (result w n (_http_loop fuel bot request p)) /\
  (forall (j : nat) (l : label),
     trace w n (_http_loop fuel bot request p) !! j = Some l ->
     is_disconnect l = true ->
     S j = length (trace w n (_http_loop fuel bot request p))) /\
  (result w n (_http_loop fuel bot request p) = unfinished ->
   requests_made (trace w n (_http_loop fuel bot request p)) = fuel).
Proof.
  split_and!; [apply http_loop_follows | | apply http_loop_fuel].
  intros j l. apply (exits_cleanly_only_last http_unexpected bot absorbed_http).
  apply http_loop_exits_cleanly.
Qed.

Lemma poll_iteration_witness :
  exists o s',
    drop 3 (trace (example_world 500 100) 0 (_http_loop 3 example_bot example_request 3%float)) =
      did response_release ::
      parsed_markup (http_request_failed example_url) (Returned tt) ::
      did (log_error (http_request_failed example_url) (Some (ClientResponseError 500))) ::
      awaited_sleep 3%float (Returned tt) ::
      awaited_request "POST" example_url [] o :: s'.
Proof.
  destruct (proj1 (poll_iteration 3 example_bot example_request 3%float (example_world 500 100) 0)
              2 (awaited_request "POST" example_url [] (Returned {| status := 500 |}))
              eq_refl)
    as (s1 & H1 & o1 & s2 & H2 & H3).
  vm_compute in H1. injection H1 as <-.
  injection H2 as <- <-.
  destruct (H3 eq_refl) as (o' & s3 & H4 & H5).
  injection H4 as <- <-.
  destruct (H5 eq_refl) as [[H6 _]|(o & s' & H6)]; [discriminate H6|].
  exists o, s'. vm_compute. vm_compute in H6. by rewrite <- H6.
Defined.

(** A response with status 304 is not in 200..299, and yet it is read and
    its body dispatched, and nothing is logged: the loop does not treat
    every status outside 200..299 as an error. *)
Lemma not_modified_is_dispatched :
  is_2xx {| status := 304 |} = false /\
  trace (example_world 304 100) 0 (_http_loop 1 example_bot example_request 3%float) =
    [called_URL_build "http" "example.org" "/poll" "" (Returned example_url);
     did (session_open {[ "host" := "example.org" ]} 30);
     awaited_request "POST" example_url [] (Returned {| status := 304 |});
     awaited_read {| status := 304 |} (Returned []);
     did (create_task (call_handle_message example_bot []));
     did response_release;
     awaited_sleep 3%float (Returned tt)] /\
  ~ (forall (fuel : nat) (bot : Bot) (request : HTTPConnection) (p : float)
            (w : world) (n : nat),
       after_each (poll_follows is_2xx bot p)
         (trace w n (_http_loop fuel bot request p))
         (result w n (_http_loop fuel bot request p))).
Proof.
  split_and!; [reflexivity | vm_compute; reflexivity |].
  intros H.
  specialize (H 1 example_bot example_request 3%float (example_world 304 100) 0
                2 (awaited_request "POST" example_url [] (Returned {| status := 304 |}))).
  destruct H as (s1 & Heq & _); [vm_compute; reflexivity|].
  vm_compute in Heq. discriminate Heq.
Qed.

(** C6: no run of [_ws_loop] ever awaits a sleep.  When the frames of a
    connection end, the connection is closed,
    [asyncio.sleep(reconnect_interval)] is called and its coroutine dropped,
    and the very next thing the loop does is [ws_connect] again.  Where the
    next connection is missing from a trace the bound of the model has been
    reached, and then the trace holds as many connections as the bound
    allows, or as many frames of the last connection. *)
Theorem reconnect_sleep_not_awaited (fuel : nat) (bot : Bot) (request : HTTPConnection)
    (p : float) (w : world) (n : nat) :
  after_each (no_backoff p)
    (trace w n (_ws_loop fuel bot request p))
    (result w n (_ws_loop fuel bot request p)) /\
  (result w n (_ws_loop fuel bot request p) = unfinished ->
   connections (trace w n (_ws_loop fuel bot request p)) = fuel \/
   frames_awaited 0 (trace w n (_ws_loop fuel bot request p)) = fuel).
Proof.
  split; [|apply ws_loop_fuel].
  apply (after_each_impl (ws_follows (reconnects p) (error_frame_ends bot) bot p));
    [|apply ws_loop_follows].
  intros l s. unfold ws_follows, no_backoff.
  destruct l as [e|ts|cls r o|m u d o|resp o|d o|u o|o|c o|cs o|ts o| |]; try done.
  destruct o as [[[data|data| |]|]|e]; done.
Qed.

Lemma reconnect_sleep_not_awaited_witness :
  exists o s',
    drop 4 (trace closing_world 0 (_ws_loop 3 example_bot example_socket 3%float)) =
      did ws_close :: did (unawaited_sleep 3%float) :: awaited_ws_connect example_url o :: s'.
Proof.
  destruct (proj1 (reconnect_sleep_not_awaited 3 example_bot example_socket 3%float
                     closing_world 0)
              3 (awaited_ws_next (Returned None)) eq_refl)
    as (s1 & H1 & H2).
  vm_compute in H1. injection H1 as <-.
  destruct H2 as [[H2 _]|(u & o & s' & H2)]; [discriminate H2|].
  injection H2 as <- <- <-. eexists _, _. vm_compute. reflexivity.
Defined.

(** C7: in every run of [_ws_loop], a text frame is followed at once by the
    creation of a task of [bot.handle_message] for the UTF-8 encoding of its
    text, a binary frame by one for its bytes as they are, neither awaited,
    and the next frame is awaited next; the messages of the tasks created
    are, in order, those of the frames received; the loop never cancels a
    task and never stops the event loop.  An error frame ends the loop: the
    message of the logger opens [<bg #f8bbd0>] and closes it with [</bg>],
    where the two messages of [startup] and [shutdown] close it with
    [</bg #f8bbd0>], so that the logger raises [ValueError] and [break] is
    not reached; the connection and the session are closed, the exception
    is logged by the handler of [Exception] and the bot is disconnected,
    with no connection opened again. *)
Theorem frames_dispatched_in_order (fuel : nat) (bot : Bot) (request : HTTPConnection)
    (p : float) (w : world) (n : nat) :
  after_each (ws_follows (reconnects p) (error_frame_ends bot) bot p)
    (trace w n (_ws_loop fuel bot request p))
    (result w n (_ws_loop fuel bot request p)) /\
  omap dispatched (trace w n (_ws_loop fuel bot request p)) =
    omap payload (trace w n (_ws_loop fuel bot request p)) /\
  Forall (fun l => is_harmless l = true) (trace w n (_ws_loop fuel bot request p)) /\
  (result w n (_ws_loop fuel bot request p) = unfinished ->
   connections (trace w n (_ws_loop fuel bot request p)) = fuel \/
   frames_awaited 0 (trace w n (_ws_loop fuel bot request p)) = fuel) /\
  markup_error (String.length ws_frame_error) [] ws_frame_error = Some "bg" /\
  markup_error (String.length startup_func_failed) [] startup_func_failed = None /\
  markup_error (String.length shutdown_func_failed) [] shutdown_func_failed = None.
Proof.
  split_and!; [apply ws_loop_follows | apply ws_loop_order | apply ws_loop_harmless |
               apply ws_loop_fuel | reflexivity..].
Qed.

Lemma frames_dispatched_in_order_witness :
  exists o,
    drop 3 (trace (example_world 200 100) 0 (_ws_loop 3 example_bot example_socket 3%float)) =
      [awaited_ws_next (Returned (Some (TextFrame [0x41%N; 0xE9%N; 0x20AC%N])));
       did (create_task
              (call_handle_message example_bot
                 [Byte.x41; Byte.xc3; Byte.xa9; Byte.xe2; Byte.x82; Byte.xac]));
       awaited_ws_next o;
       did ws_close; did session_close;
       did (log_error ws_unexpected (Some frame_error));
       did (_bot_disconnect example_bot)] /\
    o = Returned (Some ErrorFrame) /\
    result (example_world 200 100) 0 (_ws_loop 3 example_bot example_socket 3%float) =
      finished None.
Proof.
  pose proof (proj1 (frames_dispatched_in_order 3 example_bot example_socket 3%float
                       (example_world 200 100) 0)) as H.
  destruct (H 3 (awaited_ws_next (Returned (Some (TextFrame [0x41%N; 0xE9%N; 0x20AC%N]))))
              eq_refl) as (s1 & H1 & [[H2 _]|(o & s2 & H2)]);
    vm_compute in H1; injection H1 as <-; [discriminate H2|].
  injection H2 as <- <-.
  destruct (H 5 (awaited_ws_next (Returned (Some ErrorFrame))) eq_refl) as [H3 H4].
  exists (Returned (Some ErrorFrame)). split_and!; [|done|exact H4].
  vm_compute. reflexivity.
Defined.

Lemma shutdown_starts_hooks self fuel w l t s i c :
  tasks l !! t = Some {| coroutine := call_shutdown s; state := Fresh |} ->
  shutdown_hooks self !! i = Some c ->
  tasks (step self fuel w (run_task t) l) !! (length (tasks l) + i) =
    Some {| coroutine := c; state := Fresh |}.
Proof.
  intros Ht Hi.
  assert (Hcode : exists k h,
    shutdown self s = Await (gather (shutdown_hooks self)) k h).
  { unfold shutdown. fold (shutdown_hooks self).
    destruct (shutdown_hooks self) as [|c0 cs]; [done|]. simpl. by eexists _, _. }
  destruct Hcode as (k & h & Hcode).
  apply (run_task_gather self fuel w l t _ (shutdown_hooks self) k h Ht); [|done].
  cbn [next_code state coroutine body]. by rewrite Hcode.
Qed.

(** C3, as the code has it: [shutdown] has no guard against a second
    invocation.  Every invocation that begins starts every registered
    shutdown hook again, as a new task each.  What is safe to repeat is the
    sweep: cancelling a task twice is cancelling it once, cancelling a task
    that is done changes nothing, and one invocation calls [loop.stop()] at
    most once, as the last thing it does, and exactly once when it
    returns. *)
Theorem shutdown_again_runs_hooks_again (self : Driver) (fuel : nat) (w : world) :
  (forall (l : loop) (t : nat) (s : option Signals) (i : nat) (c : call),
     tasks l !! t = Some {| coroutine := call_shutdown s; state := Fresh |} ->
     shutdown_hooks self !! i = Some c ->
     tasks (step self fuel w (run_task t) l) !! (length (tasks l) + i) =
       Some {| coroutine := c; state := Fresh |}) /\
  (forall st : tstate, cancelled (cancelled st) = cancelled st) /\
  (forall (d t : nat) (ts : list task) (r : option exn),
     state_of ts t = Some (Done r) -> cancel_task d t ts = ts) /\
  (forall (s : option Signals) (n : nat),
     length (List.filter is_stop (trace w n (shutdown self s))) <= 1 /\
     (forall j, trace w n (shutdown self s) !! j = Some (did loop_stop) ->
        S j = length (trace w n (shutdown self s))) /\
     (result w n (shutdown self s) = finished None ->
        length (List.filter is_stop (trace w n (shutdown self s))) = 1)).
Proof.
  split_and!.
  - intros l t s i c. apply shutdown_starts_hooks.
  - apply cancelled_idem.
  - intros d t ts r. apply cancel_task_done.
  - intros s n. apply shutdown_stops.
Qed.

Lemma shutdown_again_runs_hooks_again_witness :
  tasks (step failing_driver 2 (example_world 200 100) (run_task 1)
           (steps failing_driver 2 (example_world 200 100) [deliver SIGINT]
              (startup_scheduled failing_driver))) !! 2 =
    Some {| coroutine := call_shutdown_func "bye"; state := Fresh |}.
Proof.
  apply (proj1 (shutdown_again_runs_hooks_again failing_driver 2 (example_world 200 100))
           (steps failing_driver 2 (example_world 200 100) [deliver SIGINT] (startup_scheduled failing_driver))
           1 (Some SIGINT) 0 (call_shutdown_func "bye"));
    [vm_compute; reflexivity | vm_compute; reflexivity].
Defined.

(** The shutdown hook of [failing_driver] runs to its end twice when a
    signal arrives during the shutdown that the failed start-up began: a
    second invocation does repeat effects. *)
Lemma second_shutdown_repeats_hooks :
  completed_runs "bye" (tasks double_shutdown) = 2 /\
  stops double_shutdown = 1 /\
  ~ (forall (self : Driver) (fuel : nat) (w : world) (os : list occurrence) (f : func),
       completed_runs f (tasks (steps self fuel w os (startup_scheduled self))) <= 1).
Proof.
  split_and!; [vm_compute; reflexivity | vm_compute; reflexivity |].
  intros H.
  specialize (H failing_driver 2 (example_world 200 100) double_shutdown_script "bye").
  vm_compute in H. lia.
Qed.

(** C4, as the code has it: [shutdown] first awaits one [gather] over all
    registered shutdown hooks, logging an [Exception] of the batch and going
    on; then it takes every task of the event loop that is not done, but
    itself, whoever created it, cancels each of them once, in order, and
    awaits their [gather] with [return_exceptions=True], which lets it go on
    once all of them are done, whatever their results; and then it calls
    [loop.stop()].  Cancelling a task that is done changes nothing, and
    cancelling twice is cancelling once. *)
Theorem shutdown_sweeps_the_whole_loop (self : Driver) (signal : option Signals) :
  (forall (w : world) (n : nat),
     trace w n (shutdown self signal) =
       match shutdown_hooks self with
       | [] => sweep_trace w n
       | cors =>
           awaited_gather cors (answer w n _ (gather cors)) ::
           match answer w n _ (gather cors) with
           | Returned _ => sweep_trace w (S n)
           | Thrown e =>
               if is_Exception e then
                 did (log_error shutdown_func_failed (Some e)) :: sweep_trace w (S n)
               else []
           end
       end) /\
  (forall (me : task_id) (l : loop),
     exec me cancel_tasks_and_stop l =
       match other_tasks me (tasks l) with
       | [] => (perform me loop_stop l, Done None)
       | ts => (cancel_all me ts l, Joining true ts (Do loop_stop Return) Raise)
       end /\
     history (cancel_all me (other_tasks me (tasks l)) l) =
       history l ++ ((fun t => (me, cancel t)) <$> other_tasks me (tasks l))) /\
  (forall (me : task_id) (ts : list task) (t : task_id),
     t ∈ other_tasks me ts <->
     t <> me /\ exists tk, ts !! t = Some tk /\ is_done (state tk) = false) /\
  (forall (ts : list task) (c : call) (cs : list task_id) (k : coro) (h : exn -> coro),
     all_done ts cs = true ->
     wake ts {| coroutine := c; state := Joining true cs k h |} =
       {| coroutine := c; state := Resume k h |}) /\
  (forall (d t : nat) (ts : list task) (r : option exn),
     state_of ts t = Some (Done r) -> cancel_task d t ts = ts) /\
  (forall st : tstate, cancelled (cancelled st) = cancelled st).
Proof.
  split_and!.
  - intros w n. apply shutdown_trace.
  - intros me l. split; [apply exec_sweep | apply cancel_all_spec].
  - intros me ts t. apply elem_of_other_tasks.
  - intros ts c cs k h. apply wake_gather_tasks.
  - intros d t ts r. apply cancel_task_done.
  - apply cancelled_idem.
Qed.

Lemma shutdown_sweeps_the_whole_loop_witness :
  wake (tasks double_shutdown)
    {| coroutine := call_shutdown None;
       state := Joining true [3; 4; 5] (Do loop_stop Return) Raise |} =
    {| coroutine := call_shutdown None; state := Resume (Do loop_stop Return) Raise |}.
Proof.
  apply (proj1 (proj2 (proj2 (proj2 (shutdown_sweeps_the_whole_loop failing_driver None))))).
  vm_compute. reflexivity.
Defined.

(** A task that other code created on the same event loop is cancelled by
    [shutdown]: the sweep is not limited to the driver's work. *)
Lemma shutdown_cancels_foreign_task :
  (2, cancel 1) ∈ history foreign_run /\
  (coroutine <$> tasks foreign_run !! 1) = Some (call_foreign "other") /\
  belongs_to_driver (call_foreign "other") = false /\
  ~ (forall (self : Driver) (fuel : nat) (w : world) (os : list occurrence)
            (me t : task_id) (tk : task),
       (me, cancel t) ∈ history (steps self fuel w os (startup_scheduled self)) ->
       tasks (steps self fuel w os (startup_scheduled self)) !! t = Some tk ->
       belongs_to_driver (coroutine tk) = true).
Proof.
  assert (Hin : (2, cancel 1) ∈ history foreign_run).
  { vm_compute. apply list_elem_of_In. left. reflexivity. }
  split_and!; [exact Hin | vm_compute; reflexivity | reflexivity |].
  intros H.
  specialize (H (init ∅) 2 (example_world 200 100) foreign_script 2 1
    {| coroutine := call_foreign "other"; state := Throw CancelledError Raise |} Hin).
  assert (Hf : belongs_to_driver (call_foreign "other") = true)
    by (apply H; vm_compute; reflexivity).
  discriminate Hf.
Qed.

(** ** Establishment: an example *)

Lemma establishment_outcomes_witness :
  state_of (tasks established_run) 1 = Some (Done None) /\
  _clients established_run = <[ "bot-1" := example_bot ]> (_clients (startup_scheduled example_driver)) /\
  history established_run =
    [(1, _bot_connect example_bot);
     (1, create_task (call_http_loop example_bot example_request 3%float))] /\
  tasks established_run !! 2 =
    Some {| coroutine := call_http_loop example_bot example_request 3%float; state := Fresh |} /\
  length (tasks established_run) = 3.
Proof.
  pose proof (establishment_outcomes example_driver 2 (example_world 200 100)
                (steps example_driver 2 (example_world 200 100) [run_task 0] (startup_scheduled example_driver))
                1 (call_http_setup "cqhttp" example_request 3%float)
                "cqhttp" example_request 3%float) as H.
  vm_compute in H. vm_compute. apply H; [reflexivity | left; reflexivity].
Defined.

(** ** Registration of hooks and requests *)

(** X1: Registering a hook twice is registering it once, the order of two
    registrations does not matter, and the function comes back as it was
    given, so that [on_startup] and [on_shutdown] work as decorators.
    Neither touches the other set or the requests.  The batch [shutdown]
    gathers holds every registered shutdown hook exactly once. *)
Theorem hooks_are_sets (self : Driver) (f g : func) :
  (on_startup (on_startup self f).1 f).1 = (on_startup self f).1 /\
  (on_startup (on_startup self f).1 g).1 = (on_startup (on_startup self g).1 f).1 /\
  (on_shutdown (on_shutdown self f).1 f).1 = (on_shutdown self f).1 /\
  (on_shutdown (on_shutdown self f).1 g).1 = (on_shutdown (on_shutdown self g).1 f).1 /\
  (on_startup self f).2 = f /\ (on_shutdown self f).2 = f /\
  (forall h : func, h ∈ startup_funcs (on_startup self f).1 <-> h = f \/ h ∈ startup_funcs self) /\
  (forall h : func,
     h ∈ shutdown_funcs (on_shutdown self f).1 <-> h = f \/ h ∈ shutdown_funcs self) /\
  shutdown_funcs (on_startup self f).1 = shutdown_funcs self /\
  startup_funcs (on_shutdown self f).1 = startup_funcs self /\
  requests (on_startup self f).1 = requests self /\
  requests (on_shutdown self f).1 = requests self /\
  NoDup (shutdown_hooks self) /\
  (forall h : func, call_shutdown_func h ∈ shutdown_hooks self <-> h ∈ shutdown_funcs self).
Proof.
  assert (Hbatch : NoDup (shutdown_hooks self) /\
    forall h : func, call_shutdown_func h ∈ shutdown_hooks self <-> h ∈ shutdown_funcs self).
  { unfold shutdown_hooks. split.
    - apply NoDup_fmap_2; [by intros ?? [=] | apply NoDup_elements].
    - intros h. rewrite list_elem_of_fmap. split.
      + intros (k & [= ->] & Hk). by apply elem_of_elements in Hk.
      + intros Hh. exists h. split; [done | by apply elem_of_elements]. }
  destruct Hbatch as [Hnodup Hmem].
  assert (Hidem : forall X : gset func, {[ f ]} ∪ ({[ f ]} ∪ X) = {[ f ]} ∪ X).
  { intros X. apply set_eq. intros x. rewrite !elem_of_union, !elem_of_singleton. tauto. }
  assert (Hcomm : forall X : gset func, {[ g ]} ∪ ({[ f ]} ∪ X) = {[ f ]} ∪ ({[ g ]} ∪ X)).
  { intros X. apply set_eq. intros x. rewrite !elem_of_union, !elem_of_singleton. tauto. }
  unfold on_startup, on_shutdown. simpl.
  split_and!; try done; try (by rewrite Hidem); try (by rewrite Hcomm);
    intros h; by rewrite elem_of_union, elem_of_singleton.
Qed.

(** X2: [startup] makes its coroutines from [self.requests] in the order of the
    calls of [setup]: an accepted call adds one coroutine at the end,
    [_http_setup] with the poll interval for an [HTTPRequest] and [_ws_setup]
    with the reconnect interval for a [WebSocket], the other interval being
    ignored; a rejected call adds none. *)
Theorem setup_then_startup (self : Driver) (a : string) (r : HTTPConnection)
    (p q : option float) :
  setups_of (setup self a r p q).1 =
    match r with
    | HTTPRequest _ _ _ => setups_of self ++ [call_http_setup a r (default 3%float p)]
    | WebSocket _ => setups_of self ++ [call_ws_setup a r (default 3%float q)]
    | PlainConnection _ => setups_of self
    end /\
  startup_hooks (setup self a r p q).1 = startup_hooks self /\
  shutdown_hooks (setup self a r p q).1 = shutdown_hooks self.
Proof.
  unfold setup, setups_of, startup_hooks, shutdown_hooks.
  destruct r as [i m b|i|i]; simpl; rewrite ?fmap_app; done.
Qed.

(** ** A request without a [host] header *)

(** X3: Without a [host] header neither loop opens a session or sends
    anything: the [KeyError] of the lookup is logged as the unexpected
    exception, the bot is disconnected and the task returns. *)
Theorem missing_host_ends_the_loop (fuel : nat) (bot : Bot) (request : HTTPConnection)
    (p : float) (w : world) (n : nat) :
  headers (info_of request) !! "host" = None ->
  trace w n (_http_loop fuel bot request p) =
    [did (log_error http_unexpected (Some (KeyError "host"))); did (_bot_disconnect bot)] /\
  result w n (_http_loop fuel bot request p) = finished None /\
  trace w n (_ws_loop fuel bot request p) =
    [did (log_error ws_unexpected (Some (KeyError "host"))); did (_bot_disconnect bot)] /\
  result w n (_ws_loop fuel bot request p) = finished None.
Proof.
  intros H.
  rewrite http_loop_guarded, ws_loop_guarded, !trace_guarded, !result_guarded.
  rewrite !trace_with_url, !result_with_url, H. done.
Qed.

Lemma missing_host_ends_the_loop_witness :
  trace (example_world 200 100) 0
    (_http_loop 3 example_bot
       (HTTPRequest {| scheme := "http"; path := "/"; query_string := []; headers := ∅ |}
          "GET" []) 3%float) =
    [did (log_error http_unexpected (Some (KeyError "host")));
     did (_bot_disconnect example_bot)].
Proof.
  apply (missing_host_ends_the_loop 3 example_bot
           (HTTPRequest {| scheme := "http"; path := "/"; query_string := []; headers := ∅ |}
              "GET" []) 3%float (example_world 200 100) 0).
  reflexivity.
Defined.

(** ** [startup] and [shutdown] at their edges *)

(** X4: With no request registered [startup] does not wait for anything before
    the hooks: its first step, on whatever event loop its task has been
    created, creates the task of every registered startup hook after the
    tasks the loop has, and with no hook either it does nothing at all and
    returns. *)
Theorem startup_without_requests (self : Driver) (fuel : nat) (w : world) :
  requests self = [] ->
  (forall n : nat,
     trace w n (startup self) = startup_funcs_trace self w n /\
     (startup_hooks self = [] ->
      trace w n (startup self) = [] /\ result w n (startup self) = finished None)) /\
  (forall (l : loop) (t i : nat) (c : call),
     tasks l !! t = Some {| coroutine := call_startup; state := Fresh |} ->
     startup_hooks self !! i = Some c ->
     tasks (step self fuel w (run_task t) l) !! (length (tasks l) + i) =
       Some {| coroutine := c; state := Fresh |}).
Proof.
  intros Hreq. split.
  - intros n. unfold startup. rewrite Hreq. simpl.
    pose proof (run_startup_funcs_trace self w n) as [Htr Hr]. split; [done|].
    intros Hh. rewrite Htr, Hr. unfold startup_funcs_trace. by rewrite Hh.
  - intros l t i c Ht Hi.
    assert (Hcode : exists k h,
      startup self = Await (gather (startup_hooks self)) k h).
    { unfold startup. rewrite Hreq. simpl. unfold run_startup_funcs.
      fold (startup_hooks self).
      destruct (startup_hooks self) as [|c0 cs]; [done|]. simpl. by eexists _, _. }
    destruct Hcode as (k & h & Hcode).
    apply (run_task_gather self fuel w l t
             {| coroutine := call_startup; state := Fresh |} (startup_hooks self) k h);
      [done | | done].
    cbn [next_code state coroutine body]. by rewrite Hcode.
Qed.

Lemma startup_without_requests_witness :
  tasks (step (on_startup (init ∅) "hello").1 2 (example_world 200 100) (run_task 0)
           (startup_scheduled (on_startup (init ∅) "hello").1)) !! 1 =
    Some {| coroutine := call_startup_func "hello"; state := Fresh |}.
Proof.
  apply (proj2 (startup_without_requests (on_startup (init ∅) "hello").1 2
                  (example_world 200 100) eq_refl)
           (startup_scheduled (on_startup (init ∅) "hello").1) 0 0
           (call_startup_func "hello")); vm_compute; reflexivity.
Defined.

(** X5: On whatever event loop the task of [startup] has been created, its
    first step creates the task of every setup, one for each request in the
    order of registration, after the tasks the loop has and before any of
    them runs. *)
Theorem startup_creates_all_setups (self : Driver) (fuel : nat) (w : world)
    (l : loop) (t : task_id) (i : nat) (s : RequestSetup) :
  tasks l !! t = Some {| coroutine := call_startup; state := Fresh |} ->
  requests self !! i = Some s ->
  tasks (step self fuel w (run_task t) l) !! (length (tasks l) + i) =
    Some {| coroutine := setup_call s; state := Fresh |}.
Proof.
  intros Ht Hi.
  assert (Hs : setups_of self !! i = Some (setup_call s)).
  { unfold setups_of. by rewrite list_lookup_fmap, Hi. }
  assert (Hcode : exists k h, startup self = Await (gather (setups_of self)) k h).
  { unfold startup. fold (setups_of self).
    destruct (setups_of self) as [|c0 cs]; [done|]. simpl. by eexists _, _. }
  destruct Hcode as (k & h & Hcode).
  apply (run_task_gather self fuel w l t
           {| coroutine := call_startup; state := Fresh |} (setups_of self) k h);
    [done | | done].
  cbn [next_code state coroutine body]. by rewrite Hcode.
Qed.

Lemma startup_creates_all_setups_witness :
  tasks (step example_driver 2 (example_world 200 100) (run_task 1)
           (run example_driver true
              (steps example_driver 2 (example_world 200 100) [foreign "main"] idle_loop)).2)
    !! 2 =
    Some {| coroutine := call_http_setup "cqhttp" example_request 3%float; state := Fresh |}.
Proof.
  apply (startup_creates_all_setups example_driver 2 (example_world 200 100)
           (run example_driver true
              (steps example_driver 2 (example_world 200 100) [foreign "main"] idle_loop)).2
           1 0
           {| adapter := "cqhttp"; request := example_request;
              poll_interval := 3%float; reconnect_interval := 3%float |});
    vm_compute; reflexivity.
Defined.

(** X6: [shutdown] calls [loop.stop()] exactly when it returns: an invocation
    that ends with an exception has not stopped the loop.  In particular an
    invocation that is cancelled while it awaits its hooks, or whose hooks
    raise something that is not an [Exception], cancels no task and does not
    stop the loop. *)
Theorem shutdown_stops_iff_it_returns (self : Driver) (signal : option Signals)
    (w : world) (n : nat) :
  length (List.filter is_stop (trace w n (shutdown self signal))) =
    match result w n (shutdown self signal) with
    | finished None => 1
    | _ => 0
    end /\
  (forall e : exn,
     shutdown_hooks self <> [] ->
     answer w n _ (gather (shutdown_hooks self)) = Thrown e ->
     is_Exception e = false ->
     trace w n (shutdown self signal) = [awaited_gather (shutdown_hooks self) (Thrown e)] /\
     result w n (shutdown self signal) = finished (Some e)).
Proof.
  assert (Hsweep : forall m,
    length (List.filter is_stop (sweep_trace w m)) =
      match result w m cancel_tasks_and_stop with finished None => 1 | _ => 0 end).
  { intros m. rewrite (proj2 (cancel_tasks_and_stop_trace w m)). unfold sweep_trace.
    destruct (other_tasks_at w m) as [|t ts]; [done|].
    simpl. rewrite List.filter_app, filter_is_stop_cancels.
    by destruct (answer w (S m) () (gather_tasks (t :: ts))) as [[]|e]. }
  split.
  - rewrite shutdown_trace. unfold shutdown. fold (shutdown_hooks self).
    destruct (shutdown_hooks self) as [|c cs]; simpl; [apply Hsweep|].
    destruct (answer w n () (gather (c :: cs))) as [[]|e]; simpl; [apply Hsweep|].
    destruct (is_Exception e); simpl; [apply Hsweep | done].
  - intros e Hne Ha He. rewrite shutdown_trace. unfold shutdown. fold (shutdown_hooks self).
    destruct (shutdown_hooks self) as [|c cs]; [done|]. simpl.
    rewrite Ha. simpl. by rewrite He.
Qed.

Lemma shutdown_stops_iff_it_returns_witness :
  trace (example_world 200 0) 0 (shutdown example_driver None) =
    [awaited_gather (shutdown_hooks example_driver) (Thrown CancelledError)] /\
  result (example_world 200 0) 0 (shutdown example_driver None) =
    finished (Some CancelledError).
Proof.
  apply (proj2 (shutdown_stops_iff_it_returns example_driver None (example_world 200 0) 0)
           CancelledError); [vm_compute; discriminate | reflexivity | reflexivity].
Defined.

Lemma bracket_app opens closes held tr1 tr2 :
  bracket opens closes held (tr1 ++ tr2) =
    match bracket opens closes held tr1 with
    | Some held' => bracket opens closes held' tr2
    | None => None
    end.
Proof.
  revert held. induction tr1 as [|l tr1 IH]; intros held; simpl; [done|].
  destruct (opens l); [destruct held; [done | apply IH]|].
  destruct (closes l); [destruct held; [apply IH | done]|]. apply IH.
Qed.

Lemma bracket_neutral opens closes held tr :
  Forall (fun l => opens l = false /\ closes l = false) tr ->
  bracket opens closes held tr = Some held.
Proof.
  induction 1 as [|l tr [Ho Hc] _ IH]; simpl; [done|]. by rewrite Ho, Hc.
Qed.

Lemma exit_tail_neutral (f : label -> bool) message bot r :
  (forall m e, f (did (log_error m e)) = false) ->
  (forall b, f (did (_bot_disconnect b)) = false) ->
  Forall (fun l => f l = false) (exit_tail message bot r).
Proof.
  intros Hl Hd. destruct r as [[e|]|]; simpl; [destruct (is_Exception e)| |];
    by repeat constructor.
Qed.

Lemma bracket_exit_tail opens closes held message bot r :
  (forall m e, opens (did (log_error m e)) = false) ->
  (forall b, opens (did (_bot_disconnect b)) = false) ->
  (forall m e, closes (did (log_error m e)) = false) ->
  (forall b, closes (did (_bot_disconnect b)) = false) ->
  bracket opens closes held (exit_tail message bot r) = Some held.
Proof.
  intros Ho1 Ho2 Hc1 Hc2. apply bracket_neutral.
  pose proof (exit_tail_neutral opens message bot r Ho1 Ho2) as H1.
  pose proof (exit_tail_neutral closes message bot r Hc1 Hc2) as H2.
  rewrite Forall_forall in H1, H2. apply Forall_forall. intros l Hl. split; auto.
Qed.

Section poll_shape.

Context (w : world) (bot : Bot) (request : HTTPConnection) (url : URL) (pi : float).

Lemma http_poll_forever_labels f n :
  Forall (poll_label bot request url pi) (trace w n (http_poll_forever f bot request url pi)).
Proof.
  revert n. induction f as [|f IH]; intros n; [constructor|].
  set (next := await (sleep pi) (fun _ => http_poll_forever f bot request url pi)).
  assert (Hsleep : forall m, Forall (poll_label bot request url pi) (trace w m next)).
  { intros m. simpl. destruct (answer w m () (sleep pi)) as [[]|e]; simpl;
      (constructor; [done|]); [apply IH | constructor]. }
  assert (Hlog : forall m e, is_ClientResponseError e = true ->
    Forall (poll_label bot request url pi)
      (trace w m (logger_error_text (http_request_failed url) (Some e) next))).
  { clearbody next. intros m e He. simpl.
    destruct (answer w m () (parse_markup _)) as [[]|e']; simpl;
      (constructor; [done|]); [|constructor].
    constructor; [by split; [|eexists] | apply Hsleep]. }
  simpl. unfold http_poll. simpl.
  destruct (answer w n ClientResponse _) as [resp|e]; simpl.
  - constructor; [done|].
    unfold try_finally. destruct (raise_for_status resp) as [e|] eqn:He; simpl.
    + apply raise_for_status_Some in He as ->. simpl.
      constructor; [done|]. by apply Hlog.
    + destruct (answer w (S n) bytes (response_read resp)) as [data|e]; simpl.
      * constructor; [done|]. constructor; [by eexists|]. constructor; [done|].
        apply Hsleep.
      * constructor; [done|]. constructor; [done|].
        destruct (is_ClientResponseError e) eqn:Hce; simpl; [|constructor].
        by apply Hlog.
  - constructor; [done|].
    destruct (is_ClientResponseError e) eqn:Hce; simpl; [|constructor].
    by apply Hlog.
Qed.

Lemma http_poll_forever_released f n :
  bracket got_response is_release false (trace w n (http_poll_forever f bot request url pi)) =
    Some false.
Proof.
  revert n. induction f as [|f IH]; intros n; [done|].
  set (next := await (sleep pi) (fun _ => http_poll_forever f bot request url pi)).
  assert (Hsleep : forall m,
    bracket got_response is_release false (trace w m next) = Some false).
  { intros m. simpl. destruct (answer w m () (sleep pi)) as [[]|e]; simpl; [apply IH | done]. }
  assert (Hlog : forall m e,
    bracket got_response is_release false
      (trace w m (logger_error_text (http_request_failed url) e next)) = Some false).
  { clearbody next. intros m e. simpl.
    destruct (answer w m () (parse_markup _)) as [[]|e']; simpl; [apply Hsleep | done]. }
  simpl. unfold http_poll. simpl.
  destruct (answer w n ClientResponse _) as [resp|e]; simpl.
  - unfold try_finally. destruct (raise_for_status resp) as [e|] eqn:He; simpl.
    + apply raise_for_status_Some in He as ->. simpl. apply Hlog.
    + destruct (answer w (S n) bytes (response_read resp)) as [data|e]; simpl.
      * apply Hsleep.
      * destruct (is_ClientResponseError e) eqn:Hce; simpl; [apply Hlog | done].
  - destruct (is_ClientResponseError e) eqn:Hce; simpl; [apply Hlog | done].
Qed.

End poll_shape.

Lemma poll_label_no_session bot request url p l :
  poll_label bot request url p l -> is_session_open l = false /\ is_session_close l = false.
Proof. destruct l as [e| | | | | | | | | | | |]; [by destruct e | done..]. Qed.

Lemma session_tail_neutral (f : label -> bool) message bot r :
  f (did session_close) = false ->
  (forall m e, f (did (log_error m e)) = false) ->
  (forall b, f (did (_bot_disconnect b)) = false) ->
  Forall (fun l => f l = false) (session_tail message bot r).
Proof.
  intros Hs Hl Hd. apply Forall_app. split; [|by apply exit_tail_neutral].
  destruct r as [[?|]|]; by repeat constructor.
Qed.

(** The session of a loop is opened at most once and never closed without
    being open; it is open at the end of the run only if the bound of the
    model has cut the run off. *)
Lemma loop_session_bracket w n message bot request inner :
  (forall url m, Forall (fun l => is_session_open l = false /\ is_session_close l = false)
                   (trace w m (inner url))) ->
  bracket is_session_open is_session_close false
    (trace w n (guarded message bot (with_url request (session request inner)))) =
    Some match result w n (guarded message bot (with_url request (session request inner))) with
         | unfinished => true
         | _ => false
         end.
Proof.
  intros Hinner.
  destruct (loop_cases w n message bot request inner)
    as [(_ & -> & ->)|[(host & e & _ & _ & -> & ->)|(host & url & _ & _ & -> & ->)]].
  - by rewrite (bracket_exit_tail _ _ false _ _ (finished (Some (KeyError "host")))).
  - cbn [observe build_for bracket is_session_open is_session_close].
    rewrite (bracket_exit_tail _ _ false _ _ (finished (Some e))) by done.
    simpl. by destruct (is_CancelledError e || is_Exception e).
  - cbn [observe build_for bracket is_session_open is_session_close].
    rewrite bracket_app, (bracket_neutral _ _ true (trace w (S n) (inner url))) by apply Hinner.
    unfold session_tail.
    destruct (result w (S n) (inner url)) as [[e|]|];
      cbn [app bracket is_session_open is_session_close];
      rewrite ?bracket_exit_tail by done; [|done..].
    simpl. by destruct (is_CancelledError e || is_Exception e).
Qed.

(** X7: A run of the poll loop for a request with a [host] header begins
    with the call of [URL.build] on the scheme, the host, the path and the
    query string of the request, decoded as Latin-1.  If the call raises,
    nothing is opened or sent: the exception meets the handlers of the loop
    and the bot is disconnected.  If it returns an address, the session is
    opened, with the headers of the request and a timeout of 30; then come
    only labels of the loop, so that every request has the method and the
    body of the request and that address, every sleep is [poll_interval],
    tasks are created for [bot.handle_message] of this bot only, and
    nothing but a failed request is logged, with the text of the address in
    the message; when the loop ends the session is closed, and only then
    follow the unexpected-exception message, if any, and the
    disconnection. *)
Theorem poll_loop_shape (fuel : nat) (bot : Bot) (request : HTTPConnection) (p : float)
    (w : world) (n : nat) (host : string) :
  headers (info_of request) !! "host" = Some host ->
  match answer w n _ (build_for request host) with
  | Returned url =>
      exists (inner : list label) (r0 : ending),
        trace w n (_http_loop fuel bot request p) =
          called_URL_build (scheme (info_of request)) host (path (info_of request))
            (decode_latin1 (query_string (info_of request))) (Returned url) ::
          did (session_open (headers (info_of request)) 30) ::
          inner ++ session_tail http_unexpected bot r0 /\
        result w n (_http_loop fuel bot request p) = exit_result r0 /\
        Forall (poll_label bot request url p) inner /\
        (r0 = unfinished -> requests_made inner = fuel)
  | Thrown e =>
      trace w n (_http_loop fuel bot request p) =
        called_URL_build (scheme (info_of request)) host (path (info_of request))
          (decode_latin1 (query_string (info_of request))) (Thrown e) ::
        exit_tail http_unexpected bot (finished (Some e)) /\
      result w n (_http_loop fuel bot request p) = exit_result (finished (Some e))
  end.
Proof.
  intros Hhost. rewrite http_loop_guarded. unfold http_session.
  destruct (loop_cases w n http_unexpected bot request
              (fun url => http_poll_forever fuel bot request url p))
    as [(H & _)|[(host' & e & H & Ha & Ht & Hr)|(host' & url & H & Ha & Ht & Hr)]];
    rewrite Hhost in H; simplify_eq; rewrite Ha.
  - by split.
  - eexists _, _. split_and!; [exact Ht | exact Hr | apply http_poll_forever_labels |].
    apply http_poll_forever_fuel.
Qed.

Lemma poll_loop_shape_witness :
  exists (inner : list label) (r0 : ending),
    trace (example_world 200 4) 0 (_http_loop 3 example_bot example_request 3%float) =
      called_URL_build "http" "example.org" "/poll" "" (Returned example_url) ::
      did (session_open (headers (info_of example_request)) 30) ::
      inner ++ session_tail http_unexpected example_bot r0 /\
    result (example_world 200 4) 0 (_http_loop 3 example_bot example_request 3%float) =
      exit_result r0 /\
    Forall (poll_label example_bot example_request example_url 3%float) inner /\
    (r0 = unfinished -> requests_made inner = 3).
Proof.
  exact (poll_loop_shape 3 example_bot example_request 3%float (example_world 200 4) 0
           "example.org" eq_refl).
Defined.

(** X8: In every run of the poll loop every response received is released
    before the next request is sent and before the loop ends, none is
    released twice, and the session is opened at most once and never closed
    without being open; it is open at the end of the run only if the run is
    one the iteration bound has cut off. *)
Theorem poll_loop_releases (fuel : nat) (bot : Bot) (request : HTTPConnection) (p : float)
    (w : world) (n : nat) :
  bracket got_response is_release false (trace w n (_http_loop fuel bot request p)) =
    Some false /\
  bracket is_session_open is_session_close false (trace w n (_http_loop fuel bot request p)) =
    Some match result w n (_http_loop fuel bot request p) with
         | unfinished => true
         | _ => false
         end.
Proof.
  rewrite http_loop_guarded. unfold http_session. split.
  - destruct (loop_cases w n http_unexpected bot request
                (fun url => http_poll_forever fuel bot request url p))
      as [(_ & -> & _)|[(host & e & _ & _ & -> & _)|(host & url & _ & _ & -> & _)]].
    + by rewrite (bracket_exit_tail _ _ false _ _ (finished (Some (KeyError "host")))).
    + cbn [observe build_for bracket got_response is_release].
      by rewrite (bracket_exit_tail _ _ false _ _ (finished (Some e))).
    + cbn [observe build_for bracket got_response is_release].
      rewrite bracket_app, http_poll_forever_released.
      apply bracket_neutral.
      pose proof (session_tail_neutral got_response http_unexpected bot
                    (result w (S n) (http_poll_forever fuel bot request url p))) as H1.
      pose proof (session_tail_neutral is_release http_unexpected bot
                    (result w (S n) (http_poll_forever fuel bot request url p))) as H2.
      rewrite Forall_forall in H1, H2. apply Forall_forall. intros l Hl. split; auto.
  - apply loop_session_bracket. intros url m.
    eapply Forall_impl; [apply http_poll_forever_labels|].
    intros l. apply poll_label_no_session.
Qed.

Lemma poll_loop_releases_witness :
  bracket got_response is_release false
    (trace (example_world 500 4) 0 (_http_loop 3 example_bot example_request 3%float)) =
    Some false.
Proof.
  exact (proj1 (poll_loop_releases 3 example_bot example_request 3%float
                  (example_world 500 4) 0)).
Defined.

Lemma retry_follows_app p l s r tail r' :
  (r = unfinished -> tail = [] /\ r' = unfinished) ->
  retry_follows p l s r -> retry_follows p l (s ++ tail) r'.
Proof.
  intros Hr. destruct l as [| | |m u d [resp|e]|resp [data|e]| | | | | | | |]; try done; simpl.
  - intros H He. by eapply logged_then_sleeps_app; [|apply H].
  - intros H He. destruct (H He) as (m & u & d & s1 & -> & Hn).
    exists m, u, d, (s1 ++ tail). split; [done|]. by eapply logged_then_sleeps_app.
Qed.

Section retry.

Context (w : world) (bot : Bot) (request : HTTPConnection) (url : URL) (pi : float).

Lemma http_poll_forever_retry f n :
  after_each (retry_follows pi)
    (trace w n (http_poll_forever f bot request url pi))
    (result w n (http_poll_forever f bot request url pi)).
Proof.
  revert n. induction f as [|f IH]; intros n; [apply after_each_nil|].
  set (next := await (sleep pi) (fun _ => http_poll_forever f bot request url pi)).
  assert (Hsleep : forall m,
    after_each (retry_follows pi) (trace w m next) (result w m next) /\
    exists o' s2, trace w m next = awaited_sleep pi o' :: s2 /\
      (o' = Returned tt ->
       next_request (method_of request) url (body_of request) s2 (result w m next))).
  { intros m. simpl. destruct (answer w m () (sleep pi)) as [[]|e]; simpl.
    - split; [apply after_each_cons; [done | apply IH]|].
      eexists _, _. split; [done|]. intros _. apply http_poll_forever_next.
    - split; [apply after_each_cons; [done | apply after_each_nil]|].
      eexists _, _. split; [done|]. done. }
  assert (Hlog : forall m e,
    after_each (retry_follows pi)
      (trace w m (logger_error_text (http_request_failed url) (Some e) next))
      (result w m (logger_error_text (http_request_failed url) (Some e) next)) /\
    logged_then_sleeps pi (method_of request) url (body_of request) e
      (trace w m (logger_error_text (http_request_failed url) (Some e) next))
      (result w m (logger_error_text (http_request_failed url) (Some e) next))).
  { clearbody next. intros m e. simpl.
    destruct (answer w m () (parse_markup _)) as [[]|e']; simpl.
    - destruct (Hsleep (S m)) as [H1 (o' & s2 & Heq & Hn)]. split.
      + do 2 (apply after_each_cons; [done|]). exact H1.
      + eexists _, _. split; [done|]. intros _. rewrite Heq. by exists o', s2.
    - split; [apply after_each_cons; [done | apply after_each_nil]|].
      eexists _, _. split; [done|]. done. }
  simpl. unfold http_poll. simpl.
  destruct (answer w n ClientResponse _) as [resp|e]; simpl.
  - apply after_each_cons; [done|].
    unfold try_finally. destruct (raise_for_status resp) as [e|] eqn:He; simpl.
    + apply raise_for_status_Some in He as ->. simpl.
      apply after_each_cons; [done|]. apply (Hlog (S n)).
    + destruct (answer w (S n) bytes (response_read resp)) as [data|e]; simpl.
      * do 3 (apply after_each_cons; [done|]). apply (Hsleep (S (S n))).
      * destruct (is_ClientResponseError e) eqn:Hce; simpl.
        -- destruct (Hlog (S (S n)) e) as [H1 H2].
           apply after_each_cons; [|apply after_each_cons; [done | exact H1]].
           simpl. intros _. eexists _, _, _, _. split; [done | exact H2].
        -- apply after_each_cons; [simpl; congruence|].
           apply after_each_cons; [done | apply after_each_nil].
  - destruct (is_ClientResponseError e) eqn:Hce; simpl.
    + destruct (Hlog (S n) e) as [H1 H2].
      apply after_each_cons; [|exact H1]. simpl. intros _. exact H2.
    + apply after_each_cons; [simpl; congruence | apply after_each_nil].
Qed.

End retry.

(** X9: In every run of the poll loop a request that raises
    [ClientResponseError], and a read of a response that does, do not end
    the loop: the response, if there is one, is released, the logger is
    called with the message that holds the address and, if it accepts the
    message, the failure is logged, the loop sleeps [poll_interval] and
    then sends the next request.  Where the next request is missing from a
    trace the bound of the model has been reached, and then the trace holds
    as many requests as the bound allows. *)
Theorem failed_request_is_retried (fuel : nat) (bot : Bot) (request : HTTPConnection)
    (p : float) (w : world) (n : nat) :
  after_each (retry_follows p)
    (trace w n (_http_loop fuel bot request p))
    (result w n (_http_loop fuel bot request p)) /\
  (result w n (_http_loop fuel bot request p) = unfinished ->
   requests_made (trace w n (_http_loop fuel bot request p)) = fuel).
Proof.
  split; [|apply http_loop_fuel].
  rewrite http_loop_guarded. unfold http_session.
  eapply loop_after_each.
  - intros l s r. by destruct l as [[]| | | | | | | | | | | |].
  - intros url m. apply http_poll_forever_retry.
  - intros l s r. apply retry_follows_app. by intros ->.
Qed.

Lemma failed_request_is_retried_witness :
  exists o s',
    drop 3 (trace flaky_world 0 (_http_loop 3 example_bot example_request 3%float)) =
      parsed_markup (http_request_failed example_url) (Returned tt) ::
      did (log_error (http_request_failed example_url) (Some (ClientResponseError 502))) ::
      awaited_sleep 3%float (Returned tt) ::
      awaited_request "POST" example_url [] o :: s'.
Proof.
  destruct (proj1 (failed_request_is_retried 3 example_bot example_request 3%float
                     flaky_world 0)
              2 (awaited_request "POST" example_url [] (Thrown (ClientResponseError 502)))
              eq_refl eq_refl)
    as (o1 & s1 & H1 & H2).
  vm_compute in H1. injection H1 as <- <-.
  destruct (H2 eq_refl) as (o' & s2 & H3 & H4).
  injection H3 as <- <-.
  destruct (H4 eq_refl) as [[H5 _]|(o & s' & H5)]; [discriminate H5|].
  exists o, s'. vm_compute. vm_compute in H5. by rewrite <- H5.
Defined.

Lemma other_frame_follows_app l s r tail r' :
  (r = unfinished -> tail = [] /\ r' = unfinished) ->
  other_frame_follows l s r -> other_frame_follows l (s ++ tail) r'.
Proof.
  intros Hr. destruct l as [| | | | | | |[[[data|data| |]|]|]| | | | |]; try done; simpl.
  by apply next_frame_app.
Qed.

Section ws_shape.

Context (w : world) (bot : Bot) (url : URL) (ri : float).

Lemma ws_frames_labels f n :
  Forall (fun l => ws_label bot url ri l /\ is_connected l = false /\ is_ws_close l = false)
    (trace w n (ws_frames f bot)).
Proof.
  revert n. induction f as [|f IH]; intros n; [constructor|].
  simpl. destruct (answer w n _ ws_next) as [[[data|data| |]|]|e]; simpl.
  - destruct (encode data) as [b|]; simpl; [|by repeat constructor].
    constructor; [done|]. constructor; [|apply IH]. split; [by eexists | done].
  - constructor; [done|]. constructor; [|apply IH]. split; [by eexists | done].
  - by repeat constructor.
  - constructor; [done | apply IH].
  - by repeat constructor.
  - by repeat constructor.
Qed.

Lemma ws_frames_other f n :
  after_each other_frame_follows (trace w n (ws_frames f bot)) (result w n (ws_frames f bot)).
Proof.
  revert n. induction f as [|f IH]; intros n; [apply after_each_nil|].
  simpl. destruct (answer w n _ ws_next) as [[[data|data| |]|]|e]; simpl.
  - destruct (encode data) as [b|]; simpl.
    + do 2 (apply after_each_cons; [done|]). apply IH.
    + apply after_each_cons; [done | apply after_each_nil].
  - do 2 (apply after_each_cons; [done|]). apply IH.
  - apply after_each_cons; [done | apply after_each_nil].
  - apply after_each_cons; [|apply IH]. simpl. apply ws_frames_next.
  - apply after_each_cons; [done | apply after_each_nil].
  - apply after_each_cons; [done | apply after_each_nil].
Qed.

Lemma ws_forever_labels f frames n :
  Forall (ws_label bot url ri) (trace w n (ws_forever f frames bot url ri)).
Proof.
  revert n. induction f as [|f IH]; intros n; [constructor|].
  simpl. destruct (answer w n _ (ws_connect url)) as [[]|e]; simpl; [|by repeat constructor].
  constructor; [done|].
  rewrite trace_followed_by, trace_try_finally, result_try_finally, after_try_finally.
  rewrite !Forall_app. split_and!.
  - eapply Forall_impl; [apply ws_frames_labels|]. by intros l [? _].
  - destruct (result _ _ _) as [[?|]|]; by repeat constructor.
  - destruct (result _ _ _) as [[?|]|]; simpl; try constructor; [done | apply IH].
Qed.

Lemma ws_forever_other f frames n :
  after_each other_frame_follows
    (trace w n (ws_forever f frames bot url ri))
    (result w n (ws_forever f frames bot url ri)).
Proof.
  revert n. induction f as [|f IH]; intros n; [apply after_each_nil|].
  simpl. destruct (answer w n _ (ws_connect url)) as [[]|e]; simpl;
    (apply after_each_cons; [done|]); [|apply after_each_nil].
  rewrite trace_followed_by, result_followed_by, trace_try_finally, result_try_finally,
    after_try_finally.
  pose proof (ws_frames_other frames (S n)) as Hf.
  destruct (result w (S n) (ws_frames frames bot)) as [[e|]|] eqn:Hr; simpl.
  - rewrite app_nil_r. eapply after_each_app; [exact Hf | |].
    + by apply after_each_cons; [|apply after_each_nil].
    + intros l s. by apply other_frame_follows_app.
  - rewrite <- app_assoc. eapply after_each_app; [exact Hf | |].
    + do 2 (apply after_each_cons; [done|]). apply IH.
    + intros l s. by apply other_frame_follows_app.
  - rewrite !app_nil_r. exact Hf.
Qed.

(** A connection that is open is closed before the next one is opened; it
    is still open at the end only if the iteration bound cut the run off
    among its frames. *)
Lemma ws_forever_closes f frames n :
  exists held,
    bracket is_connected is_ws_close false (trace w n (ws_forever f frames bot url ri)) =
      Some held /\
    (result w n (ws_forever f frames bot url ri) <> unfinished -> held = false).
Proof.
  revert n. induction f as [|f IH]; intros n; [by exists false|].
  simpl. destruct (answer w n _ (ws_connect url)) as [[]|e]; simpl; [|by exists false].
  rewrite trace_followed_by, result_followed_by, trace_try_finally, result_try_finally,
    after_try_finally, !bracket_app.
  rewrite (bracket_neutral _ _ true (trace w (S n) (ws_frames frames bot))).
  2:{ eapply Forall_impl; [apply ws_frames_labels|]. by intros l (_ & ? & ?). }
  destruct (result w (S n) (ws_frames frames bot)) as [[e|]|]; simpl.
  - by exists false.
  - apply IH.
  - by exists true.
Qed.

End ws_shape.

Lemma ws_label_no_session bot url ri l :
  ws_label bot url ri l -> is_session_open l = false /\ is_session_close l = false.
Proof. destruct l as [e| | | | | | | | | | | |]; [by destruct e | done..]. Qed.

(** X10: A run of the reconnect loop for a request with a [host] header
    begins with the call of [URL.build] on the scheme, the host, the path
    and the query string of the request, decoded as Latin-1.  If the call
    raises, nothing is opened: the exception meets the handlers of the loop
    and the bot is disconnected.  If it returns an address, the session is
    opened, with the headers of the request and a timeout of 30; then come
    only labels of the loop, so that every connection goes to that address,
    no sleep is awaited, tasks are created for [bot.handle_message] of this
    bot only, and nothing is logged; when the loop ends the session is
    closed, and only then follow the unexpected-exception message, if any,
    and the disconnection. *)
Theorem reconnect_loop_shape (fuel : nat) (bot : Bot) (request : HTTPConnection) (p : float)
    (w : world) (n : nat) (host : string) :
  headers (info_of request) !! "host" = Some host ->
  match answer w n _ (build_for request host) with
  | Returned url =>
      exists (inner : list label) (r0 : ending),
        trace w n (_ws_loop fuel bot request p) =
          called_URL_build (scheme (info_of request)) host (path (info_of request))
            (decode_latin1 (query_string (info_of request))) (Returned url) ::
          did (session_open (headers (info_of request)) 30) ::
          inner ++ session_tail ws_unexpected bot r0 /\
        result w n (_ws_loop fuel bot request p) = exit_result r0 /\
        Forall (ws_label bot url p) inner /\
        (r0 = unfinished -> connections inner = fuel \/ frames_awaited 0 inner = fuel)
  | Thrown e =>
      trace w n (_ws_loop fuel bot request p) =
        called_URL_build (scheme (info_of request)) host (path (info_of request))
          (decode_latin1 (query_string (info_of request))) (Thrown e) ::
        exit_tail ws_unexpected bot (finished (Some e)) /\
      result w n (_ws_loop fuel bot request p) = exit_result (finished (Some e))
  end.
Proof.
  intros Hhost. rewrite ws_loop_guarded. unfold ws_session.
  destruct (loop_cases w n ws_unexpected bot request
              (fun url => ws_forever fuel fuel bot url p))
    as [(H & _)|[(host' & e & H & Ha & Ht & Hr)|(host' & url & H & Ha & Ht & Hr)]];
    rewrite Hhost in H; simplify_eq; rewrite Ha.
  - by split.
  - eexists _, _. split_and!; [exact Ht | exact Hr | apply ws_forever_labels |].
    apply ws_forever_fuel.
Qed.

Lemma reconnect_loop_shape_witness :
  exists (inner : list label) (r0 : ending),
    trace (example_world 200 7) 0 (_ws_loop 3 example_bot example_socket 3%float) =
      called_URL_build "http" "example.org" "/poll" "" (Returned example_url) ::
      did (session_open (headers (info_of example_socket)) 30) ::
      inner ++ session_tail ws_unexpected example_bot r0 /\
    result (example_world 200 7) 0 (_ws_loop 3 example_bot example_socket 3%float) =
      exit_result r0 /\
    Forall (ws_label example_bot example_url 3%float) inner /\
    (r0 = unfinished -> connections inner = 3 \/ frames_awaited 0 inner = 3).
Proof.
  exact (reconnect_loop_shape 3 example_bot example_socket 3%float (example_world 200 7) 0
           "example.org" eq_refl).
Defined.

(** X11: In every run of the reconnect loop a connection that has been opened is
    closed before the next one is opened and before the loop ends, so that
    the loop never holds two connections, and none is closed twice; the
    same holds for the session.  Whatever is still open at the end belongs
    to a run the iteration bound has cut off. *)
Theorem reconnect_loop_closes (fuel : nat) (bot : Bot) (request : HTTPConnection) (p : float)
    (w : world) (n : nat) :
  (exists held : bool,
     bracket is_connected is_ws_close false (trace w n (_ws_loop fuel bot request p)) =
       Some held /\
     (result w n (_ws_loop fuel bot request p) <> unfinished -> held = false)) /\
  bracket is_session_open is_session_close false (trace w n (_ws_loop fuel bot request p)) =
    Some match result w n (_ws_loop fuel bot request p) with
         | unfinished => true
         | _ => false
         end.
Proof.
  rewrite ws_loop_guarded. unfold ws_session. split.
  - destruct (loop_cases w n ws_unexpected bot request
                (fun url => ws_forever fuel fuel bot url p))
      as [(_ & -> & _)|[(host & e & _ & _ & -> & ->)|(host & url & _ & _ & -> & ->)]].
    + exists false.
      by rewrite (bracket_exit_tail _ _ false _ _ (finished (Some (KeyError "host")))).
    + exists false. cbn [observe build_for bracket is_connected is_ws_close].
      by rewrite (bracket_exit_tail _ _ false _ _ (finished (Some e))).
    + destruct (ws_forever_closes w bot url p fuel fuel (S n)) as (held & Hb & Hheld).
      exists held. cbn [observe build_for bracket is_connected is_ws_close].
      rewrite bracket_app, Hb. split.
      * apply bracket_neutral.
        pose proof (session_tail_neutral is_connected ws_unexpected bot
                      (result w (S n) (ws_forever fuel fuel bot url p))) as H1.
        pose proof (session_tail_neutral is_ws_close ws_unexpected bot
                      (result w (S n) (ws_forever fuel fuel bot url p))) as H2.
        rewrite Forall_forall in H1, H2. apply Forall_forall. intros l Hl. split; auto.
      * intros Hr. apply Hheld. intros Hu. rewrite Hu in Hr. by apply Hr.
  - apply loop_session_bracket. intros url m.
    eapply Forall_impl; [apply ws_forever_labels|].
    intros l. apply ws_label_no_session.
Qed.

Lemma reconnect_loop_closes_witness :
  exists held : bool,
    bracket is_connected is_ws_close false
      (trace (example_world 200 7) 0 (_ws_loop 3 example_bot example_socket 3%float)) =
      Some held /\
    (result (example_world 200 7) 0 (_ws_loop 3 example_bot example_socket 3%float) <>
       unfinished -> held = false).
Proof.
  exact (proj1 (reconnect_loop_closes 3 example_bot example_socket 3%float
                  (example_world 200 7) 0)).
Defined.

(** X12: In every run of the reconnect loop a frame that is neither text nor
    binary nor an error is skipped: nothing is dispatched or logged for it,
    and the next frame is awaited.  Where the next frame is missing from a
    trace the bound of the model has been reached, and then the trace holds
    as many connections as the bound allows, or as many frames of the last
    connection. *)
Theorem other_frames_are_skipped (fuel : nat) (bot : Bot) (request : HTTPConnection)
    (p : float) (w : world) (n : nat) :
  after_each other_frame_follows
    (trace w n (_ws_loop fuel bot request p))
    (result w n (_ws_loop fuel bot request p)) /\
  (result w n (_ws_loop fuel bot request p) = unfinished ->
   connections (trace w n (_ws_loop fuel bot request p)) = fuel \/
   frames_awaited 0 (trace w n (_ws_loop fuel bot request p)) = fuel).
Proof.
  split; [|apply ws_loop_fuel].
  rewrite ws_loop_guarded. unfold ws_session.
  eapply loop_after_each.
  - intros l s r. by destruct l as [[]| | | | | | | | | | | |].
  - intros url m. apply ws_forever_other.
  - intros l s r. apply other_frame_follows_app. by intros ->.
Qed.

Lemma other_frames_are_skipped_witness :
  exists o s',
    drop 4 (trace flaky_world 0 (_ws_loop 3 example_bot example_socket 3%float)) =
      awaited_ws_next o :: s'.
Proof.
  destruct (proj1 (other_frames_are_skipped 3 example_bot example_socket 3%float flaky_world 0)
              3 (awaited_ws_next (Returned (Some OtherFrame))) eq_refl)
    as [[H _]|(o & s' & H)]; [discriminate H|].
  by exists o, s'.
Defined.

(** ** What the sweep leaves of the other tasks *)

Lemma same_or_cancelled_cancelled st st' :
  same_or_cancelled (cancelled st) st' -> st' = cancelled st.
Proof. intros [->| ->]; [done | apply cancelled_idem]. Qed.

Lemma cancelled_same_or_cancelled st st' :
  same_or_cancelled st st' -> cancelled st' = cancelled st.
Proof. intros [->| ->]; [done | apply cancelled_idem]. Qed.

Lemma lookup_cancel_task_any d t ts u tk :
  ts !! u = Some tk ->
  exists tk', cancel_task d t ts !! u = Some tk' /\ coroutine tk' = coroutine tk /\
    same_or_cancelled (state tk) (state tk').
Proof.
  intros Hu. destruct (grows_cancel_task (fun _ => true) d t ts) as (_ & Hold & _).
  by apply Hold.
Qed.

Lemma lookup_cancel_task_self d t ts tk :
  ts !! t = Some tk ->
  cancel_task d t ts !! t = Some {| coroutine := coroutine tk; state := cancelled (state tk) |}.
Proof.
  intros Ht.
  assert (Hset : set_state t (cancelled (state tk)) ts !! t =
                 Some {| coroutine := coroutine tk; state := cancelled (state tk) |})
    by (by apply lookup_set_state_eq).
  destruct d as [|d]; simpl; rewrite Ht; [done|].
  revert Hset. generalize (set_state t (cancelled (state tk)) ts). intros ts0 Hset.
  induction (children_of (state tk)) as [|c cs IH]; simpl; [done|].
  destruct (lookup_cancel_task_any d c _ t _ IH) as ([c' st'] & Hl & Hc & Hs).
  simpl in Hc, Hs. apply same_or_cancelled_cancelled in Hs. by subst.
Qed.

(** The tasks after [for task in tasks: task.cancel()]: whatever is in the
    list is cancelled, whatever is not is as it was or cancelled. *)
Lemma cancel_all_states me ts l u tk :
  tasks l !! u = Some tk ->
  exists tk',
    tasks (cancel_all me ts l) !! u = Some tk' /\ coroutine tk' = coroutine tk /\
    same_or_cancelled (state tk) (state tk') /\
    (u ∈ ts -> state tk' = cancelled (state tk)).
Proof.
  revert l tk. induction ts as [|t ts IH]; intros l tk Hu.
  - exists tk. split_and!; [done | done | by left | by intros ?%elem_of_nil].
  - change (cancel_all me (t :: ts) l) with (cancel_all me ts (perform me (cancel t) l)).
    assert (Hstep : exists tk1,
      tasks (perform me (cancel t) l) !! u = Some tk1 /\ coroutine tk1 = coroutine tk /\
      same_or_cancelled (state tk) (state tk1) /\
      (u = t -> state tk1 = cancelled (state tk))).
    { simpl. destruct (lookup_cancel_task_any (length (tasks l)) t _ u _ Hu)
        as (tk1 & H1 & C1 & S1).
      exists tk1. split_and!; [done | done | done |].
      intros ->. rewrite (lookup_cancel_task_self _ _ _ _ Hu) in H1. by simplify_eq. }
    destruct Hstep as (tk1 & H1 & C1 & S1 & E1).
    destruct (IH _ _ H1) as (tk' & H' & C' & S' & E').
    exists tk'. split_and!; [done | congruence | by eapply same_or_cancelled_trans |].
    intros [->|Hin]%elem_of_cons.
    + rewrite (E1 eq_refl) in S'. by apply same_or_cancelled_cancelled in S'.
    + rewrite (E' Hin). by apply cancelled_same_or_cancelled.
Qed.

(** X13: The sweep of [shutdown], run by task [me] up to its [gather]:
    every task of the loop but [me] has had [cancel()] called on it once it
    is over, and a task that was done is as it was.  A task that has not
    begun, or is suspended on something outside, will have [CancelledError]
    thrown in; a task suspended on a [gather] stays suspended, and its
    children are cancelled in its place. *)
Theorem sweep_cancels_every_other_task (me : task_id) (l : loop) (u : task_id) (tk : task) :
  tasks l !! u = Some tk -> u <> me ->
  tasks (exec me cancel_tasks_and_stop l).1 !! u =
    Some {| coroutine := coroutine tk; state := cancelled (state tk) |} /\
  (is_done (state tk) = true -> cancelled (state tk) = state tk) /\
  (is_joining (state tk) = true -> is_joining (cancelled (state tk)) = true).
Proof.
  intros Hu Hne. split; [|by destruct (state tk)].
  assert (Hdone : is_done (state tk) = true ->
                  Some tk = Some {| coroutine := coroutine tk; state := cancelled (state tk) |}).
  { destruct tk as [c st]. simpl. by destruct st. }
  rewrite exec_sweep.
  destruct (other_tasks me (tasks l)) as [|o os] eqn:Hos.
  - simpl. rewrite Hu. apply Hdone.
    destruct (is_done (state tk)) eqn:Hd; [done|].
    assert (Hin : u ∈ other_tasks me (tasks l)).
    { apply elem_of_other_tasks. split; [done|]. by exists tk. }
    rewrite Hos in Hin. by apply elem_of_nil in Hin.
  - rewrite <- Hos. cbn [fst].
    destruct (cancel_all_states me (other_tasks me (tasks l)) l u tk Hu)
      as ([c' st'] & H' & C' & S' & E'). simpl in *. subst c'.
    rewrite H'. do 2 f_equal.
    destruct (is_done (state tk)) eqn:Hd.
    + destruct (state tk) as [| | | | | | |r|]; try done.
      by destruct S' as [->| ->].
    + apply E'. apply elem_of_other_tasks. split; [done|]. by exists tk.
Qed.

Lemma sweep_cancels_every_other_task_witness :
  tasks (exec 3 cancel_tasks_and_stop signalled_run).1 !! 2 =
    Some {| coroutine := call_http_loop example_bot example_request 3%float;
            state := Throw CancelledError Raise |}.
Proof.
  exact (proj1 (sweep_cancels_every_other_task 3 signalled_run 2
           {| coroutine := call_http_loop example_bot example_request 3%float; state := Fresh |}
           eq_refl ltac:(lia))).
Defined.

(** ** A loop that is swept before it has begun *)

Lemma tame_sweep_state ts :
  tame_state (fun _ => true) (Joining true ts (Do loop_stop Return) Raise).
Proof. split; [|intros e; constructor]. apply tame_effect; [done | constructor]. Qed.

(** X14: A task that has not taken its first step when [shutdown] sweeps is
    cancelled before it begins: it ends with [CancelledError] without
    running any of its code.  For the task of a loop this means that its
    [finally] clause does not run either: the bot that the setup connected
    stays in the table of connected bots. *)
Theorem swept_before_first_step (self : Driver) (fuel : nat) (w : world) (l : loop)
    (me : task_id) (tkme : task) (t : task_id) (c : call) :
  tasks l !! me = Some tkme ->
  next_code self fuel tkme = Some cancel_tasks_and_stop ->
  tasks l !! t = Some {| coroutine := c; state := Fresh |} ->
  t <> me ->
  tasks (step self fuel w (run_task me) l) !! t =
    Some {| coroutine := c; state := Throw CancelledError Raise |} /\
  state_of (tasks (steps self fuel w [run_task me; run_task t] l)) t =
    Some (Done (Some CancelledError)) /\
  _clients (steps self fuel w [run_task me; run_task t] l) = _clients l /\
  history (steps self fuel w [run_task me; run_task t] l) =
    history (step self fuel w (run_task me) l).
Proof.
  intros Hme Hcode Ht Hne.
  assert (Hlt : me < length (tasks l)) by (by eapply lookup_lt_Some).
  set (l0 := with_tasks (set_state me (Running false) (tasks l)) l).
  assert (Ht0 : tasks l0 !! t = Some {| coroutine := c; state := Fresh |}).
  { simpl. by rewrite lookup_set_state_ne. }
  assert (Hme0 : tasks l0 !! me =
                 Some {| coroutine := coroutine tkme; state := Running false |}).
  { simpl. by apply lookup_set_state_eq. }
  assert (Hin : t ∈ other_tasks me (tasks l0)).
  { apply elem_of_other_tasks. split; [done|]. by eexists. }
  set (ots := other_tasks me (tasks l0)) in *.
  set (l' := cancel_all me ots l0).
  assert (Hexec : exec me cancel_tasks_and_stop l0 =
                  (l', Joining true ots (Do loop_stop Return) Raise)).
  { rewrite exec_sweep. fold ots. destruct ots as [|o ots']; [|done].
    by apply elem_of_nil in Hin. }
  assert (Ht' : tasks l' !! t = Some {| coroutine := c; state := Throw CancelledError Raise |}).
  { destruct (cancel_all_states me ots l0 t _ Ht0) as ([c' st'] & H' & C' & _ & E').
    simpl in C', E'. rewrite (E' Hin) in H'. by subst c'. }
  destruct (cancel_all_states me ots l0 me _ Hme0) as (tkm' & Hm' & _ & Sm' & _).
  fold l' in Hm'.
  assert (Hrun : exists b, state tkm' = Running b).
  { destruct Sm' as [->| ->]; simpl; eauto. }
  destruct (settle_spec (fun _ => true) me (Joining true ots (Do loop_stop Return) Raise)
              (tasks l') tkm' Hm' Hrun (tame_sweep_state ots) ltac:(done))
    as (_ & Hothers & _).
  destruct (Hothers t _ Hne Ht') as ([c1 st1] & H1 & C1 & S1). simpl in C1, S1. subst c1.
  assert (Hst1 : st1 = Throw CancelledError Raise) by (by destruct S1 as [->| ->]).
  subst st1.
  assert (Hl1 : tasks (step self fuel w (run_task me) l) !! t =
                Some {| coroutine := c; state := Throw CancelledError Raise |}).
  { rewrite (step_run_task self fuel w l me tkme _ Hme Hcode). fold l0. rewrite Hexec.
    simpl. rewrite lookup_wake_all, H1. done. }
  assert (Hc1 : _clients (step self fuel w (run_task me) l) = _clients l).
  { rewrite (step_run_task self fuel w l me tkme _ Hme Hcode). fold l0. rewrite Hexec.
    simpl. unfold l'. by rewrite (proj1 (proj2 (cancel_all_spec me ots l0))). }
  destruct (cancelled_before_first_step self fuel w _ t c Hl1) as (S2 & C2 & H2).
  unfold steps. simpl foldl. split_and!; [done | done | by rewrite C2 | done].
Qed.

Lemma swept_before_first_step_witness :
  state_of (tasks (steps quiet_driver 2 (example_world 200 100) [run_task 3; run_task 2]
                     signalled_run)) 2 = Some (Done (Some CancelledError)) /\
  _clients (steps quiet_driver 2 (example_world 200 100) [run_task 3; run_task 2]
              signalled_run) = _clients signalled_run /\
  _clients signalled_run !! "bot-1" = Some example_bot.
Proof.
  destruct (swept_before_first_step quiet_driver 2 (example_world 200 100) signalled_run
              3 {| coroutine := call_shutdown (Some SIGINT); state := Fresh |}
              2 (call_http_loop example_bot example_request 3%float))
    as (_ & Hs & Hc & _); [vm_compute; reflexivity | vm_compute; reflexivity
                           | vm_compute; reflexivity | lia |].
  split_and!; [exact Hs | exact Hc | vm_compute; reflexivity].
Defined.

(** ** What only [shutdown] does, and what happens once *)

Lemma run_startup_funcs_harmless self w n :
  Forall (fun l => is_harmless l = true) (trace w n (run_startup_funcs self)).
Proof.
  rewrite (proj1 (run_startup_funcs_trace self w n)). unfold startup_funcs_trace.
  destruct (startup_hooks self) as [|c cs]; [constructor|].
  constructor; [done|].
  destruct (answer w n () (gather (c :: cs))) as [[]|e]; [constructor|].
  destruct (is_Exception e); by repeat constructor.
Qed.

(** X15: No coroutine of the driver but [shutdown] cancels a task or stops the
    event loop, whatever it is answered: not [startup], also when the
    setups fail, not a setup, not a loop. *)
Theorem only_shutdown_cancels_and_stops (self : Driver) (fuel : nat) (c : call)
    (w : world) (n : nat) :
  (forall signal, c <> call_shutdown signal) ->
  Forall (fun l => is_harmless l = true) (trace w n (body self fuel c)).
Proof.
  intros Hc. destruct c as [|s|a r p|a r p|b r p|b r p|f|f|b m|what];
    cbn [body].
  - unfold startup. destruct (setup_call <$> requests self) as [|c0 cs] eqn:Hs.
    + apply run_startup_funcs_harmless.
    + cbn [await_gather trace]. constructor; [done|].
      destruct (answer w n () (gather (c0 :: cs))) as [[]|e].
      * apply run_startup_funcs_harmless.
      * unfold abort_startup. destruct (is_Exception e); by repeat constructor.
  - by destruct (Hc s).
  - unfold _http_setup. destruct (_adapters self !! a) as [cls|]; [|constructor].
    cbn [await trace]. constructor; [done|].
    destruct (answer w n (option string) (check_permission cls r)) as [id|e];
      [|constructor].
    destruct (negb (truthy id)); by repeat constructor.
  - unfold _ws_setup. destruct (_adapters self !! a) as [cls|]; [|constructor].
    cbn [await trace]. constructor; [done|].
    destruct (answer w n (option string) (check_permission cls r)) as [id|e];
      [|constructor].
    destruct (negb (truthy id)); by repeat constructor.
  - apply http_loop_harmless.
  - apply ws_loop_harmless.
  - unfold user. simpl. constructor; [done|]. destruct (answer w n () _) as [[]|e]; constructor.
  - unfold user. simpl. constructor; [done|]. destruct (answer w n () _) as [[]|e]; constructor.
  - unfold user. simpl. constructor; [done|]. destruct (answer w n () _) as [[]|e]; constructor.
  - unfold user. simpl. constructor; [done|]. destruct (answer w n () _) as [[]|e]; constructor.
Qed.

Lemma only_shutdown_cancels_and_stops_witness :
  Forall (fun l => is_harmless l = true)
    (trace refusing_world 0 (body failing_driver 2 call_startup)).
Proof.
  apply (only_shutdown_cancels_and_stops failing_driver 2 call_startup refusing_world 0).
  intros signal. discriminate.
Defined.

